(** * The asynchronous email dispatch pipeline of the budget planner backend

    A shallow embedding of the Go packages [emailtypes], [queue],
    [integration] and [worker], followed by the properties of the
    pipeline.

    - A Go struct with its methods is a module named after the struct
      ([Email], [EmailTask], [RetryPolicy], [SMTPProvider]); the methods
      that act on the state shared by the whole process live in modules
      named after their packages ([queue], [integration], [worker]).
    - A call that can panic returns [None]; a Go [(value, error)] result
      is a [Result]; a [nil] error is [None].
    - [time.Now], [uuid.NewString] and the network are inputs supplied by
      the environment; sleeping only takes time and is left out.
    - Logging calls are left out, except where evaluating their arguments
      can panic (a [nil] [task.Email]). *)

From stdpp Require Import base list strings gmap pretty sorting.
From Stdlib Require Import ZArith Lia ZifyNat Ascii.

Open Scope Z_scope.

(* ================================================================== *)
(** * Part I: the program *)
(* ================================================================== *)

(** ** Go's [int]: 64-bit two's complement *)

Module GoInt.

Definition min_int : Z := - 2 ^ 63.
Definition max_int : Z := 2 ^ 63 - 1.

Definition in_range (z : Z) : Prop := min_int <= z <= max_int.

(** The value an [int] variable holds after an arithmetic result [z]. *)
Definition wrap (z : Z) : Z := (z - min_int) mod 2 ^ 64 + min_int.

(** [x++] *)
Definition incr (z : Z) : Z := wrap (z + 1).

(** [fmt.Sprintf("%d", z)] *)
Definition fmt_d (z : Z) : string := pretty z.

(** [s[i]] on a slice: [None] stands for the run-time panic. *)
Definition index {A} (l : list A) (i : Z) : option A :=
  if decide (0 <= i) then l !! Z.to_nat i else None.

(** [len(s)] *)
Definition len {A} (l : list A) : Z := Z.of_nat (length l).

End GoInt.

(** ** Errors

    [errors.New] and [fmt.Errorf] without [%w] build a plain error;
    [fmt.Errorf("prefix: %w", err)] wraps a cause. *)

Inductive error : Type :=
| ErrNew (msg : string)
| ErrWrap (prefix : string) (cause : error).

(** [err.Error()] *)
Fixpoint error_text (e : error) : string :=
  match e with
  | ErrNew m => m
  | ErrWrap p c => p +:+ ": " +:+ error_text c
  end.

(** ** Regular expressions ([regexp.MatchString] on an anchored pattern)

    Matching by derivatives; a pattern [^r$] matches [s] when [r]
    matches the whole of [s]. *)

Module Regex.

Inductive t : Type :=
| Void
| Eps
| Class (p : ascii → bool)
| Seq (r1 r2 : t)
| Alt (r1 r2 : t)
| Star (r : t).

Definition Chr (c : ascii) : t := Class (Ascii.eqb c).
Definition Plus (r : t) : t := Seq r (Star r).

Fixpoint nullable (r : t) : bool :=
  match r with
  | Void => false
  | Eps => true
  | Class _ => false
  | Seq r1 r2 => nullable r1 && nullable r2
  | Alt r1 r2 => nullable r1 || nullable r2
  | Star _ => true
  end.

Fixpoint deriv (c : ascii) (r : t) : t :=
  match r with
  | Void => Void
  | Eps => Void
  | Class p => if p c then Eps else Void
  | Seq r1 r2 =>
      if nullable r1
      then Alt (Seq (deriv c r1) r2) (deriv c r2)
      else Seq (deriv c r1) r2
  | Alt r1 r2 => Alt (deriv c r1) (deriv c r2)
  | Star r1 => Seq (deriv c r1) (Star r1)
  end.

Fixpoint full_match (r : t) (s : string) : bool :=
  match s with
  | EmptyString => nullable r
  | String c s' => full_match (deriv c r) s'
  end.

End Regex.

(** ** Character classes and [strings.TrimSpace] *)

Module Chars.

Definition code (c : ascii) : N := N_of_ascii c.

Definition between (lo hi : N) (c : ascii) : bool :=
  ((lo <=? code c) && (code c <=? hi))%N.

Definition lower (c : ascii) : bool := between 97 122 c.
Definition upper (c : ascii) : bool := between 65 90 c.
Definition digit (c : ascii) : bool := between 48 57 c.
Definition alpha (c : ascii) : bool := lower c || upper c.
Definition alnum (c : ascii) : bool := alpha c || digit c.

Definition one_of (s : string) (c : ascii) : bool :=
  existsb (Ascii.eqb c) (String.list_ascii_of_string s).

(** [unicode.IsSpace] over the UTF-8 encoding: the function answers
    whether every rune of the string is white space, which is when
    [strings.TrimSpace] returns the empty string.  White space is
    U+0009..U+000D, U+0020, U+0085, U+00A0, U+1680, U+2000..U+200A,
    U+2028, U+2029, U+202F, U+205F and U+3000. *)
Fixpoint all_space (s : string) : bool :=
  match s with
  | EmptyString => true
  | String a r1 =>
      if between 9 13 a || (code a =? 32)%N then all_space r1
      else
        match r1 with
        | EmptyString => false
        | String b r2 =>
            if (code a =? 194)%N && ((code b =? 133) || (code b =? 160))%N
            then all_space r2
            else
              match r2 with
              | EmptyString => false
              | String c r3 =>
                  let three x y z :=
                    ((code a =? x) && (code b =? y) && (code c =? z))%N in
                  if (three 225 154 128)%N
                     || ((code a =? 226) && (code b =? 128)
                         && between 128 138 c)%N
                     || (three 226 128 168)%N
                     || (three 226 128 169)%N
                     || (three 226 128 175)%N
                     || (three 226 129 159)%N
                     || (three 227 128 128)%N
                  then all_space r3
                  else false
              end
        end
  end.

(** [strings.TrimSpace(s) == ""] *)
Definition trims_to_empty (s : string) : bool := all_space s.

End Chars.

(** ** Package [emailtypes]: messages *)

(** [time.Time] is a count of nanoseconds, [0] being the zero time;
    [time.Duration] is a count of nanoseconds. *)
Definition Time : Type := Z.
Definition Duration : Type := Z.
Definition Minute : Duration := 60 * 1000000000.

Definition EmailStatusQueued : string := "queued".
Definition EmailStatusSent : string := "sent".
Definition EmailStatusFailed : string := "failed".
Definition EmailStatusRetry : string := "retry".

(** [IsValidStatus] *)
Definition IsValidStatus (status : string) : bool :=
  bool_decide (status = EmailStatusQueued)
  || bool_decide (status = EmailStatusSent)
  || bool_decide (status = EmailStatusFailed)
  || bool_decide (status = EmailStatusRetry).

Module Attachment.
Record t : Type := mk {
  Filename : string;
  ContentType : string;
  Content : list Byte.byte
}.
End Attachment.

Module EmailResponse.
Record t : Type := mk {
  MessageID : string;
  Status : string;
  SentAt : Time
}.
End EmailResponse.

Module Email.

Record t : Type := mk {
  ID : string;
  To : list string;
  CC : list string;
  BCC : list string;
  From : string;
  Subject : string;
  Body : string;
  Attachments : list Attachment.t;
  Metadata : gmap string string;
  SentAt : Time
}.

(** [^[a-zA-Z0-9._%+-]+@[a-zA-Z0-9.-]+\.[a-zA-Z]{2,}$] *)
Definition emailRegex : Regex.t :=
  let local c := Chars.alnum c || Chars.one_of "._%+-" c in
  let domain c := Chars.alnum c || Chars.one_of ".-" c in
  Regex.Seq (Regex.Plus (Regex.Class local))
    (Regex.Seq (Regex.Chr "@")
       (Regex.Seq (Regex.Plus (Regex.Class domain))
          (Regex.Seq (Regex.Chr ".")
             (Regex.Seq (Regex.Class Chars.alpha)
                (Regex.Plus (Regex.Class Chars.alpha)))))).

Definition isValidEmail (email : string) : bool :=
  Regex.full_match emailRegex email.

Definition allowedContentTypes : list string :=
  ["application/pdf"; "image/png"; "image/jpeg"; "text/plain"].

Definition validateAttachmentType (contentType : string) : bool :=
  bool_decide (contentType ∈ allowedContentTypes).

(** The body of the loop over the attachments. *)
Definition validate_attachment (a : Attachment.t) : option error :=
  if bool_decide (Attachment.Filename a = "") then
    Some (ErrNew "attachment filename is missing")
  else if bool_decide (Attachment.ContentType a = "") then
    Some (ErrNew "attachment content type is missing")
  else if bool_decide (length (Attachment.Content a) = 0%nat) then
    Some (ErrNew ("attachment content is empty: " +:+ Attachment.Filename a))
  else if negb (validateAttachmentType (Attachment.ContentType a)) then
    Some (ErrNew ("attachment " +:+ Attachment.Filename a
                  +:+ " has an unsupported content type: "
                  +:+ Attachment.ContentType a))
  else None.

(** A [for ... range] loop that returns at the first error. *)
Fixpoint first_error {A} (f : A → option error) (l : list A) : option error :=
  match l with
  | [] => None
  | x :: l' =>
      match f x with
      | Some e => Some e
      | None => first_error f l'
      end
  end.

Definition validate_recipient (r : string) : option error :=
  if isValidEmail r then None
  else Some (ErrNew ("invalid recipient email: " +:+ r)).

(** [Validate]: [None] is the [nil] error.  The check of the sender
    only prints a warning. *)
Definition Validate (e : t) : option error :=
  if bool_decide (length (To e) = 0%nat)
     && bool_decide (length (CC e) = 0%nat)
     && bool_decide (length (BCC e) = 0%nat)
  then Some (ErrNew "no recipients specified in To, Cc, or Bcc")
  else
    match first_error validate_recipient (To e ++ CC e ++ BCC e) with
    | Some err => Some err
    | None =>
        if Chars.trims_to_empty (Subject e) then
          Some (ErrNew "email subject is required")
        else if Chars.trims_to_empty (Body e) then
          Some (ErrNew "email body is empty")
        else first_error validate_attachment (Attachments e)
    end.

Definition set_SentAt (v : Time) (e : t) : t :=
  mk (ID e) (To e) (CC e) (BCC e) (From e) (Subject e) (Body e)
     (Attachments e) (Metadata e) v.

(** [PrepareForSend] *)
Definition PrepareForSend (now : Time) (e : t) : t :=
  if bool_decide (SentAt e = 0) then set_SentAt now e else e.

End Email.


(** ** Package [emailtypes]: tasks *)

Module EmailTask.

Record t : Type := mk {
  TaskID : string;
  Email : option Email.t;       (* [*Email], [None] is [nil] *)
  ProviderName : string;
  RetryCount : Z;
  MaxRetries : Z;
  RequestedAt : Time;
  CreatedAt : Time;
  Status : string;
  Priority : Z
}.

Definition set_TaskID (v : string) (x : t) : t :=
  mk v (Email x) (ProviderName x) (RetryCount x) (MaxRetries x)
     (RequestedAt x) (CreatedAt x) (Status x) (Priority x).
Definition set_Email (v : option Email.t) (x : t) : t :=
  mk (TaskID x) v (ProviderName x) (RetryCount x) (MaxRetries x)
     (RequestedAt x) (CreatedAt x) (Status x) (Priority x).
Definition set_RetryCount (v : Z) (x : t) : t :=
  mk (TaskID x) (Email x) (ProviderName x) v (MaxRetries x)
     (RequestedAt x) (CreatedAt x) (Status x) (Priority x).
Definition set_CreatedAt (v : Time) (x : t) : t :=
  mk (TaskID x) (Email x) (ProviderName x) (RetryCount x) (MaxRetries x)
     (RequestedAt x) v (Status x) (Priority x).
Definition set_Status (v : string) (x : t) : t :=
  mk (TaskID x) (Email x) (ProviderName x) (RetryCount x) (MaxRetries x)
     (RequestedAt x) (CreatedAt x) v (Priority x).

(** [generateUniqueID]: the decimal text of [time.Now().UnixNano()]. *)
Definition generateUniqueID (now : Time) : string := GoInt.fmt_d now.

(** [Validate] *)
Definition Validate (x : t) : option error :=
  match Email x with
  | None => Some (ErrNew "email is missing in the task")
  | Some e =>
      match Email.Validate e with
      | Some err => Some (ErrWrap "email validation failed" err)
      | None =>
          if bool_decide (ProviderName x = "")
          then Some (ErrNew "email provider is required")
          else None
      end
  end.

(** [PrepareTask]; the three readings of the clock are [now1..now3]. *)
Definition PrepareTask (now1 now2 now3 : Time) (x : t) : t :=
  let x := if bool_decide (TaskID x = "")
           then set_TaskID (generateUniqueID now1) x else x in
  let x := set_Email (Email.PrepareForSend now2 <$> Email x) x in
  let x := set_CreatedAt now3 x in
  set_Status EmailStatusQueued x.

(** [ShouldRetry]: the answer, for a retry count that is not negative;
    the back-off sleep before [true] only takes time.  (Below the
    limit, a negative count would make the shift [2<<t.RetryCount] of
    the back-off panic.) *)
Definition ShouldRetry (x : t) : bool :=
  if bool_decide (RetryCount x >= MaxRetries x) then false else true.

(** [MarkAsFailed] *)
Definition MarkAsFailed (x : t) : t :=
  let x := set_Status EmailStatusFailed x in
  set_RetryCount (MaxRetries x) x.

(** [MarkAsSent] *)
Definition MarkAsSent (x : t) : t := set_Status EmailStatusSent x.

(** [SetStatus] *)
Definition SetStatus (status : string) (x : t) : t := set_Status status x.

(** [IsCompleted] *)
Definition IsCompleted (x : t) : bool :=
  bool_decide (Status x = EmailStatusSent)
  || bool_decide (Status x = EmailStatusFailed).

(** [IsValidProvider] *)
Definition IsValidProvider (validProviders : list string) (x : t) : bool :=
  existsb (λ p, bool_decide (ProviderName x = p)) validProviders.

(** [IncrementRetry] *)
Definition IncrementRetry (x : t) : t :=
  let x := set_RetryCount (GoInt.incr (RetryCount x)) x in
  if bool_decide (RetryCount x >= MaxRetries x) then MarkAsFailed x else x.

End EmailTask.

(** ** Package [queue]: the retry policy *)

Module RetryPolicy.

Record t : Type := mk {
  MaxRetries : Z;
  RetryIntervals : list Duration;
  FailedTaskStore : gmap string EmailTask.t
}.

Definition DefaultRetryIntervals : list Duration :=
  [1 * Minute; 5 * Minute; 10 * Minute].

(** [NewRetryPolicy] *)
Definition NewRetryPolicy (maxRetries : Z) (retryIntervals : list Duration) : t :=
  let retryIntervals :=
    if bool_decide (GoInt.len retryIntervals = 0)
    then DefaultRetryIntervals else retryIntervals in
  mk maxRetries retryIntervals ∅.

(** [GetRetryInterval]; [None] is an index-out-of-range panic. *)
Definition GetRetryInterval (r : t) (retryCount : Z) : option Duration :=
  if bool_decide (retryCount >= GoInt.len (RetryIntervals r))
  then GoInt.index (RetryIntervals r) (GoInt.len (RetryIntervals r) - 1)
  else GoInt.index (RetryIntervals r) retryCount.

(** [SaveFailedTask] *)
Definition SaveFailedTask (task : EmailTask.t) (r : t) : t * option error :=
  if bool_decide (EmailTask.RetryCount task >= MaxRetries r)
  then (r, Some (ErrNew "max retry attempts reached"))
  else (mk (MaxRetries r) (RetryIntervals r)
           (<[EmailTask.TaskID task := task]> (FailedTaskStore r)), None).

(** [RemoveTask] *)
Definition RemoveTask (taskID : string) (r : t) : t :=
  mk (MaxRetries r) (RetryIntervals r) (delete taskID (FailedTaskStore r)).

(** [HasFailedTask] *)
Definition HasFailedTask (taskID : string) (r : t) : bool :=
  bool_decide (is_Some (FailedTaskStore r !! taskID)).

(** [GetFailedTasks].  Go does not specify the order in which a map is
    traversed; the tasks are listed here in the order of [map_to_list],
    which is one of the possible orders. *)
Definition GetFailedTasks (r : t) : list EmailTask.t * option error :=
  (filter (λ task, EmailTask.ShouldRetry task = true)
     ((map_to_list (FailedTaskStore r)).*2),
   None).

(** [ClearFailedTasks] *)
Definition ClearFailedTasks (r : t) : t :=
  mk (MaxRetries r) (RetryIntervals r) ∅.

(** [GetTaskByID]: the task pointer ([None] is [nil]) and the error. *)
Definition GetTaskByID (taskID : string) (r : t)
  : option EmailTask.t * option error :=
  match FailedTaskStore r !! taskID with
  | Some task => (Some task, None)
  | None => (None, Some (ErrNew "task not found"))
  end.

End RetryPolicy.

(** ** The environment: clock, identifiers, network

    An [EvAttempt] is one attempt of a provider to hand a message to a
    remote server through a named method.  The answer of the network to
    the attempt number [n] (counting from the start of the run) is
    [net n provider method email]: [None] when the message was accepted,
    [Some err] when the attempt failed.  [now_at] and [uuid_at] are the
    successive values returned by [time.Now] and [uuid.NewString]. *)

Inductive Event : Type :=
| EvAttempt (provider method : string) (email : Email.t).

Record Env : Type := mkEnv {
  net : nat → string → string → Email.t → option error;
  now_at : nat → Time;
  uuid_at : nat → string
}.

Record World : Type := mkWorld {
  trace : list Event;      (* the attempts made so far, oldest first *)
  ticks : nat;             (* how many times the clock was read *)
  uuids : nat              (* how many identifiers were drawn *)
}.

Definition World0 : World := mkWorld [] 0 0.

(** A computation that reads the environment and updates a state; the
    answer [None] is a run-time panic, after which nothing more runs. *)
Definition M (S A : Type) : Type := Env → S → option A * S.

Definition ret {S A} (a : A) : M S A := λ _ s, (Some a, s).

Definition bind {S A B} (m : M S A) (k : A → M S B) : M S B :=
  λ env s,
    match m env s with
    | (Some a, s') => k a env s'
    | (None, s') => (None, s')
    end.

Notation "x <- m ;; k" := (bind m (λ x, k))
  (at level 100, m at next level, right associativity).
Notation "m ;; k" := (bind m (λ _, k))
  (at level 100, right associativity).

Definition get {S} : M S S := λ _ s, (Some s, s).
Definition modify {S} (f : S → S) : M S unit := λ _ s, (Some tt, f s).

(** A value that exists, or the panic of the operation that should have
    produced it (nil dereference, index out of range). *)
Definition must {S A} (o : option A) : M S A := λ _ s, (o, s).

(** [time.Now()] *)
Definition time_Now : M World Time :=
  λ env w,
    (Some (now_at env (ticks w)), mkWorld (trace w) (S (ticks w)) (uuids w)).

(** [uuid.NewString()] *)
Definition uuid_NewString : M World string :=
  λ env w,
    (Some (uuid_at env (uuids w)), mkWorld (trace w) (ticks w) (S (uuids w))).

(** One attempt on the network. *)
Definition attempt (provider method : string) (email : Email.t)
  : M World (option error) :=
  λ env w,
    (Some (net env (length (trace w)) provider method email),
     mkWorld (trace w ++ [EvAttempt provider method email]) (ticks w) (uuids w)).

(** Go's [(value, error)] results. *)
Inductive Result (A : Type) : Type :=
| Ok (a : A)
| Err (e : error).
Arguments Ok {A} a.
Arguments Err {A} e.

(** ** Package [emailtypes]: providers *)

Module EmailProvider.

(** The interface [EmailProvider]. *)
Record t : Type := mk {
  Name : string;
  Send : Email.t → M World (Result EmailResponse.t);
  BatchSend : list Email.t → M World (list EmailResponse.t * option error)
}.

End EmailProvider.

Module SMTPConfig.
Record t : Type := mk {
  Host : string;
  Port : Z;
  Username : string;
  Password : string;
  FromEmail : string
}.
End SMTPConfig.

Module SMTPProvider.

Record t : Type := mk { config : SMTPConfig.t }.

(** [NewSMTPProvider] *)
Definition NewSMTPProvider (config : SMTPConfig.t) : t := mk config.

(** [Name] *)
Definition Name (p : t) : string := "smtp".

Definition crlf : string :=
  String (ascii_of_nat 13) (String (ascii_of_nat 10) EmptyString).

(** The loop of [chunkBase64]: [i] is the loop variable and [chunked]
    the text written so far.  The loop is given more turns than it can
    use; running out of turns would show as [None].  A string is far
    shorter than [2 ^ 63 - 76] bytes, so [i + 76] does not overflow and
    the indices are natural numbers. *)
Fixpoint chunk_loop (turns : nat) (input : string) (i : nat) (chunked : string)
  : option string :=
  match turns with
  | O => None
  | S turns' =>
      if bool_decide (i < String.length input)%nat then
        let end_ := (i + 76)%nat in
        let end_ :=
          if bool_decide (String.length input < end_)%nat
          then String.length input else end_ in
        chunk_loop turns' input (i + 76)
          (chunked +:+ (String.substring i (end_ - i) input +:+ crlf))
      else Some chunked
  end.

(** [chunkBase64] *)
Definition chunkBase64 (input : string) : option string :=
  chunk_loop (S (String.length input)) input 0 "".

(** The table [methods] of [tryAllConnectionMethods]: the name of each
    method and the message identifier it returns on success
    ([sendWithTLS], [sendWithStartTLS], and the closure around
    [smtp.SendMail]). *)
Definition methods : list (string * string) :=
  [("TLS", "smtp-tls-message-id");
   ("STARTTLS", "smtp-starttls-message-id");
   ("Plain", "smtp-plain-message-id")].

(** [%w] applied to a [nil] error. *)
Definition wrapped (lastErr : option error) : error :=
  match lastErr with
  | Some e => e
  | None => ErrNew "%!w(<nil>)"
  end.

(** The loop of [tryAllConnectionMethods]. *)
Fixpoint try_methods (p : t) (ms : list (string * string)) (email : Email.t)
    (lastErr : option error) : M World (Result string) :=
  match ms with
  | [] =>
      ret (Err (ErrWrap "all SMTP connection methods failed, last error"
                  (wrapped lastErr)))
  | (name, messageID) :: ms' =>
      r <- attempt (Name p) name email ;;
      match r with
      | None => ret (Ok messageID)
      | Some err => try_methods p ms' email (Some err)
      end
  end.

(** [tryAllConnectionMethods] *)
Definition tryAllConnectionMethods (p : t) (email : Email.t)
  : M World (Result string) :=
  try_methods p methods email None.

(** [Send].  [buildEmailMessage] has no failing path (its error is
    always [nil]) and the text it builds only travels to the network,
    whose answers are inputs here. *)
Definition Send (p : t) (email : Email.t) : M World (Result EmailResponse.t) :=
  match Email.Validate email with
  | Some err => ret (Err (ErrWrap "email validation failed" err))
  | None =>
      r <- tryAllConnectionMethods p email ;;
      match r with
      | Err sendErr => ret (Err (ErrWrap "failed to send email" sendErr))
      | Ok messageID =>
          now <- time_Now ;;
          ret (Ok (EmailResponse.mk messageID EmailStatusSent now))
      end
  end.

(** The loop of [BatchSend]; [responses] is the slice built so far. *)
Fixpoint batch_loop (p : t) (emails : list Email.t)
    (responses : list EmailResponse.t) : M World (list EmailResponse.t) :=
  match emails with
  | [] => ret responses
  | email :: rest =>
      r <- Send p email ;;
      now <- time_Now ;;
      match r with
      | Err _ =>
          batch_loop p rest
            (responses ++ [EmailResponse.mk "" EmailStatusFailed now])
      | Ok messageResponse =>
          batch_loop p rest
            (responses ++ [EmailResponse.mk
                             (EmailResponse.MessageID messageResponse)
                             EmailStatusSent now])
      end
  end.

(** [BatchSend] *)
Definition BatchSend (p : t) (emails : list Email.t)
  : M World (list EmailResponse.t * option error) :=
  responses <- batch_loop p emails [] ;;
  ret (responses, None).

(** The provider as a value of the interface. *)
Definition as_provider (p : t) : EmailProvider.t :=
  EmailProvider.mk (Name p) (Send p) (BatchSend p).

End SMTPProvider.

(** A second implementation of the interface, for providers other than
    SMTP: one attempt per message under the provider's own name. *)
Module StubProvider.

Definition Send (name : string) (email : Email.t)
  : M World (Result EmailResponse.t) :=
  r <- attempt name "send" email ;;
  match r with
  | Some err => ret (Err err)
  | None =>
      now <- time_Now ;;
      ret (Ok (EmailResponse.mk (name +:+ "-message-id") EmailStatusSent now))
  end.

Fixpoint BatchSend (name : string) (emails : list Email.t)
  : M World (list EmailResponse.t * option error) :=
  match emails with
  | [] => ret ([], None)
  | email :: rest =>
      r <- Send name email ;;
      rest' <- BatchSend name rest ;;
      match r with
      | Ok resp => ret (resp :: rest'.1, None)
      | Err _ => ret (EmailResponse.mk "" EmailStatusFailed 0 :: rest'.1, None)
      end
  end.

Definition as_provider (name : string) : EmailProvider.t :=
  EmailProvider.mk name (Send name) (BatchSend name).

End StubProvider.

(** ** Package [queue]: the priority queue

    [TaskPriorityQueue] is a slice of task pointers implementing
    [heap.Interface].  A task is referenced from one place at a time
    (the slice, a goroutine, or the loop that popped it), so the slice
    holds the task values.  Indices are natural numbers; an index that
    is out of range makes the operation panic ([None]). *)

Module TaskPriorityQueue.

Definition Len (pq : list EmailTask.t) : nat := length pq.

Definition Less (pq : list EmailTask.t) (i j : nat) : option bool :=
  a ← pq !! i;
  b ← pq !! j;
  Some (bool_decide (EmailTask.Priority a < EmailTask.Priority b)).

Definition Swap (pq : list EmailTask.t) (i j : nat) : option (list EmailTask.t) :=
  a ← pq !! i;
  b ← pq !! j;
  Some (<[j := a]> (<[i := b]> pq)).

Definition Push (pq : list EmailTask.t) (x : EmailTask.t) : list EmailTask.t :=
  pq ++ [x].

Definition Pop (pq : list EmailTask.t) : option (EmailTask.t * list EmailTask.t) :=
  let n := length pq in
  item ← pq !! (n - 1)%nat;
  if bool_decide (n = 0%nat) then None else Some (item, take (n - 1) pq).

End TaskPriorityQueue.

(** [container/heap] of Go's standard library, over a
    [TaskPriorityQueue].  The loops of [up] and [down] are given a number
    of turns that they cannot exhaust ([j + 1] and [n + 1]); running out
    of turns would show as [None].  With natural numbers as indices the
    test [j1 < 0] of [down] (an overflow of [int]) has no counterpart. *)

Module heap.

Fixpoint up_loop (turns : nat) (h : list EmailTask.t) (j : nat)
  : option (list EmailTask.t) :=
  match turns with
  | O => None
  | S turns' =>
      let i := ((j - 1) / 2)%nat in (* parent *)
      if bool_decide (i = j) then Some h
      else
        lt ← TaskPriorityQueue.Less h j i;
        if negb lt then Some h
        else
          h' ← TaskPriorityQueue.Swap h i j;
          up_loop turns' h' i
  end.

Definition up (h : list EmailTask.t) (j : nat) : option (list EmailTask.t) :=
  up_loop (S j) h j.

Fixpoint down_loop (turns : nat) (h : list EmailTask.t) (i0 i n : nat)
  : option (bool * list EmailTask.t) :=
  match turns with
  | O => None
  | S turns' =>
      let j1 := (2 * i + 1)%nat in
      if bool_decide (n ≤ j1)%nat then Some (bool_decide (i0 < i)%nat, h)
      else
        let j2 := (j1 + 1)%nat in
        right_less ←
          (if bool_decide (j2 < n)%nat
           then TaskPriorityQueue.Less h j2 j1 else Some false);
        let j := if (right_less : bool) then j2 else j1 in
        lt ← TaskPriorityQueue.Less h j i;
        if negb lt then Some (bool_decide (i0 < i)%nat, h)
        else
          h' ← TaskPriorityQueue.Swap h i j;
          down_loop turns' h' i0 j n
  end.

Definition down (h : list EmailTask.t) (i0 n : nat)
  : option (bool * list EmailTask.t) :=
  down_loop (S n) h i0 i0 n.

(** The loop [for i := n/2 - 1; i >= 0; i--] of [Init], [k] being
    [i + 1]. *)
Fixpoint init_loop (k : nat) (h : list EmailTask.t) (n : nat)
  : option (list EmailTask.t) :=
  match k with
  | O => Some h
  | S i =>
      r ← down h i n;
      init_loop i r.2 n
  end.

Definition Init (h : list EmailTask.t) : option (list EmailTask.t) :=
  let n := TaskPriorityQueue.Len h in
  init_loop (n / 2) h n.

Definition Push (h : list EmailTask.t) (x : EmailTask.t)
  : option (list EmailTask.t) :=
  let h := TaskPriorityQueue.Push h x in
  up h (TaskPriorityQueue.Len h - 1).

Definition Pop (h : list EmailTask.t)
  : option (EmailTask.t * list EmailTask.t) :=
  let n := (TaskPriorityQueue.Len h - 1)%nat in
  h ← TaskPriorityQueue.Swap h 0 n;
  r ← down h 0 n;
  TaskPriorityQueue.Pop r.2.

End heap.


(** ** The structs of the packages [queue], [integration] and [worker] *)

Module DefaultEmailQueue.
(** The mutex only serialises the heap operations, which are atomic
    steps here.  [emailService] is a non-nil interface value. *)
Record t : Type := mk {
  taskQueue : list EmailTask.t;
  retryPolicy : RetryPolicy.t;
  emailService : EmailProvider.t
}.

Definition set_taskQueue (v : list EmailTask.t) (q : t) : t :=
  mk v (retryPolicy q) (emailService q).
Definition set_emailService (v : EmailProvider.t) (q : t) : t :=
  mk (taskQueue q) (retryPolicy q) v.
End DefaultEmailQueue.

(** The queue a manager is wired to: the one [DefaultEmailQueue] of the
    process. *)
Inductive EmailQueueRef : Type := TheEmailQueue.

Module EmailConfig.
Record t : Type := mk {
  Provider : string;
  SenderEmail : string;
  MaxRetries : Z;
  RetryIntervals : list Duration;
  SMTP : SMTPConfig.t;
  Enabled : bool
}.
End EmailConfig.

Module EmailManager.
Record t : Type := mk {
  MaxRetries : Z;
  providers : gmap string EmailProvider.t;
  defaultProvider : option EmailProvider.t;   (* [None] is [nil] *)
  emailQueue : option EmailQueueRef           (* [None] is [nil] *)
}.
End EmailManager.

Module EmailWorker.
(** The fields [manager] and [emailQueue] point to the manager and to
    the queue of the process; the manager is passed to the methods
    below in the state it has when they run. *)
Record t : Type := mk {
  retryPolicy : RetryPolicy.t;
  maxRetries : Z
}.
End EmailWorker.

(** ** The run-time state

    A goroutine started by [go func() { ... }()] waits in [goroutines]
    with the task it captured until the scheduler runs it.  [finished]
    collects the tasks that no part of the program references any more,
    in the state they were left in. *)

Inductive Goroutine : Type :=
| GoQueueRetry (task : EmailTask.t)                     (* [DefaultEmailQueue.retryFailedTask] *)
| GoWorkerRetry (delay : Duration) (task : EmailTask.t) (* [EmailWorker.retryFailedTask] *).

Record Sys : Type := mkSys {
  world : World;
  queue : DefaultEmailQueue.t;
  goroutines : list Goroutine;
  finished : list EmailTask.t
}.

Definition set_world (v : World) (s : Sys) : Sys :=
  mkSys v (queue s) (goroutines s) (finished s).
Definition set_queue (v : DefaultEmailQueue.t) (s : Sys) : Sys :=
  mkSys (world s) v (goroutines s) (finished s).
Definition set_goroutines (v : list Goroutine) (s : Sys) : Sys :=
  mkSys (world s) (queue s) v (finished s).
Definition set_finished (v : list EmailTask.t) (s : Sys) : Sys :=
  mkSys (world s) (queue s) (goroutines s) v.

(** A computation on the world, run inside the process. *)
Definition in_world {A} (m : M World A) : M Sys A :=
  λ env s, let '(a, w) := m env (world s) in (a, set_world w s).

(** [go f()] *)
Definition spawn (g : Goroutine) : M Sys unit :=
  modify (λ s, set_goroutines (goroutines s ++ [g]) s).

(** The last reference to a task goes away. *)
Definition release (task : EmailTask.t) : M Sys unit :=
  modify (λ s, set_finished (finished s ++ [task]) s).

(** ** Package [queue]: methods of [DefaultEmailQueue] *)

Module queue.

(** [NewEmailQueue] *)
Definition NewEmailQueue (emailService : EmailProvider.t)
    (retryPolicy : RetryPolicy.t) : option DefaultEmailQueue.t :=
  pq ← heap.Init [];
  Some (DefaultEmailQueue.mk pq retryPolicy emailService).

(** [Enqueue]; the last step is the log line that reads
    [task.Email.To]. *)
Definition Enqueue (task : EmailTask.t) : M Sys (option error) :=
  id <- in_world uuid_NewString ;;
  let task := EmailTask.set_TaskID id task in
  now <- in_world time_Now ;;
  let task := EmailTask.set_CreatedAt now task in
  s <- get ;;
  pq <- must (heap.Push (DefaultEmailQueue.taskQueue (queue s)) task) ;;
  modify (λ s, set_queue (DefaultEmailQueue.set_taskQueue pq (queue s)) s) ;;
  _ <- must (EmailTask.Email task) ;;
  ret None.

(** [processTask]: the error and the task as it leaves the call. *)
Definition processTask (task : EmailTask.t)
  : M Sys (option error * EmailTask.t) :=
  s <- get ;;
  email <- must (EmailTask.Email task) ;;
  r <- in_world
         (EmailProvider.Send (DefaultEmailQueue.emailService (queue s)) email) ;;
  match r with
  | Err err => ret (Some err, EmailTask.MarkAsFailed task)
  | Ok resp => ret (None, EmailTask.MarkAsSent task)
  end.

(** [retryFailedTask] *)
Definition retryFailedTask (task : EmailTask.t) : M Sys unit :=
  spawn (GoQueueRetry task).

(** The goroutine of [retryFailedTask]. *)
Definition retryFailedTask_go (task : EmailTask.t) : M Sys unit :=
  if EmailTask.ShouldRetry task then
    _ <- Enqueue task ;; ret tt
  else
    release (EmailTask.MarkAsFailed task).

(** The head of a turn of the loop of [ProcessQueue]: the locked
    section.  [None] when the queue is empty (the loop then sleeps a
    second and starts over). *)
Definition pop : M Sys (option EmailTask.t) :=
  s <- get ;;
  let q := queue s in
  if bool_decide (length (DefaultEmailQueue.taskQueue q) = 0%nat) then ret None
  else
    r <- must (heap.Pop (DefaultEmailQueue.taskQueue q)) ;;
    modify (λ s, set_queue (DefaultEmailQueue.set_taskQueue r.2 (queue s)) s) ;;
    ret (Some r.1).

(** The rest of the turn, for the task that was popped. *)
Definition handle (task : EmailTask.t) : M Sys unit :=
  if EmailTask.IsCompleted task then release task
  else
    _ <- must (EmailTask.Email task) ;;
    r <- processTask task ;;
    let task := r.2 in
    match r.1 with
    | Some err =>
        if EmailTask.ShouldRetry task then
          let task := EmailTask.IncrementRetry task in
          retryFailedTask task
        else
          release (EmailTask.MarkAsFailed task)
    | None => release task
    end.

(** One turn of the [for] loop of [ProcessQueue]. *)
Definition ProcessQueue_turn : M Sys unit :=
  o <- pop ;;
  match o with
  | None => ret tt
  | Some task => handle task
  end.

(** [SetEmailService] *)
Definition SetEmailService (provider : EmailProvider.t) : M Sys unit :=
  modify (λ s, set_queue (DefaultEmailQueue.set_emailService provider (queue s)) s).

End queue.

(** ** Package [integration]: methods of [EmailManager] *)

Module integration.

(** [loadProviders]: the provider map after the call. *)
Definition loadProviders (config : EmailConfig.t)
    (providers : gmap string EmailProvider.t) : gmap string EmailProvider.t :=
  if negb (bool_decide (SMTPConfig.Host (EmailConfig.SMTP config) = ""))
     && EmailConfig.Enabled config
  then <["smtp" := SMTPProvider.as_provider
                     (SMTPProvider.NewSMTPProvider (EmailConfig.SMTP config))]>
         providers
  else providers.

(** [NewEmailManager] *)
Definition NewEmailManager (config : EmailConfig.t)
    (emailQueue : option EmailQueueRef) : Result EmailManager.t :=
  let providers := loadProviders config ∅ in
  let manager d :=
    EmailManager.mk (EmailConfig.MaxRetries config) providers (Some d) emailQueue in
  match providers !! EmailConfig.Provider config, EmailConfig.Enabled config with
  | Some provider, true => Ok (manager provider)
  | _, _ =>
      match providers !! "smtp", EmailConfig.Enabled config with
      | Some smtpProvider, true => Ok (manager smtpProvider)
      | _, _ =>
          Err (ErrNew "no valid email provider configured or email sending is disabled")
      end
  end.

(** [Send] *)
Definition Send (m : EmailManager.t) (email : Email.t) : M World (Result string) :=
  match EmailManager.defaultProvider m with
  | None => ret (Err (ErrNew "email send failed: no default provider configured"))
  | Some p =>
      r <- EmailProvider.Send p email ;;
      match r with
      | Err err => ret (Err err)
      | Ok messageResponse => ret (Ok (EmailResponse.MessageID messageResponse))
      end
  end.

(** [QueueEmail]; [optionalParams] is the variadic tail. *)
Definition QueueEmail (m : EmailManager.t) (email : Email.t)
    (optionalParams : list Z) : M Sys (option error) :=
  match EmailManager.emailQueue m with
  | None => ret (Some (ErrNew "email queue not initialized"))
  | Some TheEmailQueue =>
      match Email.Validate email with
      | Some err => ret (Some (ErrWrap "email validation failed" err))
      | None =>
          let priority := 2 in
          let maxRetries := EmailManager.MaxRetries m in
          let priority :=
            match optionalParams !! 0%nat with
            | Some p0 => if bool_decide (p0 > 0) then p0 else priority
            | None => priority
            end in
          let maxRetries :=
            match optionalParams !! 1%nat with
            | Some p1 =>
                if bool_decide (p1 > 0)
                   && bool_decide (p1 <= EmailManager.MaxRetries m)
                then p1 else maxRetries
            | None => maxRetries
            end in
          p <- must (EmailManager.defaultProvider m) ;;
          let task :=
            EmailTask.mk "" (Some email) (EmailProvider.Name p) 0 maxRetries
              0 0 "" priority in
          (* task.PrepareTask() and the clock readings it makes *)
          now1 <- in_world time_Now ;;
          now2 <- (if bool_decide (Email.SentAt email = 0)
                   then in_world time_Now else ret 0) ;;
          now3 <- in_world time_Now ;;
          let task := EmailTask.PrepareTask now1 now2 now3 task in
          err <- queue.Enqueue task ;;
          match err with
          | Some e => ret (Some (ErrWrap "failed to enqueue email" e))
          | None => ret None
          end
      end
  end.

(** [SetEmailQueue] *)
Definition SetEmailQueue (emailQueue : option EmailQueueRef)
    (m : EmailManager.t) : EmailManager.t :=
  EmailManager.mk (EmailManager.MaxRetries m) (EmailManager.providers m)
    (EmailManager.defaultProvider m) emailQueue.

(** [GetDefaultProvider] *)
Definition GetDefaultProvider (m : EmailManager.t) : option EmailProvider.t :=
  EmailManager.defaultProvider m.

End integration.

(** ** Package [worker]: methods of [EmailWorker] *)

Module worker.

(** [NewEmailWorker]; the policy is passed by value. *)
Definition NewEmailWorker (retryPolicy : RetryPolicy.t) (maxRetries : Z)
  : EmailWorker.t :=
  EmailWorker.mk retryPolicy maxRetries.

(** [strings.Join] *)
Fixpoint strings_Join (l : list string) (sep : string) : string :=
  match l with
  | [] => ""
  | [x] => x
  | x :: l' => x +:+ sep +:+ strings_Join l' sep
  end.

(** [formatRecipients] *)
Definition formatRecipients (recipients : list string) : string :=
  if bool_decide (length recipients = 0%nat) then "No Recipients"
  else strings_Join recipients ", ".

Definition adminEmail : string := "admin@tnprgpv.com".

Definition quote : string := String (ascii_of_nat 34) EmptyString.
Definition line_break : string :=
  String (ascii_of_nat 10)
    (String (ascii_of_nat 9) (String (ascii_of_nat 9) EmptyString)).

(** The HTML body built by [fmt.Sprintf] in [notifyAdminOnFailure]. *)
Definition alert_body (task : EmailTask.t) (email : Email.t) : string :=
  line_break +:+ "<h2 style=" +:+ quote +:+ "color: red;" +:+ quote
    +:+ ">Email Task Failure Alert</h2>"
  +:+ line_break +:+ "<p><strong>Task ID:</strong> "
    +:+ EmailTask.TaskID task +:+ "</p>"
  +:+ line_break +:+ "<p><strong>Recipients:</strong> "
    +:+ formatRecipients (Email.To email) +:+ "</p>"
  +:+ line_break +:+ "<p><strong>Subject:</strong> "
    +:+ Email.Subject email +:+ "</p>"
  +:+ line_break +:+ "<p><strong>Provider:</strong> "
    +:+ EmailTask.ProviderName task +:+ "</p>"
  +:+ line_break +:+ "<p><strong>Priority:</strong> "
    +:+ GoInt.fmt_d (EmailTask.Priority task) +:+ "</p>"
  +:+ line_break +:+ "<p><strong>Error:</strong> Max retries exceeded</p>"
  +:+ line_break.

(** The message built by [notifyAdminOnFailure]. *)
Definition alert_email (now : Time) (task : EmailTask.t) (email : Email.t)
  : Email.t :=
  let metadata : gmap string string :=
    <["type" := "admin_failure_alert"]>
      (<["task_id" := EmailTask.TaskID task]>
         (<["provider" := EmailTask.ProviderName task]>
            (<["priority" := GoInt.fmt_d (EmailTask.Priority task)]>
               (<["max_tries" := GoInt.fmt_d (EmailTask.MaxRetries task)]> ∅)))) in
  Email.mk ("admin-alert-" +:+ EmailTask.TaskID task)
    [adminEmail] [] [] "no-reply@tnprgpv.com"
    "🚨 Email Task Failure Alert"
    (alert_body task email) [] metadata now.

(** [notifyAdminOnFailure]: the result of the send is only logged. *)
Definition notifyAdminOnFailure (m : EmailManager.t) (task : EmailTask.t)
  : M Sys unit :=
  email <- must (EmailTask.Email task) ;;
  now <- in_world time_Now ;;
  _ <- in_world (integration.Send m (alert_email now task email)) ;;
  ret tt.

(** [handleFailedTask] *)
Definition handleFailedTask (m : EmailManager.t) (task : EmailTask.t)
  : M Sys unit :=
  _ <- must (EmailTask.Email task) ;;
  notifyAdminOnFailure m task.

(** [retryFailedTask]: the interval is computed, then the goroutine
    is started. *)
Definition retryFailedTask (w : EmailWorker.t) (task : EmailTask.t)
  : M Sys unit :=
  delay <- must (RetryPolicy.GetRetryInterval (EmailWorker.retryPolicy w)
                   (EmailTask.RetryCount task)) ;;
  spawn (GoWorkerRetry delay task).

(** The goroutine of [retryFailedTask], after its sleep. *)
Definition retryFailedTask_go (task : EmailTask.t) : M Sys unit :=
  let task := EmailTask.set_RetryCount (GoInt.incr (EmailTask.RetryCount task)) task in
  _ <- queue.Enqueue task ;;
  ret tt.

(** [processEmailTask] *)
Definition processEmailTask (w : EmailWorker.t) (m : EmailManager.t)
    (task : EmailTask.t) : M Sys unit :=
  email <- must (EmailTask.Email task) ;;
  r <- in_world (integration.Send m email) ;;
  match r with
  | Err err =>
      if EmailTask.ShouldRetry task then retryFailedTask w task
      else
        let task := EmailTask.MarkAsFailed task in
        handleFailedTask m task ;;
        release task
  | Ok messageID => release (EmailTask.MarkAsSent task)
  end.

(** [processQueue]: one turn of the loop of a worker that was not
    cancelled.  [ProcessQueue] never returns, so the turn is a turn
    of its loop. *)
Definition processQueue_turn : M Sys unit := queue.ProcessQueue_turn.

End worker.

(** ** Scheduling

    A step of the process is a turn of the queue loop by one of the
    workers, or the run of a waiting goroutine. *)

Inductive Step : Type :=
| StepTurn
| StepGo (k : nat).

Definition run_goroutine (g : Goroutine) : M Sys unit :=
  match g with
  | GoQueueRetry task => queue.retryFailedTask_go task
  | GoWorkerRetry _ task => worker.retryFailedTask_go task
  end.

Definition step (st : Step) : M Sys unit :=
  match st with
  | StepTurn => worker.processQueue_turn
  | StepGo k =>
      s <- get ;;
      match goroutines s !! k with
      | None => ret tt
      | Some g =>
          modify (λ s, set_goroutines (delete k (goroutines s)) s) ;;
          run_goroutine g
      end
  end.

Fixpoint run (sts : list Step) : M Sys unit :=
  match sts with
  | [] => ret tt
  | st :: sts' => step st ;; run sts'
  end.

(** ** Package [router]: the wiring of the pipeline

    The part of [RegisterRoutes] that builds the retry policy, the manager,
    the queue and the worker.  [logger.Fatal] ends the process with the
    error ([Err]).  A [nil] default provider would make
    [SetEmailService] panic when it reads [provider.Name()], nothing
    being observable before: the answer is then [Ok None].  The process
    starts with an empty trace. *)

Module router.

Definition RegisterRoutes (cfg : EmailConfig.t) (env : Env)
  : Result (option (EmailManager.t * EmailWorker.t * Sys)) :=
  let retryPolicy :=
    RetryPolicy.NewRetryPolicy (EmailConfig.MaxRetries cfg)
      (EmailConfig.RetryIntervals cfg) in
  match integration.NewEmailManager cfg None with
  | Err err => Err err
  | Ok emailManager =>
      Ok (provider ← integration.GetDefaultProvider emailManager;
          emailQueue ← queue.NewEmailQueue provider retryPolicy;
          let emailManager :=
            integration.SetEmailQueue (Some TheEmailQueue) emailManager in
          provider ← integration.GetDefaultProvider emailManager;
          let r := queue.SetEmailService provider env
                     (mkSys World0 emailQueue [] []) in
          _ ← r.1;
          let emailWorker :=
            worker.NewEmailWorker retryPolicy (EmailConfig.MaxRetries cfg) in
          Some (emailManager, emailWorker, r.2))
  end.

End router.

(* ================================================================== *)
(** * Part II: vocabulary of the properties *)
(* ================================================================== *)

Ltac Zify.zify_post_hook ::= Z.to_euclidean_division_equations.

Local Abbreviation prio := EmailTask.Priority.
Local Abbreviation tq s := (DefaultEmailQueue.taskQueue (queue s)).

(** ** The binary heap *)

Definition parent (k : nat) : nat := ((k - 1) / 2)%nat.

(** The element at [k] is not more urgent than its parent. *)
Definition ok_at (h : list EmailTask.t) (k : nat) : Prop :=
  ∀ a b, h !! k = Some a → h !! parent k = Some b → prio b <= prio a.

Definition heap_ordered_upto (n : nat) (h : list EmailTask.t) : Prop :=
  ∀ k, (k < n)%nat → ok_at h k.

Definition heap_ordered (h : list EmailTask.t) : Prop := ∀ k, ok_at h k.

(** Ordered everywhere except maybe between [j] and its parent. *)
Definition up_inv (h : list EmailTask.t) (j : nat) : Prop :=
  (∀ k, k ≠ j → ok_at h k) ∧
  (∀ c a b, parent c = j → c ≠ j →
     h !! c = Some a → h !! parent j = Some b → prio b <= prio a).

(** Ordered below [n] except maybe between [i] and its children. *)
Definition down_inv (n : nat) (h : list EmailTask.t) (i : nat) : Prop :=
  (∀ k, (k < n)%nat → (parent k = i → k = i) → ok_at h k) ∧
  (∀ c a b, (c < n)%nat → parent c = i → c ≠ i → parent i ≠ i →
     h !! c = Some a → h !! parent i = Some b → prio b <= prio a).

(** ** Sequences of queue operations *)

(** The task that [Enqueue] stores for [task] when called in state [s]. *)
Definition enqueued (env : Env) (s : Sys) (task : EmailTask.t) : EmailTask.t :=
  EmailTask.set_CreatedAt (now_at env (ticks (world s)))
    (EmailTask.set_TaskID (uuid_at env (uuids (world s))) task).

(** A task without the two fields that [Enqueue] overwrites. *)
Definition payload (task : EmailTask.t) : EmailTask.t :=
  EmailTask.set_CreatedAt 0 (EmailTask.set_TaskID "" task).

Inductive QueueOp : Type :=
| OpEnqueue (task : EmailTask.t)
| OpPop.

(** Runs the operations in order and collects what the pops return. *)
Fixpoint run_ops (ops : list QueueOp) : M Sys (list (option EmailTask.t)) :=
  match ops with
  | [] => ret []
  | OpEnqueue task :: ops' => queue.Enqueue task ;; run_ops ops'
  | OpPop :: ops' => o <- queue.pop ;; os <- run_ops ops' ;; ret (o :: os)
  end.

Fixpoint enqueue_all (tasks : list EmailTask.t) : M Sys unit :=
  match tasks with
  | [] => ret tt
  | task :: tasks' => queue.Enqueue task ;; enqueue_all tasks'
  end.

Fixpoint pop_n (n : nat) : M Sys (list (option EmailTask.t)) :=
  match n with
  | O => ret []
  | S n' => o <- queue.pop ;; os <- pop_n n' ;; ret (o :: os)
  end.

(** A process whose queue was just built by [NewEmailQueue]. *)
Definition fresh (s : Sys) : Prop :=
  queue.NewEmailQueue (DefaultEmailQueue.emailService (queue s))
    (DefaultEmailQueue.retryPolicy (queue s)) = Some (queue s).

(** ** Sending *)

(** The trace after the SMTP provider tried the given methods, in
    order, for [email]. *)
Definition attempted (w : World) (methods : list string) (email : Email.t)
  : list Event :=
  trace w ++ ((λ m, EvAttempt "smtp" m email) <$> methods).

(** The world after [k] more attempts and [t] more readings of the clock. *)
Definition advanced (w : World) (tr : list Event) (t : nat) : World :=
  mkWorld tr (t + ticks w) (uuids w).

(** The answers of the network to the next three attempts. *)
Definition answer (env : Env) (w : World) (k : nat) (method : string)
    (email : Email.t) : option error :=
  net env (length (trace w) + k) "smtp" method email.

(** The ways of being invalid that the specification lists. *)
Definition listed_invalid (e : Email.t) : Prop :=
  (Email.To e = [] ∧ Email.CC e = [] ∧ Email.BCC e = [])
  ∨ Email.Subject e = ""
  ∨ Email.Body e = ""
  ∨ ∃ a, a ∈ Email.Attachments e ∧
         (Attachment.Filename a = ""
          ∨ Attachment.ContentType a = ""
          ∨ Attachment.ContentType a ∉ Email.allowedContentTypes
          ∨ Attachment.Content a = []).

(** [BatchSend] as the specification describes it: one response per
    message, in the order of the messages, each recording the outcome
    of the [Send] of its own message. *)
Inductive batch_outcome (p : SMTPProvider.t) (env : Env)
  : World → list Email.t → list EmailResponse.t → World → Prop :=
| batch_done w :
    batch_outcome p env w [] [] w
| batch_sent w w1 w2 w3 email emails r now responses :
    SMTPProvider.Send p email env w = (Some (Ok r), w1) →
    time_Now env w1 = (Some now, w2) →
    batch_outcome p env w2 emails responses w3 →
    batch_outcome p env w (email :: emails)
      (EmailResponse.mk (EmailResponse.MessageID r) EmailStatusSent now :: responses) w3
| batch_failed w w1 w2 w3 email emails err now responses :
    SMTPProvider.Send p email env w = (Some (Err err), w1) →
    time_Now env w1 = (Some now, w2) →
    batch_outcome p env w2 emails responses w3 →
    batch_outcome p env w (email :: emails)
      (EmailResponse.mk "" EmailStatusFailed now :: responses) w3.

(** A network whose answer does not depend on when it is asked. *)
Definition stateless (env : Env) : Prop :=
  ∀ n n' provider method email,
    net env n provider method email = net env n' provider method email.

(** Whether the SMTP provider can deliver [email] on a stateless
    network: the message is valid and some method is accepted. *)
Definition deliverable (env : Env) (email : Email.t) : bool :=
  match Email.Validate email with
  | Some _ => false
  | None =>
      existsb (λ m, match net env 0 "smtp" m email with
                    | None => true
                    | Some _ => false
                    end)
        ["TLS"; "STARTTLS"; "Plain"]
  end.

Definition is_Ok {A} (r : Result A) : bool :=
  match r with Ok _ => true | Err _ => false end.

(** ** Tasks *)

(** What [QueueEmail] makes of the optional parameters. *)
Definition priority_of (params : list Z) : Z :=
  match params !! 0%nat with
  | Some v => if decide (0 < v) then v else 2
  | None => 2
  end.

Definition maxRetries_of (m : EmailManager.t) (params : list Z) : Z :=
  match params !! 1%nat with
  | Some v =>
      if decide (0 < v ∧ v <= EmailManager.MaxRetries m) then v
      else EmailManager.MaxRetries m
  | None => EmailManager.MaxRetries m
  end.

(** The invariant that the data model states for a task. *)
Definition retry_invariant (t : EmailTask.t) : Prop :=
  EmailTask.RetryCount t <= EmailTask.MaxRetries t ∧
  (EmailTask.RetryCount t = EmailTask.MaxRetries t →
   EmailTask.Status t = EmailStatusFailed).

(** The mutations of a task.  [MutWorkerRetry] is the goroutine of
    [EmailWorker.retryFailedTask]: [RetryCount++] and the two fields
    that [Enqueue] overwrites; the worker starts it only when
    [ShouldRetry] answered [true]. *)
Inductive Mutation : Type :=
| MutPrepareTask (now1 now2 now3 : Time)
| MutIncrementRetry
| MutMarkAsFailed
| MutMarkAsSent
| MutWorkerRetry (id : string) (now : Time).

Definition mutate (mu : Mutation) (t : EmailTask.t) : option EmailTask.t :=
  match mu with
  | MutPrepareTask now1 now2 now3 => Some (EmailTask.PrepareTask now1 now2 now3 t)
  | MutIncrementRetry => Some (EmailTask.IncrementRetry t)
  | MutMarkAsFailed => Some (EmailTask.MarkAsFailed t)
  | MutMarkAsSent => Some (EmailTask.MarkAsSent t)
  | MutWorkerRetry id now =>
      if EmailTask.ShouldRetry t then
        Some (EmailTask.set_CreatedAt now
                (EmailTask.set_TaskID id
                   (EmailTask.set_RetryCount
                      (GoInt.incr (EmailTask.RetryCount t)) t)))
      else None
  end.

Fixpoint mutate_all (mus : list Mutation) (t : EmailTask.t) : option EmailTask.t :=
  match mus with
  | [] => Some t
  | mu :: mus' => t' ← mutate mu t; mutate_all mus' t'
  end.

(** The counters of a task are machine integers and the count does not
    exceed the limit. *)
Definition count_ok (t : EmailTask.t) : Prop :=
  GoInt.in_range (EmailTask.RetryCount t) ∧
  EmailTask.RetryCount t <= EmailTask.MaxRetries t ∧
  EmailTask.MaxRetries t <= GoInt.max_int.

(** A loop that hands the popped task to [processEmailTask], followed by
    the run of the goroutine that the call started. *)
Definition worker_turn (w : EmailWorker.t) (m : EmailManager.t) : M Sys unit :=
  o <- queue.pop ;;
  match o with
  | None => ret tt
  | Some task => worker.processEmailTask w m task
  end.

Definition worker_round (w : EmailWorker.t) (m : EmailManager.t) : M Sys unit :=
  worker_turn w m ;; step (StepGo 0).

Definition summary (t : EmailTask.t) : Z * Z * string :=
  (EmailTask.RetryCount t, EmailTask.MaxRetries t, EmailTask.Status t).


(** ** Events *)

Definition event_provider (ev : Event) : string :=
  match ev with EvAttempt provider _ _ => provider end.

Definition event_method (ev : Event) : string :=
  match ev with EvAttempt _ method _ => method end.

Definition event_recipients (ev : Event) : list string :=
  match ev with EvAttempt _ _ email => Email.To email end.

(** The task [x] with another provider name recorded on it. *)
Definition with_ProviderName (name : string) (x : EmailTask.t) : EmailTask.t :=
  EmailTask.mk (EmailTask.TaskID x) (EmailTask.Email x) name
    (EmailTask.RetryCount x) (EmailTask.MaxRetries x) (EmailTask.RequestedAt x)
    (EmailTask.CreatedAt x) (EmailTask.Status x) (EmailTask.Priority x).

(** ** The language of a regular expression *)

(** The strings that a pattern denotes. *)
Inductive matches : Regex.t → string → Prop :=
| matches_eps : matches Regex.Eps ""
| matches_class p c : p c = true → matches (Regex.Class p) (String c "")
| matches_seq r1 r2 s1 s2 :
    matches r1 s1 → matches r2 s2 → matches (Regex.Seq r1 r2) (s1 +:+ s2)
| matches_alt_l r1 r2 s : matches r1 s → matches (Regex.Alt r1 r2) s
| matches_alt_r r1 r2 s : matches r2 s → matches (Regex.Alt r1 r2) s
| matches_star_nil r : matches (Regex.Star r) ""
| matches_star_cons r s1 s2 :
    matches r s1 → matches (Regex.Star r) s2 → matches (Regex.Star r) (s1 +:+ s2).

(** Every character of [s] is in the class [p]. *)
Fixpoint all_chars (p : ascii → bool) (s : string) : bool :=
  match s with
  | EmptyString => true
  | String c s' => p c && all_chars p s'
  end.

Definition local_char (c : ascii) : bool :=
  Chars.alnum c || Chars.one_of "._%+-" c.

Definition domain_char (c : ascii) : bool :=
  Chars.alnum c || Chars.one_of ".-" c.

(** [local@domain.tld]: a local part and a domain that are not empty,
    and at least two letters after the last dot. *)
Definition address_shape (s : string) : Prop :=
  ∃ loc dom tld,
    s = loc +:+ "@" +:+ dom +:+ "." +:+ tld ∧
    loc ≠ "" ∧ all_chars local_char loc = true ∧
    dom ≠ "" ∧ all_chars domain_char dom = true ∧
    (2 ≤ String.length tld)%nat ∧ all_chars Chars.alpha tld = true.

(** ** Well-formed messages *)

Definition attachment_ok (a : Attachment.t) : Prop :=
  Attachment.Filename a ≠ "" ∧
  Attachment.ContentType a ∈ Email.allowedContentTypes ∧
  Attachment.Content a ≠ [].

(** A message that can be sent: a recipient, only addresses of the
    shape [local@domain.tld], a subject and a body that are not blank,
    and only complete attachments of an allowed type. *)
Definition well_formed (e : Email.t) : Prop :=
  Email.To e ++ Email.CC e ++ Email.BCC e ≠ [] ∧
  Forall address_shape (Email.To e ++ Email.CC e ++ Email.BCC e) ∧
  Chars.trims_to_empty (Email.Subject e) = false ∧
  Chars.trims_to_empty (Email.Body e) = false ∧
  Forall attachment_ok (Email.Attachments e).

(** ** Schedules of the queue loop *)

(** The provider of the queue. *)
Definition service (s : Sys) : EmailProvider.t :=
  DefaultEmailQueue.emailService (queue s).

(** A provider whose [Send] returns, with a response or an error. *)
Definition answers (p : EmailProvider.t) : Prop :=
  ∀ email env w, ∃ r w', EmailProvider.Send p email env w = (Some r, w').

Definition has_message (t : EmailTask.t) : Prop := EmailTask.Email t ≠ None.

(** How a turn of [ProcessQueue] leaves the task [x] that it popped: a
    completed task as it was, another one marked sent or failed. *)
Definition left_as (x x' : EmailTask.t) : Prop :=
  if EmailTask.IsCompleted x then x' = x
  else x' = EmailTask.MarkAsSent x ∨ x' = EmailTask.MarkAsFailed x.

(** The message of a task that has one. *)
Definition message (t : EmailTask.t) : list Email.t :=
  match EmailTask.Email t with Some e => [e] | None => [] end.

(** A task that the SMTP provider will send: not completed, with a
    message that passes validation. *)
Definition sendable (t : EmailTask.t) : Prop :=
  EmailTask.IsCompleted t = false ∧
  ∃ e, EmailTask.Email t = Some e ∧ Email.Validate e = None.

(** A network that accepts every message at the first attempt. *)
Definition accepting (env : Env) : Prop :=
  ∀ n email, net env n "smtp" "TLS" email = None.

(** ** The path through [processEmailTask] *)

(** A network that refuses every attempt. *)
Definition refusing (env : Env) : Prop :=
  ∀ n provider method email, net env n provider method email ≠ None.

(** [rounds] times: a turn that hands the popped task to
    [processEmailTask], then the goroutine it started; and one turn
    more. *)
Fixpoint worker_path (rounds : nat) (w : EmailWorker.t) (m : EmailManager.t)
  : M Sys unit :=
  match rounds with
  | O => worker_turn w m
  | S rounds' => worker_round w m ;; worker_path rounds' w m
  end.

(** The method and the recipients of each attempt. *)
Definition attempts_of (tr : list Event) : list (string * list string) :=
  (λ ev, (event_method ev, event_recipients ev)) <$> tr.

(** The three attempts of one send to the recipients [to]. *)
Definition one_send (to : list string) : list (string * list string) :=
  [("TLS", to); ("STARTTLS", to); ("Plain", to)].

(** ** Lines of text *)

(** The chunks one after the other, and the chunks each followed by
    carriage return and line feed. *)
Definition joined (chunks : list string) : string :=
  foldr String.append "" chunks.

Definition lines (chunks : list string) : string :=
  foldr (λ c rest, c +:+ SMTPProvider.crlf +:+ rest) "" chunks.

(** The text without its carriage returns and line feeds. *)
Fixpoint unfolded (s : string) : string :=
  match s with
  | EmptyString => EmptyString
  | String c s' =>
      if (Chars.code c =? 13)%N || (Chars.code c =? 10)%N then unfolded s'
      else String c (unfolded s')
  end.


(** ** Sample values *)

Definition sample_email : Email.t :=
  Email.mk "" ["a@x.com"] [] [] "" "S" "B" [] ∅ 0.

Definition sample_smtp_config : SMTPConfig.t :=
  SMTPConfig.mk "smtp.gmail.com" 587 "user" "secret" "sender@example.com".

Definition sample_smtp : EmailProvider.t :=
  SMTPProvider.as_provider (SMTPProvider.NewSMTPProvider sample_smtp_config).

(** A network that refuses every attempt, and one that accepts all. *)
Definition env_refusing : Env :=
  mkEnv (λ _ _ _ _, Some (ErrNew "connection refused"))
        (λ n, Z.of_nat n) (λ n, "uuid-" +:+ pretty n).

Definition env_accepting : Env :=
  mkEnv (λ _ _ _ _, None) (λ n, Z.of_nat n) (λ n, "uuid-" +:+ pretty n).

(** A process right after start-up, with [maxRetries] as configured
    limit of retries and [emailService] as the provider of the queue. *)
Definition boot (maxRetries : Z) (emailService : EmailProvider.t) : Sys :=
  mkSys World0
    (DefaultEmailQueue.mk [] (RetryPolicy.NewRetryPolicy maxRetries []) emailService)
    [] [].

(** A manager wired to the queue, with [p] as default provider. *)
Definition manager_with (maxRetries : Z) (p : EmailProvider.t) : EmailManager.t :=
  EmailManager.mk maxRetries {["smtp" := sample_smtp]} (Some p) (Some TheEmailQueue).

Definition sample_task (priority : Z) : EmailTask.t :=
  EmailTask.mk "" (Some sample_email) "smtp" 0 3 0 0 EmailStatusQueued priority.

Definition sample_ops : list QueueOp :=
  [OpEnqueue (sample_task 5); OpEnqueue (sample_task 1); OpPop;
   OpEnqueue (sample_task 3); OpEnqueue (sample_task 2)].

Definition env_plain_only : Env :=
  mkEnv (λ _ _ method _,
           if bool_decide (method = "Plain") then None
           else Some (ErrNew "connection refused"))
        (λ n, Z.of_nat n) (λ n, "uuid-" +:+ pretty n).

Definition zip_attachment : Attachment.t :=
  Attachment.mk "archive.zip" "application/zip" [Byte.x50; Byte.x4b].

Definition invalid_email : Email.t :=
  Email.mk "" ["a@x.com"] [] [] "" "S" "B" [zip_attachment] ∅ 0.

Definition sample_provider : SMTPProvider.t :=
  SMTPProvider.NewSMTPProvider sample_smtp_config.

Definition sample_created (maxRetries : Z) : EmailTask.t :=
  EmailTask.mk "uuid-0" (Some (Email.set_SentAt 1 sample_email)) "smtp"
    0 maxRetries 0 3 EmailStatusQueued 2.

Definition three_worker_retries : list Mutation :=
  [MutWorkerRetry "uuid-1" 10; MutWorkerRetry "uuid-2" 20; MutWorkerRetry "uuid-3" 30].

Definition sample_worker (maxRetries : Z) : EmailWorker.t :=
  EmailWorker.mk (RetryPolicy.NewRetryPolicy maxRetries []) maxRetries.

(** The process after the message was queued and one turn of the queue
    loop was made, on a network that refuses every attempt. *)
Definition after_first_turn : Sys :=
  ((integration.QueueEmail (manager_with 2 sample_smtp) sample_email [] ;;
    step StepTurn) env_refusing (boot 2 sample_smtp)).2.

(** The process after the same message went three times through
    [processEmailTask], the goroutine of each retry being run before
    the next pop. *)
Definition after_worker_path : Sys :=
  ((integration.QueueEmail (manager_with 2 sample_smtp) sample_email [] ;;
    worker_round (sample_worker 2) (manager_with 2 sample_smtp) ;;
    worker_round (sample_worker 2) (manager_with 2 sample_smtp) ;;
    worker_turn (sample_worker 2) (manager_with 2 sample_smtp))
     env_refusing (boot 2 sample_smtp)).2.

(** The process after a message was queued by a manager whose default
    provider is SMTP, the provider of the queue was set to another one,
    and one turn of the queue loop was made. *)
Definition after_provider_switch : Sys :=
  ((integration.QueueEmail (manager_with 3 sample_smtp) sample_email [] ;;
    queue.SetEmailService (StubProvider.as_provider "sendgrid") ;;
    queue.ProcessQueue_turn) env_accepting (boot 3 sample_smtp)).2.

(** The process after a message queued with the limit 3 failed three
    times in [processEmailTask], the goroutine of each retry being run
    before the next pop. *)
Definition after_three_worker_retries : Sys :=
  ((integration.QueueEmail (manager_with 3 sample_smtp) sample_email [] ;;
    worker_round (sample_worker 3) (manager_with 3 sample_smtp) ;;
    worker_round (sample_worker 3) (manager_with 3 sample_smtp) ;;
    worker_round (sample_worker 3) (manager_with 3 sample_smtp))
     env_refusing (boot 3 sample_smtp)).2.

(* ================================================================== *)
(** * Part III: properties *)
(* ================================================================== *)

(** ** The binary heap *)

Section HeapFacts.

Implicit Types (h : list EmailTask.t) (i j k n : nat) (a b x y : EmailTask.t).

Lemma Less_Some h i j a b :
  h !! i = Some a → h !! j = Some b →
  TaskPriorityQueue.Less h i j = Some (bool_decide (prio a < prio b)).
Proof. intros Hi Hj. unfold TaskPriorityQueue.Less. rewrite Hi, Hj. done. Qed.

Lemma Swap_Some h i j a b :
  h !! i = Some a → h !! j = Some b →
  TaskPriorityQueue.Swap h i j = Some (<[j := a]> (<[i := b]> h)).
Proof. intros Hi Hj. unfold TaskPriorityQueue.Swap. rewrite Hi, Hj. done. Qed.

Lemma lookup_swapped h i j a b k :
  h !! i = Some a → h !! j = Some b →
  <[j := a]> (<[i := b]> h) !! k =
    if decide (k = j) then Some a
    else if decide (k = i) then Some b else h !! k.
Proof.
  intros Hi Hj.
  pose proof (lookup_lt_Some _ _ _ Hi). pose proof (lookup_lt_Some _ _ _ Hj).
  destruct (decide (k = j)) as [->|Hkj].
  - rewrite list_lookup_insert_eq; [done | by rewrite length_insert].
  - rewrite list_lookup_insert_ne by done.
    destruct (decide (k = i)) as [->|Hki].
    + by rewrite list_lookup_insert_eq.
    + by rewrite list_lookup_insert_ne.
Qed.

Lemma swapped_perm h i j a b :
  h !! i = Some a → h !! j = Some b → <[j := a]> (<[i := b]> h) ≡ₚ h.
Proof. intros. by apply Permutation_insert_swap. Qed.

Lemma swapped_length h i j a b :
  length (<[j := a]> (<[i := b]> h)) = length h.
Proof. by rewrite !length_insert. Qed.

Lemma root_minimal h x :
  heap_ordered h → h !! 0%nat = Some x →
  ∀ k y, h !! k = Some y → prio x <= prio y.
Proof.
  intros Hh Hx k. induction (lt_wf k) as [k _ IH]. intros y Hy.
  destruct (decide (k = 0%nat)) as [->|Hk].
  - rewrite Hx in Hy. injection Hy as ->. lia.
  - assert (parent k < k)%nat as Hlt by (unfold parent; lia).
    pose proof (lookup_lt_Some _ _ _ Hy) as Hlen.
    destruct (lookup_lt_is_Some_2 h (parent k)) as [z Hz]; [lia|].
    pose proof (IH _ Hlt _ Hz). pose proof (Hh k _ _ Hy Hz). lia.
Qed.

Lemma up_loop_eq turns h j :
  heap.up_loop (S turns) h j =
    if bool_decide (parent j = j) then Some h
    else
      lt ← TaskPriorityQueue.Less h j (parent j);
      if negb lt then Some h
      else
        h' ← TaskPriorityQueue.Swap h (parent j) j;
        heap.up_loop turns h' (parent j).
Proof. reflexivity. Qed.

Lemma up_loop_spec turns : ∀ h j,
  (j < turns)%nat → (j < length h)%nat →
  ∃ h', heap.up_loop turns h j = Some h' ∧ h' ≡ₚ h ∧
        (up_inv h j → heap_ordered h').
Proof.
  induction turns as [|turns IH]; intros h j Hturns Hlen; [lia|].
  rewrite up_loop_eq.
  destruct (lookup_lt_is_Some_2 h j Hlen) as [a Ha].
  case_bool_decide as Hpj.
  { exists h. split_and!; [done..|]. intros [Hinv _] k.
    destruct (decide (k = j)) as [->|Hk]; [|by apply Hinv].
    intros a' b' Ha' Hb'. rewrite Hpj in Hb'. simplify_eq. lia. }
  assert (parent j < j)%nat as Hlt by (unfold parent in *; lia).
  destruct (lookup_lt_is_Some_2 h (parent j)) as [b Hb]; [lia|].
  rewrite (Less_Some _ _ _ _ _ Ha Hb). simpl.
  case_bool_decide as Hless; simpl.
  2:{ exists h. split_and!; [done..|]. intros [Hinv _] k.
      destruct (decide (k = j)) as [->|Hk]; [|by apply Hinv].
      intros a' b' Ha' Hb'. simplify_eq. lia. }
  rewrite (Swap_Some _ _ _ _ _ Hb Ha). simpl.
  destruct (IH (<[j := b]> (<[parent j := a]> h)) (parent j)) as (h' & Hrun & Hperm & Hord);
    [lia | rewrite swapped_length; lia |].
  exists h'. split_and!; [done | by rewrite Hperm, (swapped_perm _ _ _ _ _ Hb Ha) |].
  intros [Hinv Hgrand]. apply Hord.
  pose proof (λ k, lookup_swapped h (parent j) j b a k Hb Ha) as L.
  split.
  - intros k Hk u v Hu Hv. rewrite L in Hu, Hv.
    destruct (decide (k = j)) as [->|Hkj].
    + rewrite decide_False, decide_True in Hv by done. simplify_eq. lia.
    + rewrite decide_False in Hu by done.
      destruct (decide (parent k = j)) as [e|n1].
      * injection Hv as <-. by eapply (Hgrand k).
      * destruct (decide (parent k = parent j)) as [e|n2].
        -- injection Hv as <-.
           assert (prio b <= prio u)
             by (eapply (Hinv k); [done | exact Hu | by rewrite e]).
           lia.
        -- by eapply (Hinv k).
  - intros c u v Hpc Hc Hu Hv. rewrite L in Hu, Hv.
    assert (parent (parent j) ≠ j) by (unfold parent in *; lia).
    rewrite decide_False in Hv by done.
    assert (prio b <= prio u ∨ u = b) as Hbu.
    { destruct (decide (c = j)) as [->|Hcj]; [right; by simplify_eq|].
      rewrite decide_False in Hu by done. left.
      eapply (Hinv c); [done | exact Hu | by rewrite Hpc]. }
    destruct (decide (parent (parent j) = parent j)) as [e|n].
    + injection Hv as <-. destruct Hbu as [?| ->]; lia.
    + assert (prio v <= prio b) by (eapply (Hinv (parent j)); [lia | done..]).
      destruct Hbu as [?| ->]; lia.
Qed.

Lemma down_loop_eq turns h i0 i n :
  heap.down_loop (S turns) h i0 i n =
    if bool_decide (n ≤ 2 * i + 1)%nat then Some (bool_decide (i0 < i)%nat, h)
    else
      right_less ←
        (if bool_decide (2 * i + 1 + 1 < n)%nat
         then TaskPriorityQueue.Less h (2 * i + 1 + 1) (2 * i + 1)
         else Some false);
      let j := if (right_less : bool) then (2 * i + 1 + 1)%nat else (2 * i + 1)%nat in
      lt ← TaskPriorityQueue.Less h j i;
      if negb lt then Some (bool_decide (i0 < i)%nat, h)
      else
        h' ← TaskPriorityQueue.Swap h i j;
        heap.down_loop turns h' i0 j n.
Proof. reflexivity. Qed.

(** The child that [down] compares with the parent is the smaller one. *)
Lemma down_child h i n :
  (2 * i + 1 < n)%nat → (n ≤ length h)%nat →
  ∃ (rl : bool) j cj,
    (if bool_decide (2 * i + 1 + 1 < n)%nat
     then TaskPriorityQueue.Less h (2 * i + 1 + 1) (2 * i + 1)
     else Some false) = Some rl ∧
    j = (if rl then (2 * i + 1 + 1)%nat else (2 * i + 1)%nat) ∧
    (j < n)%nat ∧ parent j = i ∧ (i < j)%nat ∧ h !! j = Some cj ∧
    (∀ c u, (c < n)%nat → parent c = i → c ≠ i → h !! c = Some u →
            prio cj <= prio u).
Proof.
  intros H1 Hn.
  destruct (lookup_lt_is_Some_2 h (2 * i + 1)) as [l Hl]; [lia|].
  assert (∀ c, parent c = i → c ≠ i → c = (2 * i + 1)%nat ∨ c = (2 * i + 1 + 1)%nat)
    as Hch by (unfold parent; lia).
  case_bool_decide as H2.
  - destruct (lookup_lt_is_Some_2 h (2 * i + 1 + 1)) as [r Hr]; [lia|].
    rewrite (Less_Some _ _ _ _ _ Hr Hl).
    case_bool_decide as Hlt.
    + exists true, (2 * i + 1 + 1)%nat, r.
      split_and!; [done | done | lia | unfold parent; lia | lia | done |].
      intros c u Hc Hpc Hci Hu. destruct (Hch c Hpc Hci) as [-> | ->]; simplify_eq; lia.
    + exists false, (2 * i + 1)%nat, l.
      split_and!; [done | done | lia | unfold parent; lia | lia | done |].
      intros c u Hc Hpc Hci Hu. destruct (Hch c Hpc Hci) as [-> | ->]; simplify_eq; lia.
  - exists false, (2 * i + 1)%nat, l.
    split_and!; [done | done | lia | unfold parent; lia | lia | done |].
    intros c u Hc Hpc Hci Hu. destruct (Hch c Hpc Hci) as [-> | ->]; simplify_eq; lia.
Qed.

Lemma down_loop_spec turns : ∀ h i0 i n,
  (n ≤ length h)%nat → (n - i < turns)%nat →
  ∃ r h', heap.down_loop turns h i0 i n = Some (r, h') ∧ h' ≡ₚ h ∧
          (∀ k, (n ≤ k)%nat → h' !! k = h !! k) ∧
          (down_inv n h i → heap_ordered_upto n h').
Proof.
  induction turns as [|turns IH]; intros h i0 i n Hn Hturns; [lia|].
  rewrite down_loop_eq.
  case_bool_decide as Hleaf.
  { eexists _, h. split_and!; [done..|]. intros [Hinv _] k Hk.
    apply Hinv; [done|]. unfold parent. lia. }
  destruct (down_child h i n) as (rl & j & cj & -> & Hj & Hjn & Hpj & Hij & Hcj & Hmin);
    [lia | done |].
  cbn [mbind option_bind]. rewrite <- Hj.
  destruct (lookup_lt_is_Some_2 h i) as [ci Hci]; [lia|].
  rewrite (Less_Some _ _ _ _ _ Hcj Hci). cbn [mbind option_bind].
  case_bool_decide as Hless; cbn [negb].
  2:{ eexists _, h. split_and!; [done..|]. intros [Hinv _] k Hk.
      destruct (decide (parent k = i ∧ k ≠ i)) as [[e ne]|Hnot].
      - intros u v Hu Hv. pose proof (Hmin k u Hk e ne Hu).
        rewrite e in Hv. simplify_eq. lia.
      - apply Hinv; [done|]. intros. destruct (decide (k = i)); tauto. }
  rewrite (Swap_Some _ _ _ _ _ Hci Hcj). cbn [mbind option_bind].
  destruct (IH (<[j := ci]> (<[i := cj]> h)) i0 j n) as (r & h' & Hrun & Hperm & Hout & Hord);
    [rewrite swapped_length; lia | lia |].
  pose proof (λ k, lookup_swapped h i j ci cj k Hci Hcj) as L.
  exists r, h'. split_and!; [done | by rewrite Hperm, (swapped_perm _ _ _ _ _ Hci Hcj) | |].
  { intros k Hk. rewrite Hout, L by done. by rewrite !decide_False by lia. }
  intros [Hinv Hgrand]. apply Hord. split.
  - intros k Hk Hnc u v Hu Hv. rewrite L in Hu, Hv.
    destruct (decide (k = j)) as [->|Hkj].
    + rewrite Hpj in Hv. rewrite decide_False, decide_True in Hv by (done || lia).
      simplify_eq. lia.
    + assert (parent k ≠ j) by tauto. rewrite decide_False in Hv by done.
      destruct (decide (k = i)) as [->|Hki].
      * injection Hu as <-.
        destruct (decide (parent i = i)) as [e|ne]; [simplify_eq; lia|].
        by eapply (Hgrand j); [| | done |..].
      * destruct (decide (parent k = i)) as [e|ne].
        -- injection Hv as <-. by eapply (Hmin k).
        -- eapply (Hinv k); [done | tauto | done..].
  - intros c u v Hc Hpc Hcne _ Hu Hv. rewrite L in Hu, Hv.
    assert (c ≠ i) by (unfold parent in *; lia).
    rewrite Hpj in Hv.
    rewrite !decide_False in Hu by done.
    rewrite decide_False, decide_True in Hv by (done || lia).
    injection Hv as <-.
    eapply (Hinv c); [done | lia | done | by rewrite Hpc].
Qed.

Lemma Push_spec h x :
  ∃ h', heap.Push h x = Some h' ∧ h' ≡ₚ x :: h ∧
        (heap_ordered h → heap_ordered h').
Proof.
  unfold heap.Push, heap.up, TaskPriorityQueue.Push, TaskPriorityQueue.Len.
  rewrite length_app. cbn [length].
  replace (length h + 1 - 1)%nat with (length h) by lia.
  destruct (up_loop_spec (S (length h)) (h ++ [x]) (length h))
    as (h' & Hrun & Hperm & Hord); [lia | rewrite length_app; simpl; lia |].
  exists h'. split_and!; [done | |].
  { rewrite Hperm. by rewrite Permutation_app_comm. }
  intros Hh. apply Hord. split.
  - intros k Hk u v Hu Hv.
    assert (k < length h)%nat.
    { apply lookup_lt_Some in Hu. rewrite length_app in Hu. simpl in Hu. lia. }
    assert (parent k ≤ k)%nat by (unfold parent; lia).
    rewrite lookup_app_l in Hu, Hv by lia. by eapply (Hh k).
  - intros c u v Hpc Hc Hu _.
    apply lookup_lt_Some in Hu. rewrite length_app in Hu. simpl in Hu.
    unfold parent in *. lia.
Qed.

Lemma Pop_spec h :
  h ≠ [] →
  ∃ x h', heap.Pop h = Some (x, h') ∧ h ≡ₚ x :: h' ∧
          (heap_ordered h →
             h !! 0%nat = Some x ∧ heap_ordered h' ∧
             ∀ y, y ∈ h → prio x <= prio y).
Proof.
  intros Hne.
  assert (0 < length h)%nat as Hlen by (destruct h; simpl; [done | lia]).
  unfold heap.Pop, heap.down, TaskPriorityQueue.Len.
  set (n := (length h - 1)%nat).
  destruct (lookup_lt_is_Some_2 h 0) as [x Hx]; [lia|].
  destruct (lookup_lt_is_Some_2 h n) as [z Hz]; [lia|].
  rewrite (Swap_Some _ _ _ _ _ Hx Hz). cbn [mbind option_bind].
  pose proof (λ k, lookup_swapped h 0 n x z k Hx Hz) as L.
  destruct (down_loop_spec (S n) (<[n := x]> (<[0%nat := z]> h)) 0 0 n)
    as (r & h2 & Hrun & Hperm & Hout & Hord); [rewrite swapped_length; lia | lia |].
  rewrite Hrun. cbn [mbind option_bind snd].
  assert (length h2 = length h) as Hlen2.
  { by rewrite Hperm, swapped_length. }
  assert (h2 !! n = Some x) as Hlast.
  { rewrite Hout, L by lia. by rewrite decide_True. }
  unfold TaskPriorityQueue.Pop. rewrite Hlen2. fold n. rewrite Hlast.
  cbn [mbind option_bind]. rewrite bool_decide_eq_false_2 by lia.
  assert (h2 = take n h2 ++ [x]) as Hsplit.
  { rewrite <- (take_drop n h2) at 1. f_equal.
    apply list_eq. intros k. rewrite lookup_drop.
    destruct k as [|k]; simpl.
    - by rewrite Nat.add_0_r.
    - rewrite lookup_ge_None_2; [done | lia]. }
  exists x, (take n h2). split_and!; [done | |].
  { rewrite <- (swapped_perm _ _ _ _ _ Hx Hz), <- Hperm. rewrite Hsplit at 1.
    by rewrite Permutation_app_comm. }
  intros Hh. split_and!; [done | |].
  - intros k u v Hu Hv.
    apply lookup_take_Some in Hu as [Hu Hk]. apply lookup_take_Some in Hv as [Hv _].
    eapply (Hord); [| done | exact Hu | exact Hv].
    split.
    + intros k' Hk' Hroot u' v' Hu' Hv'.
      destruct (decide (k' = 0%nat)) as [->|Hk0].
      * replace (parent 0) with 0%nat in Hv' by (unfold parent; lia).
        rewrite Hu' in Hv'. injection Hv' as ->. lia.
      * rewrite L in Hu', Hv'. assert (parent k' ≠ 0%nat) by tauto.
        assert (parent k' ≤ k')%nat by (unfold parent; lia).
        rewrite !decide_False in Hu' by lia.
        rewrite !decide_False in Hv' by lia.
        by eapply (Hh k').
    + intros c u' v' _ _ _ Hp. unfold parent in Hp. lia.
  - intros y Hy. apply list_elem_of_lookup in Hy as [k Hk].
    by eapply root_minimal.
Qed.

Lemma heap_ordered_nil : heap_ordered [].
Proof. intros k a b Ha. by rewrite lookup_nil in Ha. Qed.

End HeapFacts.

(** ** The queue operations *)

Lemma Enqueue_spec env s task :
  ∃ pq',
    queue.Enqueue task env s =
      ((EmailTask.Email task ≫= λ _, Some None),
       mkSys (mkWorld (trace (world s)) (S (ticks (world s))) (S (uuids (world s))))
             (DefaultEmailQueue.set_taskQueue pq' (queue s))
             (goroutines s) (finished s)) ∧
    pq' ≡ₚ enqueued env s task :: DefaultEmailQueue.taskQueue (queue s) ∧
    (heap_ordered (DefaultEmailQueue.taskQueue (queue s)) → heap_ordered pq').
Proof.
  destruct (Push_spec (DefaultEmailQueue.taskQueue (queue s)) (enqueued env s task))
    as (pq' & Hpush & Hperm & Hord).
  exists pq'. split; [|done].
  unfold queue.Enqueue, bind, in_world, uuid_NewString, time_Now, get, must, modify, ret.
  cbn -[heap.Push EmailTask.set_CreatedAt EmailTask.set_TaskID].
  unfold enqueued in Hpush. rewrite Hpush. cbn.
  destruct (EmailTask.Email task); reflexivity.
Qed.

Lemma pop_spec env s :
  (tq s = [] → queue.pop env s = (Some None, s)) ∧
  (tq s ≠ [] →
     ∃ x pq',
       queue.pop env s =
         (Some (Some x),
          set_queue (DefaultEmailQueue.set_taskQueue pq' (queue s)) s) ∧
       tq s ≡ₚ x :: pq' ∧
       (heap_ordered (tq s) →
          heap_ordered pq' ∧ ∀ y, y ∈ tq s → prio x <= prio y)).
Proof.
  split.
  - intros Hnil. unfold queue.pop, bind, get. cbn -[heap.Pop]. by rewrite Hnil.
  - intros Hne. destruct (Pop_spec (tq s) Hne) as (x & pq' & Hpop & Hperm & Hord).
    exists x, pq'. split_and!; [| done | intros Hh; apply Hord in Hh; tauto].
    unfold queue.pop, bind, get, must, modify, ret. cbn -[heap.Pop].
    rewrite bool_decide_eq_false_2 by (by destruct (tq s)).
    rewrite Hpop. done.
Qed.

Lemma Enqueue_ordered env s task r s' :
  queue.Enqueue task env s = (r, s') →
  heap_ordered (tq s) → heap_ordered (tq s').
Proof.
  destruct (Enqueue_spec env s task) as (pq' & -> & _ & Hord).
  intros [= _ <-]. exact Hord.
Qed.

Lemma pop_ordered env s r s' :
  queue.pop env s = (r, s') →
  heap_ordered (tq s) → heap_ordered (tq s').
Proof.
  destruct (pop_spec env s) as [Hnil Hcons].
  destruct (decide (tq s = [])) as [e|ne].
  - rewrite (Hnil e). by intros [= _ <-].
  - destruct (Hcons ne) as (x & pq' & -> & _ & Hord).
    intros [= _ <-] Hh. cbn. by apply Hord.
Qed.

Lemma run_ops_ordered ops : ∀ env s r s',
  run_ops ops env s = (r, s') →
  heap_ordered (tq s) → heap_ordered (tq s').
Proof.
  induction ops as [|[task|] ops IH]; intros env s r s'; cbn [run_ops].
  - by intros [= _ <-].
  - unfold bind. destruct (queue.Enqueue task env s) as [[e|] s1] eqn:E.
    + intros Hrun Hh. eapply IH; [done|]. by eapply Enqueue_ordered.
    + intros [= _ <-]. by eapply Enqueue_ordered.
  - unfold bind. destruct (queue.pop env s) as [[o|] s1] eqn:E.
    + destruct (run_ops ops env s1) as [[os|] s2] eqn:E2.
      * intros [= _ <-] Hh. eapply IH; [done|]. by eapply pop_ordered.
      * intros [= _ <-] Hh. eapply IH; [done|]. by eapply pop_ordered.
    + intros [= _ <-]. by eapply pop_ordered.
Qed.

Lemma payload_enqueued env s task : payload (enqueued env s task) = payload task.
Proof. reflexivity. Qed.

Lemma prio_payload task : prio (payload task) = prio task.
Proof. reflexivity. Qed.

Lemma enqueue_all_spec tasks : ∀ env s,
  Forall (λ t, EmailTask.Email t ≠ None) tasks →
  ∃ s', enqueue_all tasks env s = (Some tt, s') ∧
        payload <$> tq s' ≡ₚ (payload <$> tasks) ++ (payload <$> tq s) ∧
        (heap_ordered (tq s) → heap_ordered (tq s')).
Proof.
  induction tasks as [|task tasks IH]; intros env s Hall.
  - exists s. by split_and!.
  - apply Forall_cons in Hall as [Hne Hall].
    destruct (Enqueue_spec env s task) as (pq' & Hrun & Hperm & Hord).
    cbn [enqueue_all]. unfold bind. rewrite Hrun.
    destruct (EmailTask.Email task) as [e|]; [|done]. cbn [mbind option_bind].
    match goal with |- context [enqueue_all tasks env ?s1] =>
      destruct (IH env s1 Hall) as (s' & Hrun' & Hperm' & Hord') end.
    exists s'. split_and!; [done | | naive_solver].
    rewrite Hperm'. cbn. rewrite Hperm. cbn.
    by rewrite <- Permutation_middle.
Qed.

Lemma pop_n_spec n : ∀ env s,
  heap_ordered (tq s) → length (tq s) = n →
  ∃ out s', pop_n n env s = (Some (Some <$> out), s') ∧
            out ≡ₚ tq s ∧ tq s' = [] ∧
            StronglySorted Z.le (prio <$> out).
Proof.
  induction n as [|n IH]; intros env s Hh Hlen.
  - exists [], s. split_and!; [done | | | constructor].
    + by rewrite (nil_length_inv _ Hlen).
    + by apply nil_length_inv.
  - destruct (pop_spec env s) as [_ Hcons].
    destruct Hcons as (x & pq' & Hrun & Hperm & Hord); [by destruct (tq s)|].
    destruct (Hord Hh) as [Hh' Hmin].
    cbn [pop_n]. unfold bind. rewrite Hrun.
    match goal with |- context [pop_n n env ?s1] =>
      destruct (IH env s1) as (out & s' & Hrun' & Hperm' & Hnil & Hsorted) end.
    { done. }
    { cbn. apply Permutation_length in Hperm. cbn in Hperm. lia. }
    rewrite Hrun'. exists (x :: out), s'. split_and!; [done | | done |].
    + rewrite Hperm. by constructor.
    + cbn. constructor; [done|].
      apply Forall_fmap, Forall_forall. intros y Hy. cbn. apply Hmin.
      rewrite Hperm. right. by rewrite <- Hperm'.
Qed.


(** ** Sending through SMTP *)

Section SMTPFacts.

Context (p : SMTPProvider.t) (env : Env).

Lemma attempt_eq provider method email w :
  attempt provider method email env w =
    (Some (net env (length (trace w)) provider method email),
     mkWorld (trace w ++ [EvAttempt provider method email]) (ticks w) (uuids w)).
Proof. reflexivity. Qed.

(** The fallback chain, by the answers of the network. *)
Lemma tryAllConnectionMethods_spec email w :
  SMTPProvider.tryAllConnectionMethods p email env w =
    match answer env w 0 "TLS" email with
    | None =>
        (Some (Ok "smtp-tls-message-id"),
         advanced w (attempted w ["TLS"] email) 0)
    | Some _ =>
        match answer env w 1 "STARTTLS" email with
        | None =>
            (Some (Ok "smtp-starttls-message-id"),
             advanced w (attempted w ["TLS"; "STARTTLS"] email) 0)
        | Some _ =>
            match answer env w 2 "Plain" email with
            | None =>
                (Some (Ok "smtp-plain-message-id"),
                 advanced w (attempted w ["TLS"; "STARTTLS"; "Plain"] email) 0)
            | Some e3 =>
                (Some (Err (ErrWrap "all SMTP connection methods failed, last error" e3)),
                 advanced w (attempted w ["TLS"; "STARTTLS"; "Plain"] email) 0)
            end
        end
    end.
Proof.
  unfold SMTPProvider.tryAllConnectionMethods, SMTPProvider.methods, answer,
    attempted, advanced.
  cbn [SMTPProvider.try_methods]. unfold bind at 1. rewrite attempt_eq.
  unfold SMTPProvider.Name. rewrite Nat.add_0_r.
  destruct (net env (length (trace w)) "smtp" "TLS" email) as [e1|]; [|done].
  unfold bind at 1. rewrite attempt_eq. cbn [trace ticks uuids].
  rewrite length_app. cbn [length].
  destruct (net env (length (trace w) + 1) "smtp" "STARTTLS" email) as [e2|].
  2:{ unfold ret. by rewrite <- app_assoc. }
  unfold bind at 1. rewrite attempt_eq. cbn [trace ticks uuids].
  rewrite !length_app. cbn [length]. rewrite <- Nat.add_assoc. cbn [Nat.add].
  rewrite <- !app_assoc. cbn [app].
  destruct (net env (length (trace w) + 2) "smtp" "Plain" email) as [e3|]; done.
Qed.

Lemma Send_invalid email err w :
  Email.Validate email = Some err →
  SMTPProvider.Send p email env w =
    (Some (Err (ErrWrap "email validation failed" err)), w).
Proof. intros H. unfold SMTPProvider.Send. by rewrite H. Qed.

Lemma Send_valid email w :
  Email.Validate email = None →
  SMTPProvider.Send p email env w =
    match SMTPProvider.tryAllConnectionMethods p email env w with
    | (Some (Ok messageID), w1) =>
        (Some (Ok (EmailResponse.mk messageID EmailStatusSent
                     (now_at env (ticks w1)))),
         advanced w1 (trace w1) 1)
    | (Some (Err sendErr), w1) =>
        (Some (Err (ErrWrap "failed to send email" sendErr)), w1)
    | (None, w1) => (None, w1)
    end.
Proof.
  intros H. unfold SMTPProvider.Send. rewrite H. unfold bind at 1.
  destruct (SMTPProvider.tryAllConnectionMethods p email env w) as [[[id|e]|] w1];
    done.
Qed.

Lemma Send_total email w :
  ∃ r w', SMTPProvider.Send p email env w = (Some r, w').
Proof.
  destruct (Email.Validate email) as [err|] eqn:E.
  - rewrite (Send_invalid _ _ _ E). eauto.
  - rewrite (Send_valid _ _ E), tryAllConnectionMethods_spec.
    repeat case_match; simplify_eq; eauto.
Qed.

End SMTPFacts.

Lemma first_error_Some {A} (f : A → option error) (l : list A) (a : A) :
  a ∈ l → f a ≠ None → Email.first_error f l ≠ None.
Proof.
  induction l as [|x l IH]; [by intros ?%not_elem_of_nil|].
  intros [Heq|Hin]%elem_of_cons Hfa; cbn.
  - subst x. by destruct (f a).
  - destruct (f x); [done|]. by apply IH.
Qed.

Lemma listed_invalid_rejected email :
  listed_invalid email → Email.Validate email ≠ None.
Proof.
  unfold Email.Validate.
  intros [(-> & -> & ->) | [Hs | [Hb | (a & Hin & Ha)]]]; [done|..].
  all: case_match eqn:Hrec; [done|]; clear Hrec.
  all: destruct (Email.first_error Email.validate_recipient _); [done|].
  - by rewrite Hs.
  - destruct (Chars.trims_to_empty (Email.Subject email)); [done|]. by rewrite Hb.
  - destruct (Chars.trims_to_empty (Email.Subject email)); [done|].
    destruct (Chars.trims_to_empty (Email.Body email)); [done|].
    apply (first_error_Some _ _ a Hin). unfold Email.validate_attachment.
    destruct Ha as [Hf | [Hc | [Ht | Hz]]].
    + by rewrite bool_decide_eq_true_2.
    + case_bool_decide; [done|]. by rewrite bool_decide_eq_true_2.
    + case_bool_decide; [done|]. case_bool_decide; [done|].
      case_bool_decide; [done|]. unfold Email.validateAttachmentType.
      by rewrite bool_decide_eq_false_2.
    + case_bool_decide; [done|]. case_bool_decide; [done|].
      rewrite bool_decide_eq_true_2; [done | by rewrite Hz].
Qed.

Lemma QueueEmail_unwired m email params env s :
  EmailManager.emailQueue m = None →
  integration.QueueEmail m email params env s =
    (Some (Some (ErrNew "email queue not initialized")), s).
Proof. intros H. unfold integration.QueueEmail. by rewrite H. Qed.

Lemma QueueEmail_invalid m email params err env s :
  EmailManager.emailQueue m ≠ None →
  Email.Validate email = Some err →
  integration.QueueEmail m email params env s =
    (Some (Some (ErrWrap "email validation failed" err)), s).
Proof.
  intros Hq Hv. unfold integration.QueueEmail.
  destruct (EmailManager.emailQueue m) as [[]|]; [|done]. by rewrite Hv.
Qed.

Lemma batch_loop_spec p env emails : ∀ acc w,
  ∃ responses w',
    SMTPProvider.batch_loop p emails acc env w = (Some (acc ++ responses), w') ∧
    length responses = length emails ∧
    batch_outcome p env w emails responses w'.
Proof.
  induction emails as [|email emails IH]; intros acc w.
  - exists [], w. rewrite app_nil_r. split_and!; [done | done | constructor].
  - destruct (Send_total p env email w) as (r & w1 & Hsend).
    cbn [SMTPProvider.batch_loop]. unfold bind at 1. rewrite Hsend.
    unfold bind at 1.
    destruct (time_Now env w1) as [now w2] eqn:Hnow.
    assert (now = Some (now_at env (ticks w1))) as -> by (by injection Hnow).
    destruct r as [r|err].
    + destruct (IH (acc ++ [EmailResponse.mk (EmailResponse.MessageID r)
                              EmailStatusSent (now_at env (ticks w1))]) w2)
        as (rs & w3 & Hrun & Hlen & Hout).
      eexists (_ :: rs), w3. rewrite Hrun, <- app_assoc.
      split_and!; [done | cbn; lia | by econstructor].
    + destruct (IH (acc ++ [EmailResponse.mk "" EmailStatusFailed
                              (now_at env (ticks w1))]) w2)
        as (rs & w3 & Hrun & Hlen & Hout).
      eexists (_ :: rs), w3. rewrite Hrun, <- app_assoc.
      split_and!; [done | cbn; lia | by eapply batch_failed].
Qed.

Lemma Send_stateless p env email w r w' :
  stateless env →
  SMTPProvider.Send p email env w = (Some r, w') →
  is_Ok r = deliverable env email.
Proof.
  intros Hst. unfold deliverable.
  destruct (Email.Validate email) as [err|] eqn:Hv.
  - rewrite (Send_invalid _ _ _ _ _ Hv). by intros [= <- _].
  - rewrite (Send_valid _ _ _ _ Hv), tryAllConnectionMethods_spec.
    unfold answer. cbn [existsb].
    rewrite (Hst (length (trace w) + 0)%nat 0%nat),
            (Hst (length (trace w) + 1)%nat 0%nat),
            (Hst (length (trace w) + 2)%nat 0%nat).
    destruct (net env 0 "smtp" "TLS" email); [|by intros [= <- _]].
    destruct (net env 0 "smtp" "STARTTLS" email); [|by intros [= <- _]].
    destruct (net env 0 "smtp" "Plain" email); by intros [= <- _].
Qed.

Lemma batch_outcome_stateless p env w emails responses w' :
  stateless env →
  batch_outcome p env w emails responses w' →
  Forall2 (λ email response,
             EmailResponse.Status response =
               if deliverable env email then EmailStatusSent else EmailStatusFailed)
    emails responses.
Proof.
  intros Hst. induction 1 as [|w w1 w2 w3 email emails r now rs Hsend _ _ IH
                             |w w1 w2 w3 email emails err now rs Hsend _ _ IH].
  - constructor.
  - constructor; [|exact IH]. cbn.
    by rewrite <- (Send_stateless _ _ _ _ _ _ Hst Hsend).
  - constructor; [|exact IH]. cbn.
    by rewrite <- (Send_stateless _ _ _ _ _ _ Hst Hsend).
Qed.


(** ** The manager and the tasks *)

Lemma QueueEmail_valid m email params p env s :
  EmailManager.emailQueue m ≠ None →
  Email.Validate email = None →
  EmailManager.defaultProvider m = Some p →
  ∃ task s',
    integration.QueueEmail m email params env s = (Some None, s') ∧
    tq s' ≡ₚ task :: tq s ∧
    (heap_ordered (tq s) → heap_ordered (tq s')) ∧
    trace (world s') = trace (world s) ∧
    goroutines s' = goroutines s ∧ finished s' = finished s ∧
    DefaultEmailQueue.emailService (queue s') = DefaultEmailQueue.emailService (queue s) ∧
    EmailTask.ProviderName task = EmailProvider.Name p ∧
    EmailTask.Priority task = priority_of params ∧
    EmailTask.MaxRetries task = maxRetries_of m params ∧
    EmailTask.RetryCount task = 0 ∧
    EmailTask.Status task = EmailStatusQueued ∧
    (∃ e, EmailTask.Email task = Some e ∧ Email.set_SentAt 0 e = Email.set_SentAt 0 email).
Proof.
  intros Hq Hv Hp. unfold integration.QueueEmail.
  destruct (EmailManager.emailQueue m) as [[]|]; [|done].
  rewrite Hv, Hp.
  unfold bind, must, in_world, time_Now, ret.
  cbn -[queue.Enqueue EmailTask.PrepareTask].
  case_bool_decide as Hsent; cbn -[queue.Enqueue EmailTask.PrepareTask].
  all: match goal with |- context [queue.Enqueue ?t ?e ?s1] =>
         destruct (Enqueue_spec e s1 t) as (pq' & Hrun & Hperm & Hord);
         rewrite Hrun end.
  all: eexists _, _; split; [reflexivity|].
  all: cbn -[EmailTask.PrepareTask enqueued].
  all: split; [exact Hperm|]; split; [exact Hord|].
  all: repeat (split; [reflexivity|]).
  all: unfold priority_of, maxRetries_of.
  all: split_and!.
  all: try (cbn; destruct (params !! 0%nat); [case_bool_decide; case_decide; (done || lia)|done]).
  all: try (cbn; destruct (params !! 1%nat); [|done];
            repeat case_bool_decide; case_decide; cbn; (done || lia)).
  all: try done.
  all: eexists; split; [reflexivity|].
  all: unfold Email.PrepareForSend; rewrite ?bool_decide_eq_true_2, ?bool_decide_eq_false_2 by done; done.
Qed.

Lemma wrap_in_range z : GoInt.in_range (GoInt.wrap z).
Proof.
  unfold GoInt.in_range, GoInt.wrap, GoInt.min_int, GoInt.max_int.
  pose proof (Z.mod_pos_bound (z - - 2 ^ 63) (2 ^ 64)). lia.
Qed.

Lemma wrap_id z : GoInt.in_range z → GoInt.wrap z = z.
Proof.
  unfold GoInt.in_range, GoInt.wrap, GoInt.min_int, GoInt.max_int. intros H.
  rewrite Z.mod_small; lia.
Qed.

Lemma IncrementRetry_invariant t : retry_invariant (EmailTask.IncrementRetry t).
Proof.
  unfold retry_invariant, EmailTask.IncrementRetry.
  cbn [EmailTask.RetryCount EmailTask.MaxRetries EmailTask.set_RetryCount].
  case_bool_decide; cbn; [done | lia].
Qed.

Lemma MarkAsFailed_invariant t : retry_invariant (EmailTask.MarkAsFailed t).
Proof. unfold retry_invariant. cbn. done. Qed.

Lemma mutate_count_ok mu t t' : count_ok t → mutate mu t = Some t' → count_ok t'.
Proof.
  unfold count_ok, GoInt.in_range. intros (Hr & Hle & Hmax).
  destruct mu as [n1 n2 n3| | | |id now]; cbn [mutate].
  - intros [= <-]. unfold EmailTask.PrepareTask. case_bool_decide; cbn; done.
  - intros [= <-]. pose proof (wrap_in_range (EmailTask.RetryCount t + 1)) as Hw.
    unfold GoInt.in_range in Hw. unfold EmailTask.IncrementRetry, GoInt.incr.
    cbn [EmailTask.RetryCount EmailTask.MaxRetries EmailTask.set_RetryCount].
    case_bool_decide; cbn; lia.
  - intros [= <-]. cbn. lia.
  - intros [= <-]. cbn. done.
  - unfold EmailTask.ShouldRetry. case_bool_decide; [done|]. intros [= <-]. cbn.
    unfold GoInt.incr. rewrite wrap_id by (unfold GoInt.in_range; lia). lia.
Qed.

Lemma mutate_all_count_ok mus : ∀ t t',
  count_ok t → mutate_all mus t = Some t' → count_ok t'.
Proof.
  induction mus as [|mu mus IH]; intros t t' Hok; cbn [mutate_all].
  - by intros [= <-].
  - destruct (mutate mu t) as [t1|] eqn:E; [|done]. cbn.
    apply IH. by eapply mutate_count_ok.
Qed.

Lemma QueueEmail_success m email params env s s' :
  integration.QueueEmail m email params env s = (Some None, s') →
  EmailManager.emailQueue m ≠ None ∧ Email.Validate email = None ∧
  ∃ p, EmailManager.defaultProvider m = Some p.
Proof.
  unfold integration.QueueEmail.
  destruct (EmailManager.emailQueue m) as [[]|]; [|done].
  destruct (Email.Validate email); [done|].
  destruct (EmailManager.defaultProvider m) as [p|]; [eauto|done].
Qed.

Lemma created_by_QueueEmail m email params env s s' t :
  integration.QueueEmail m email params env s = (Some None, s') →
  tq s' ≡ₚ t :: tq s →
  EmailTask.RetryCount t = 0 ∧ EmailTask.MaxRetries t = maxRetries_of m params ∧
  EmailTask.Status t = EmailStatusQueued.
Proof.
  intros Hrun Hperm.
  destruct (QueueEmail_success _ _ _ _ _ _ Hrun) as (Hq & Hv & p & Hp).
  destruct (QueueEmail_valid m email params p env s Hq Hv Hp)
    as (task & s1 & Hrun1 & Hperm1 & _ & _ & _ & _ & _ & _ & _ & Hmax & Hrc & Hst & _).
  rewrite Hrun in Hrun1. injection Hrun1 as <-.
  rewrite Hperm in Hperm1.
  apply (Permutation_app_inv_r _ [t] [task]) in Hperm1.
  apply Permutation_singleton_l in Hperm1. injection Hperm1 as <-. done.
Qed.

Lemma maxRetries_of_bounds m params :
  0 <= EmailManager.MaxRetries m →
  0 <= maxRetries_of m params <= EmailManager.MaxRetries m.
Proof.
  intros H. unfold maxRetries_of. destruct (params !! 1%nat); [|lia].
  case_decide; lia.
Qed.

Lemma sample_created_by_QueueEmail :
  ∃ s', integration.QueueEmail (manager_with 3 sample_smtp) sample_email []
          env_accepting (boot 3 sample_smtp) = (Some None, s') ∧
        tq s' = [sample_created 3].
Proof.
  destruct (integration.QueueEmail (manager_with 3 sample_smtp) sample_email []
              env_accepting (boot 3 sample_smtp)) as [r s'] eqn:E.
  assert (r = Some None) as ->.
  { apply (f_equal fst) in E. vm_compute in E. by subst r. }
  exists s'. split; [done|].
  transitivity (tq (integration.QueueEmail (manager_with 3 sample_smtp) sample_email []
                      env_accepting (boot 3 sample_smtp)).2);
    [by rewrite E | vm_compute; reflexivity].
Qed.

Lemma worker_retry_is_mutation task env s :
  EmailTask.ShouldRetry task = true →
  ∃ t' s' r,
    worker.retryFailedTask_go task env s = (r, s') ∧
    mutate (MutWorkerRetry (uuid_at env (uuids (world s)))
              (now_at env (ticks (world s)))) task = Some t' ∧
    tq s' ≡ₚ t' :: tq s.
Proof.
  intros Hretry. unfold worker.retryFailedTask_go, bind.
  destruct (Enqueue_spec env s
              (EmailTask.set_RetryCount (GoInt.incr (EmailTask.RetryCount task)) task))
    as (pq' & Hrun & Hperm & _).
  rewrite Hrun. cbn [mutate EmailTask.Email EmailTask.set_RetryCount]. rewrite Hretry.
  destruct (EmailTask.Email task);
    (eexists _, _, _; split; [reflexivity|]; split; [reflexivity|]; exact Hperm).
Qed.

Lemma NewEmailManager_has_default config emailQueue m :
  integration.NewEmailManager config emailQueue = Ok m →
  EmailManager.defaultProvider m ≠ None ∧
  EmailManager.MaxRetries m = EmailConfig.MaxRetries config ∧
  EmailManager.emailQueue m = emailQueue.
Proof.
  unfold integration.NewEmailManager.
  repeat case_match; intros [= <-]; done.
Qed.

(** ** Turns of the loops *)

Lemma ShouldRetry_MarkAsFailed t :
  EmailTask.ShouldRetry (EmailTask.MarkAsFailed t) = false.
Proof.
  unfold EmailTask.ShouldRetry, EmailTask.MarkAsFailed. cbn.
  by rewrite bool_decide_eq_true_2 by lia.
Qed.

Lemma bind_assoc {S A B C} (m : M S A) (k : A → M S B) (k' : B → M S C) env s :
  bind (bind m k) k' env s = bind m (λ a, bind (k a) k') env s.
Proof. unfold bind. by destruct (m env s) as [[a|] s1]. Qed.

(** What a turn of [ProcessQueue] does with a task whose send fails. *)
Lemma handle_failed_send task e err w1 env s :
  EmailTask.Email task = Some e →
  EmailTask.IsCompleted task = false →
  EmailProvider.Send (DefaultEmailQueue.emailService (queue s)) e env (world s)
    = (Some (Err err), w1) →
  queue.handle task env s =
    (Some tt,
     mkSys w1 (queue s) (goroutines s)
       (finished s ++ [EmailTask.MarkAsFailed (EmailTask.MarkAsFailed task)])).
Proof.
  intros He Hc Hsend. unfold queue.handle. rewrite Hc.
  unfold bind at 1. unfold must at 1. rewrite He.
  unfold bind at 1. unfold queue.processTask.
  unfold bind at 1. unfold get at 1. unfold bind at 1. unfold must at 1. rewrite He.
  unfold bind at 1. unfold in_world at 1. rewrite Hsend.
  cbn [ret fst snd]. rewrite ShouldRetry_MarkAsFailed. reflexivity.
Qed.

Lemma handle_world task e env s :
  EmailTask.Email task = Some e →
  EmailTask.IsCompleted task = false →
  world (queue.handle task env s).2 =
    (EmailProvider.Send (DefaultEmailQueue.emailService (queue s)) e env (world s)).2.
Proof.
  intros He Hc.
  destruct (EmailProvider.Send (DefaultEmailQueue.emailService (queue s)) e env (world s))
    as [[[r|err]|] w1] eqn:Hsend.
  - unfold queue.handle. rewrite Hc.
    unfold bind at 1. unfold must at 1. rewrite He.
    unfold bind at 1. unfold queue.processTask.
    unfold bind at 1. unfold get at 1. unfold bind at 1. unfold must at 1. rewrite He.
    unfold bind at 1. unfold in_world at 1. rewrite Hsend. reflexivity.
  - by rewrite (handle_failed_send _ _ _ _ _ _ He Hc Hsend).
  - unfold queue.handle. rewrite Hc.
    unfold bind at 1. unfold must at 1. rewrite He.
    unfold bind at 1. unfold queue.processTask.
    unfold bind at 1. unfold get at 1. unfold bind at 1. unfold must at 1. rewrite He.
    unfold bind at 1. unfold in_world at 1. rewrite Hsend. reflexivity.
Qed.

Lemma idle_step st env s :
  tq s = [] → goroutines s = [] → step st env s = (Some tt, s).
Proof.
  intros Hq Hg. destruct st as [|k]; cbn [step].
  - unfold worker.processQueue_turn, queue.ProcessQueue_turn, bind.
    destruct (pop_spec env s) as [Hnil _]. by rewrite (Hnil Hq).
  - unfold bind, get. by rewrite Hg, lookup_nil.
Qed.

Lemma idle_run steps env s :
  tq s = [] → goroutines s = [] → run steps env s = (Some tt, s).
Proof.
  intros Hq Hg. induction steps as [|st steps IH]; [done|].
  cbn [run]. unfold bind. by rewrite idle_step.
Qed.

(** The sibling path: [processEmailTask] retries twice, then alerts. *)
Example processEmailTask_retries_twice_then_alerts :
  ((λ ev, (event_method ev, event_recipients ev)) <$> trace (world after_worker_path)
   = [("TLS", ["a@x.com"]); ("STARTTLS", ["a@x.com"]); ("Plain", ["a@x.com"]);
      ("TLS", ["a@x.com"]); ("STARTTLS", ["a@x.com"]); ("Plain", ["a@x.com"]);
      ("TLS", ["a@x.com"]); ("STARTTLS", ["a@x.com"]); ("Plain", ["a@x.com"]);
      ("TLS", ["admin@tnprgpv.com"]); ("STARTTLS", ["admin@tnprgpv.com"]);
      ("Plain", ["admin@tnprgpv.com"])]) ∧
  (summary <$> finished after_worker_path = [(2, 2, "failed")]).
Proof. split; vm_compute; reflexivity. Qed.

Lemma processEmailTask_world w m p task e env s :
  EmailTask.Email task = Some e →
  EmailManager.defaultProvider m = Some p →
  world (worker.processEmailTask w m task env s).2 =
    match EmailProvider.Send p e env (world s) with
    | (Some (Err _), w1) =>
        if EmailTask.ShouldRetry task then w1
        else
          (EmailProvider.Send p
             (worker.alert_email (now_at env (ticks w1))
                (EmailTask.MarkAsFailed task) e)
             env (mkWorld (trace w1) (S (ticks w1)) (uuids w1))).2
    | (_, w1) => w1
    end.
Proof.
  intros He Hp. unfold worker.processEmailTask.
  unfold bind at 1. unfold must at 1. rewrite He.
  unfold bind at 1. unfold in_world at 1. unfold integration.Send at 1. rewrite Hp.
  unfold bind at 1.
  destruct (EmailProvider.Send p e env (world s)) as [[[r|err]|] w1] eqn:Hsend;
    [reflexivity | | reflexivity].
  cbn [ret fst snd]. destruct (EmailTask.ShouldRetry task).
  - unfold worker.retryFailedTask, bind, must.
    by destruct (RetryPolicy.GetRetryInterval _ _).
  - clear Hsend.
    unfold worker.handleFailedTask, worker.notifyAdminOnFailure,
      integration.Send, bind, must, in_world, time_Now, release, modify, ret.
    cbn [EmailTask.Email EmailTask.MarkAsFailed EmailTask.set_Status
         EmailTask.set_RetryCount].
    rewrite He, Hp. cbn [set_world world].
    destruct (EmailProvider.Send p _ env _) as [[[r|err']|] w2]; reflexivity.
Qed.


(** ** C1: the retry count against the limit *)

(** C1 (amended).  For a task created by [QueueEmail] under a configured
    maximum that is not negative, after any sequence of task mutations
    the retry count is at most the limit of the task; and right after
    [IncrementRetry] or [MarkAsFailed] a count equal to the limit comes
    with the status "failed". *)
Theorem retry_count_never_exceeds_max m email params env s s' t mus t' :
  0 <= EmailManager.MaxRetries m <= GoInt.max_int →
  integration.QueueEmail m email params env s = (Some None, s') →
  tq s' ≡ₚ t :: tq s →
  mutate_all mus t = Some t' →
  EmailTask.RetryCount t' <= EmailTask.MaxRetries t' ∧
  retry_invariant (EmailTask.IncrementRetry t') ∧
  retry_invariant (EmailTask.MarkAsFailed t').
Proof.
  intros Hm Hrun Hperm Hmus.
  destruct (created_by_QueueEmail _ _ _ _ _ _ _ Hrun Hperm) as (Hrc & Hmax & _).
  pose proof (maxRetries_of_bounds m params (proj1 Hm)).
  assert (count_ok t) as Hok.
  { unfold count_ok, GoInt.in_range, GoInt.min_int, GoInt.max_int in *.
    rewrite Hrc, Hmax. lia. }
  destruct (mutate_all_count_ok _ _ _ Hok Hmus) as (_ & Hle & _).
  split_and!; [done | apply IncrementRetry_invariant | apply MarkAsFailed_invariant].
Qed.

Lemma retry_count_never_exceeds_max_witness :
  ∃ t',
    mutate_all (three_worker_retries ++ [MutMarkAsSent]) (sample_created 3) = Some t' ∧
    EmailTask.RetryCount t' <= EmailTask.MaxRetries t'.
Proof.
  destruct sample_created_by_QueueEmail as (s' & Hrun & Htq).
  eexists. split; [vm_compute; reflexivity|].
  refine (proj1 (retry_count_never_exceeds_max _ _ _ _ _ s' (sample_created 3)
                   (three_worker_retries ++ [MutMarkAsSent]) _ _ Hrun _ eq_refl)).
  - vm_compute. split; discriminate.
  - by rewrite Htq.
Defined.

(** C1, as stated, fails: after the third retry of the worker the
    count of a task created with the limit 3 equals the limit while the
    status is still "queued"; the run of [processEmailTask] and of its
    goroutines on a network that refuses every attempt leaves such a
    task in the queue. *)
Lemma retry_invariant_counterexample :
  ∃ s' t',
    integration.QueueEmail (manager_with 3 sample_smtp) sample_email []
      env_accepting (boot 3 sample_smtp) = (Some None, s') ∧
    tq s' = [sample_created 3] ∧
    mutate_all three_worker_retries (sample_created 3) = Some t' ∧
    EmailTask.RetryCount t' = EmailTask.MaxRetries t' ∧
    EmailTask.Status t' = EmailStatusQueued ∧
    ¬ retry_invariant t' ∧
    summary <$> tq after_three_worker_retries = [(3, 3, "queued")].
Proof.
  destruct sample_created_by_QueueEmail as (s' & Hrun & Htq).
  exists s'. eexists.
  split_and!; [done | done | vm_compute; reflexivity | done | done | |
               vm_compute; reflexivity].
  intros [_ H]. specialize (H eq_refl). discriminate H.
Qed.

(** ** C2: what the queue loop does when every send fails *)

(** C2 (what the code does).  When the send of a popped task fails, the
    turn of [ProcessQueue] ends with the task marked as failed, its
    count set to its limit by [processTask], no goroutine started and
    the queue as it was: the task is never retried.  For the message of
    the specification with the limit 2 on a network that refuses every
    attempt: the three methods are tried once, the task is failed, no
    alert is sent, and no later step changes anything. *)
Theorem ProcessQueue_gives_up_at_first_failure :
  (∀ task e err w1 env s,
     EmailTask.Email task = Some e →
     EmailTask.IsCompleted task = false →
     EmailProvider.Send (DefaultEmailQueue.emailService (queue s)) e env (world s)
       = (Some (Err err), w1) →
     ∃ s',
       queue.handle task env s = (Some tt, s') ∧
       goroutines s' = goroutines s ∧ tq s' = tq s ∧ world s' = w1 ∧
       finished s' =
         finished s ++ [EmailTask.MarkAsFailed (EmailTask.MarkAsFailed task)]) ∧
  (event_method <$> trace (world after_first_turn) = ["TLS"; "STARTTLS"; "Plain"]) ∧
  (summary <$> finished after_first_turn = [(2, 2, "failed")]) ∧
  (∀ steps, run steps env_refusing after_first_turn = (Some tt, after_first_turn)).
Proof.
  split_and!.
  - intros task e err w1 env s He Hc Hsend.
    eexists. split; [by eapply handle_failed_send|]. done.
  - vm_compute. reflexivity.
  - vm_compute. reflexivity.
  - intros steps.
    assert (tq after_first_turn = []) as Hq by (vm_compute; reflexivity).
    assert (goroutines after_first_turn = []) as Hg by (vm_compute; reflexivity).
    exact (idle_run steps env_refusing after_first_turn Hq Hg).
Qed.

Lemma ProcessQueue_gives_up_at_first_failure_witness :
  ∃ s',
    queue.handle (sample_created 2) env_refusing (boot 2 sample_smtp) = (Some tt, s') ∧
    goroutines s' = [] ∧ tq s' = [] ∧
    event_method <$> trace (world s') = ["TLS"; "STARTTLS"; "Plain"] ∧
    summary <$> finished s' = [(2, 2, "failed")].
Proof.
  destruct ProcessQueue_gives_up_at_first_failure as [H _].
  destruct (H (sample_created 2) (Email.set_SentAt 1 sample_email)
              (ErrWrap "failed to send email"
                 (ErrWrap "all SMTP connection methods failed, last error"
                    (ErrNew "connection refused")))
              (mkWorld [EvAttempt "smtp" "TLS" (Email.set_SentAt 1 sample_email);
                        EvAttempt "smtp" "STARTTLS" (Email.set_SentAt 1 sample_email);
                        EvAttempt "smtp" "Plain" (Email.set_SentAt 1 sample_email)] 0 0)
              env_refusing (boot 2 sample_smtp) eq_refl eq_refl eq_refl)
    as (s' & Hrun & Hg & Hq & Hw & Hf).
  exists s'. split_and!; [done | done | done | by rewrite Hw | by rewrite Hf].
Defined.

(** ** C3: the provider that delivers a task *)

(** C3, as stated, fails: a task bound to "smtp" when it was queued
    is delivered, and marked as sent, through the provider "sendgrid"
    that the queue was given afterwards. *)
Lemma delivery_by_named_provider_counterexample :
  EmailTask.ProviderName <$>
    tq (integration.QueueEmail (manager_with 3 sample_smtp) sample_email []
          env_accepting (boot 3 sample_smtp)).2 = ["smtp"] ∧
  event_provider <$> trace (world after_provider_switch) = ["sendgrid"] ∧
  EmailTask.ProviderName <$> finished after_provider_switch = ["smtp"] ∧
  EmailTask.Status <$> finished after_provider_switch = ["sent"].
Proof. split_and!; vm_compute; reflexivity. Qed.

(** C3 (amended).  For a popped task that is not completed, the turn of
    [ProcessQueue] hands the message to the [emailService] of the queue,
    and [processEmailTask] hands it (and the alert, after the last
    failure) to the default provider that the manager has at that
    moment; the world changes as these sends change it, whatever name
    the task records in [ProviderName]. *)
Theorem delivery_uses_queue_service_or_current_default :
  (∀ task e env s,
     EmailTask.Email task = Some e →
     EmailTask.IsCompleted task = false →
     world (queue.handle task env s).2 =
       (EmailProvider.Send (DefaultEmailQueue.emailService (queue s)) e env (world s)).2) ∧
  (∀ w m p task e env s,
     EmailTask.Email task = Some e →
     EmailManager.defaultProvider m = Some p →
     world (worker.processEmailTask w m task env s).2 =
       match EmailProvider.Send p e env (world s) with
       | (Some (Err _), w1) =>
           if EmailTask.ShouldRetry task then w1
           else
             (EmailProvider.Send p
                (worker.alert_email (now_at env (ticks w1))
                   (EmailTask.MarkAsFailed task) e)
                env (mkWorld (trace w1) (S (ticks w1)) (uuids w1))).2
       | (_, w1) => w1
       end) ∧
  (∀ name task e env s,
     EmailTask.Email task = Some e →
     EmailTask.IsCompleted task = false →
     trace (world (queue.handle (with_ProviderName name task) env s).2) =
       trace (world (queue.handle task env s).2)) ∧
  (∀ name w m p task e env s r w1,
     EmailTask.Email task = Some e →
     EmailManager.defaultProvider m = Some p →
     EmailProvider.Send p e env (world s) = (Some (Ok r), w1) →
     world (worker.processEmailTask w m (with_ProviderName name task) env s).2 = w1).
Proof.
  split_and!; [apply handle_world | apply processEmailTask_world | |].
  - intros name task e env s He Hc.
    by rewrite (handle_world (with_ProviderName name task) e env s He Hc),
               (handle_world task e env s He Hc).
  - intros name w m p task e env s r w1 He Hp Hsend.
    rewrite (processEmailTask_world w m p (with_ProviderName name task) e env s He Hp).
    by rewrite Hsend.
Qed.

Lemma delivery_uses_queue_service_or_current_default_witness :
  world (queue.handle (sample_created 3) env_accepting
           (boot 3 (StubProvider.as_provider "sendgrid"))).2
  = mkWorld [EvAttempt "sendgrid" "send" (Email.set_SentAt 1 sample_email)] 1 0 ∧
  world (worker.processEmailTask (sample_worker 3)
           (manager_with 3 (StubProvider.as_provider "sendgrid"))
           (sample_created 3) env_accepting (boot 3 sample_smtp)).2
  = mkWorld [EvAttempt "sendgrid" "send" (Email.set_SentAt 1 sample_email)] 1 0.
Proof.
  destruct delivery_uses_queue_service_or_current_default as (H1 & H2 & _). split.
  - etransitivity;
      [exact (H1 (sample_created 3) (Email.set_SentAt 1 sample_email) env_accepting
                (boot 3 (StubProvider.as_provider "sendgrid")) eq_refl eq_refl)|].
    vm_compute. reflexivity.
  - etransitivity;
      [exact (H2 (sample_worker 3)
                (manager_with 3 (StubProvider.as_provider "sendgrid"))
                (StubProvider.as_provider "sendgrid")
                (sample_created 3) (Email.set_SentAt 1 sample_email) env_accepting
                (boot 3 sample_smtp) eq_refl eq_refl)|].
    vm_compute. reflexivity.
Defined.

(** ** C4: the queue serves the most urgent task first *)

Lemma fresh_empty s : fresh s → tq s = [].
Proof. unfold fresh, queue.NewEmailQueue. cbn. by intros [= <-]. Qed.

Lemma run_ops_then_pop env s0 ops rs s :
  fresh s0 → run_ops ops env s0 = (Some rs, s) →
  ∃ o s', queue.pop env s = (Some o, s') ∧
    match o with
    | None => tq s = []
    | Some x => tq s ≡ₚ x :: tq s' ∧ ∀ y, y ∈ tq s → prio x <= prio y
    end.
Proof.
  intros Hfresh Hrun.
  assert (heap_ordered (tq s)) as Hh.
  { eapply run_ops_ordered; [done|]. rewrite (fresh_empty _ Hfresh).
    apply heap_ordered_nil. }
  destruct (pop_spec env s) as [Hnil Hcons].
  destruct (decide (tq s = [])) as [e|ne].
  - exists None, s. by rewrite (Hnil e).
  - destruct (Hcons ne) as (x & pq' & Hpop & Hperm & Hord).
    eexists (Some x), _. split; [done|]. cbn. split; [done|]. by apply Hord.
Qed.

Lemma push_all_pop_all env s0 tasks :
  fresh s0 → Forall (λ t, EmailTask.Email t ≠ None) tasks →
  ∃ out s,
    (enqueue_all tasks ;; pop_n (length tasks)) env s0 = (Some (Some <$> out), s) ∧
    length out = length tasks ∧
    payload <$> out ≡ₚ payload <$> tasks ∧
    Sorted Z.le (prio <$> out).
Proof.
  intros Hfresh Hall.
  destruct (enqueue_all_spec tasks env s0 Hall) as (s1 & Hrun1 & Hperm1 & Hord1).
  rewrite (fresh_empty _ Hfresh) in Hperm1, Hord1.
  rewrite app_nil_r in Hperm1.
  assert (length (tq s1) = length tasks) as Hlen.
  { apply Permutation_length in Hperm1. by rewrite !length_fmap in Hperm1. }
  destruct (pop_n_spec (length tasks) env s1 (Hord1 heap_ordered_nil) Hlen)
    as (out & s2 & Hrun2 & Hperm2 & _ & Hsorted).
  exists out, s2. unfold bind. rewrite Hrun1, Hrun2.
  split_and!; [done | | | by apply StronglySorted_Sorted].
  - apply Permutation_length in Hperm2. lia.
  - by rewrite Hperm2.
Qed.

(** C4.  After any sequence of [Enqueue] and pop operations on a queue
    built by [NewEmailQueue], a pop returns a task whose [Priority] is
    the least among the tasks in the queue (or finds the queue empty);
    and enqueueing [N] tasks and popping [N] times returns the tasks in
    non-decreasing order of [Priority]. *)
Theorem pop_returns_least_priority :
  (∀ env s0 ops rs s,
     fresh s0 → run_ops ops env s0 = (Some rs, s) →
     ∃ o s', queue.pop env s = (Some o, s') ∧
       match o with
       | None => tq s = []
       | Some x => tq s ≡ₚ x :: tq s' ∧ ∀ y, y ∈ tq s → prio x <= prio y
       end) ∧
  (∀ env s0 tasks,
     fresh s0 → Forall (λ t, EmailTask.Email t ≠ None) tasks →
     ∃ out s,
       (enqueue_all tasks ;; pop_n (length tasks)) env s0
         = (Some (Some <$> out), s) ∧
       length out = length tasks ∧
       payload <$> out ≡ₚ payload <$> tasks ∧
       Sorted Z.le (prio <$> out)).
Proof. split; [apply run_ops_then_pop | apply push_all_pop_all]. Qed.

Lemma pop_returns_least_priority_witness :
  (∃ o s',
     queue.pop env_accepting
       (run_ops sample_ops env_accepting (boot 3 sample_smtp)).2 = (Some o, s') ∧
     match o with
     | None => False
     | Some x =>
         ∀ y, y ∈ tq (run_ops sample_ops env_accepting (boot 3 sample_smtp)).2 →
              prio x <= prio y
     end) ∧
  (∃ out,
     ((enqueue_all (sample_task <$> [4; 2; 9; 2; 1]) ;; pop_n 5)
        env_accepting (boot 3 sample_smtp)).1 = Some (Some <$> out) ∧
     length out = 5%nat ∧ Sorted Z.le (prio <$> out)).
Proof.
  destruct pop_returns_least_priority as [H1 H2]. split.
  - destruct (run_ops _ env_accepting (boot 3 sample_smtp)) as [r s] eqn:E.
    assert (∃ rs, r = Some rs) as [rs ->].
    { apply (f_equal fst) in E. vm_compute in E. subst r. eauto. }
    destruct (H1 env_accepting (boot 3 sample_smtp) _ _ _ eq_refl E)
      as (o & s' & Hpop & Ho).
    exists o, s'. split; [exact Hpop|]. cbn [snd].
    destruct o as [x|]; [tauto|].
    apply (f_equal (λ x, length (tq x.2))) in E.
    cbn [snd] in E, Ho. rewrite Ho in E. vm_compute in E. discriminate E.
  - destruct (H2 env_accepting (boot 3 sample_smtp) (sample_task <$> [4; 2; 9; 2; 1]))
      as (out & s & Hrun & Hlen & _ & Hsorted).
    + reflexivity.
    + repeat constructor; discriminate.
    + exists out. split_and!; [exact (f_equal fst Hrun) | exact Hlen | exact Hsorted].
Defined.

(** ** C5: what [QueueEmail] returns and enqueues *)

(** C5, as stated, fails: the override of the priority is not held
    within any configured bound.  The largest [int] is taken as the
    priority of the task, by a manager whose only configured number
    is the limit of 3 retries. *)
Lemma QueueEmail_priority_unbounded_counterexample :
  EmailTask.Priority <$>
    tq (integration.QueueEmail (manager_with 3 sample_smtp) sample_email
          [GoInt.max_int] env_accepting (boot 3 sample_smtp)).2
  = [2 ^ 63 - 1].
Proof. vm_compute. reflexivity. Qed.

(** C5 (amended).  [QueueEmail] returns an error when the queue is not
    wired and when the message fails validation, leaving the state as
    it was.  Otherwise it enqueues a task bound to the name of the
    default provider of that moment, whose [Priority] is the override
    whenever the override is positive, without an upper bound, and 2
    otherwise, and whose [MaxRetries] is the override when it is
    positive and at most the configured maximum, and the configured
    maximum otherwise. *)
Theorem QueueEmail_outcomes m email params env s :
  (EmailManager.emailQueue m = None →
   integration.QueueEmail m email params env s =
     (Some (Some (ErrNew "email queue not initialized")), s)) ∧
  (∀ err,
     EmailManager.emailQueue m ≠ None → Email.Validate email = Some err →
     integration.QueueEmail m email params env s =
       (Some (Some (ErrWrap "email validation failed" err)), s)) ∧
  (∀ p,
     EmailManager.emailQueue m ≠ None → Email.Validate email = None →
     EmailManager.defaultProvider m = Some p →
     ∃ task s',
       integration.QueueEmail m email params env s = (Some None, s') ∧
       tq s' ≡ₚ task :: tq s ∧
       EmailTask.ProviderName task = EmailProvider.Name p ∧
       EmailTask.Priority task = priority_of params ∧
       EmailTask.MaxRetries task = maxRetries_of m params).
Proof.
  split_and!.
  - apply QueueEmail_unwired.
  - intros. by apply QueueEmail_invalid.
  - intros p Hq Hv Hp.
    destruct (QueueEmail_valid m email params p env s Hq Hv Hp)
      as (task & s' & Hrun & Hperm & _ & _ & _ & _ & _ & Hname & Hprio & Hmax & _).
    by exists task, s'.
Qed.

Lemma QueueEmail_outcomes_witness :
  ∃ task s',
    integration.QueueEmail (manager_with 3 sample_smtp) sample_email [1; 2]
      env_accepting (boot 3 sample_smtp) = (Some None, s') ∧
    tq s' ≡ₚ [task] ∧
    EmailTask.ProviderName task = "smtp" ∧
    EmailTask.Priority task = 1 ∧
    EmailTask.MaxRetries task = 2.
Proof.
  destruct (QueueEmail_outcomes (manager_with 3 sample_smtp) sample_email [1; 2]
              env_accepting (boot 3 sample_smtp)) as (_ & _ & H).
  exact (H sample_smtp ltac:(discriminate) eq_refl eq_refl).
Defined.

Lemma QueueEmail_out_of_bounds_example :
  (λ t, (EmailTask.Priority t, EmailTask.MaxRetries t)) <$>
    tq (integration.QueueEmail (manager_with 3 sample_smtp) sample_email [0; 7]
          env_accepting (boot 3 sample_smtp)).2 = [(2, 3)].
Proof. vm_compute. reflexivity. Qed.


(** ** C6: the fallback chain of the SMTP provider *)

(** C6.  For a valid message, [SMTPProvider.Send] tries implicit TLS,
    then STARTTLS, then plain delivery, and stops at the first method
    that the network accepts: the trace holds exactly the attempts up
    to that method.  When the three fail, the result is one error that
    wraps the error of the last method (plain delivery). *)
Theorem Send_tries_methods_in_order p env email w :
  Email.Validate email = None →
  match answer env w 0 "TLS" email,
        answer env w 1 "STARTTLS" email,
        answer env w 2 "Plain" email with
  | None, _, _ =>
      SMTPProvider.Send p email env w =
        (Some (Ok (EmailResponse.mk "smtp-tls-message-id" EmailStatusSent
                     (now_at env (ticks w)))),
         advanced w (attempted w ["TLS"] email) 1)
  | Some _, None, _ =>
      SMTPProvider.Send p email env w =
        (Some (Ok (EmailResponse.mk "smtp-starttls-message-id" EmailStatusSent
                     (now_at env (ticks w)))),
         advanced w (attempted w ["TLS"; "STARTTLS"] email) 1)
  | Some _, Some _, None =>
      SMTPProvider.Send p email env w =
        (Some (Ok (EmailResponse.mk "smtp-plain-message-id" EmailStatusSent
                     (now_at env (ticks w)))),
         advanced w (attempted w ["TLS"; "STARTTLS"; "Plain"] email) 1)
  | Some _, Some _, Some e3 =>
      SMTPProvider.Send p email env w =
        (Some (Err (ErrWrap "failed to send email"
                      (ErrWrap "all SMTP connection methods failed, last error" e3))),
         advanced w (attempted w ["TLS"; "STARTTLS"; "Plain"] email) 0)
  end.
Proof.
  intros Hvalid. rewrite (Send_valid _ _ _ _ Hvalid), tryAllConnectionMethods_spec.
  destruct (answer env w 0 "TLS" email); [|done].
  destruct (answer env w 1 "STARTTLS" email); [|done].
  destruct (answer env w 2 "Plain" email); done.
Qed.

Lemma Send_tries_methods_in_order_witness :
  SMTPProvider.Send sample_provider sample_email env_plain_only World0 =
    (Some (Ok (EmailResponse.mk "smtp-plain-message-id" EmailStatusSent 0)),
     mkWorld [EvAttempt "smtp" "TLS" sample_email;
              EvAttempt "smtp" "STARTTLS" sample_email;
              EvAttempt "smtp" "Plain" sample_email] 1 0).
Proof.
  exact (Send_tries_methods_in_order sample_provider env_plain_only sample_email
           World0 eq_refl).
Defined.


(** ** C7: invalid messages are rejected before any attempt *)

(** C7.  The ways of being invalid that the specification lists make
    [Validate] fail; and when [Validate] fails, [SMTPProvider.Send]
    returns the validation error and [EmailManager.QueueEmail] returns
    an error (the validation error when the queue is wired), both
    leaving the state as it was: no attempt is made on the network and
    nothing is enqueued. *)
Theorem invalid_message_never_reaches_network email :
  (listed_invalid email → Email.Validate email ≠ None) ∧
  ∀ err, Email.Validate email = Some err →
    (∀ p env w,
       SMTPProvider.Send p email env w =
         (Some (Err (ErrWrap "email validation failed" err)), w)) ∧
    (∀ m params env s,
       integration.QueueEmail m email params env s =
         (Some (Some (match EmailManager.emailQueue m with
                      | Some _ => ErrWrap "email validation failed" err
                      | None => ErrNew "email queue not initialized"
                      end)), s)).
Proof.
  split; [apply listed_invalid_rejected|]. intros err Hv. split.
  - intros. by apply Send_invalid.
  - intros. destruct (EmailManager.emailQueue m) eqn:E.
    + apply QueueEmail_invalid; [by rewrite E | done].
    + by apply QueueEmail_unwired.
Qed.

Lemma invalid_message_never_reaches_network_witness :
  Email.Validate invalid_email ≠ None ∧
  SMTPProvider.Send sample_provider invalid_email env_accepting World0 =
    (Some (Err (ErrWrap "email validation failed"
                  (ErrNew "attachment archive.zip has an unsupported content type: application/zip"))),
     World0) ∧
  (integration.QueueEmail (manager_with 3 sample_smtp) invalid_email []
     env_accepting (boot 3 sample_smtp)).1 =
    Some (Some (ErrWrap "email validation failed"
                  (ErrNew "attachment archive.zip has an unsupported content type: application/zip"))).
Proof.
  destruct (invalid_message_never_reaches_network invalid_email) as [H1 H2].
  split.
  - apply H1. do 3 right. exists zip_attachment. split; [left|].
    do 2 right. left. by apply (bool_decide_eq_false_1 _).
  - destruct (H2 _ eq_refl) as [Hs Hq]. split; [apply Hs|].
    by rewrite Hq.
Defined.


(** ** C8: a batch reports every message on its own *)

(** C8.  [BatchSend] returns as many responses as there are messages,
    in the order of the messages, each recording whether the [Send] of
    that message succeeded or failed; it goes through the whole list
    and its error is always [nil].  On a network whose answers do not
    depend on the moment, the status of a response depends on its own
    message only. *)
Theorem BatchSend_reports_each_message p env emails w :
  ∃ responses w',
    SMTPProvider.BatchSend p emails env w = (Some (responses, None), w') ∧
    length responses = length emails ∧
    batch_outcome p env w emails responses w' ∧
    (stateless env →
     Forall2 (λ email response,
                EmailResponse.Status response =
                  if deliverable env email then EmailStatusSent else EmailStatusFailed)
       emails responses).
Proof.
  destruct (batch_loop_spec p env emails [] w) as (rs & w' & Hrun & Hlen & Hout).
  exists rs, w'. unfold SMTPProvider.BatchSend, bind. rewrite Hrun.
  split_and!; [done | done | done |].
  intros Hst. by eapply batch_outcome_stateless.
Qed.

Lemma BatchSend_reports_each_message_witness :
  ∃ responses,
    (SMTPProvider.BatchSend sample_provider
       [sample_email; invalid_email; sample_email] env_accepting World0).1
      = Some (responses, None) ∧
    EmailResponse.Status <$> responses = ["sent"; "failed"; "sent"].
Proof.
  destruct (BatchSend_reports_each_message sample_provider env_accepting
              [sample_email; invalid_email; sample_email] World0)
    as (rs & w' & Hrun & _ & _ & Hst).
  exists rs. split; [by rewrite Hrun|].
  assert (stateless env_accepting) as H by done.
  apply Hst in H.
  apply Forall2_cons_inv_l in H as (r1 & rs1 & H1 & H & ->).
  apply Forall2_cons_inv_l in H as (r2 & rs2 & H2 & H & ->).
  apply Forall2_cons_inv_l in H as (r3 & rs3 & H3 & H & ->).
  apply Forall2_nil_inv_l in H as ->.
  cbn. by rewrite H1, H2, H3.
Defined.

(** ** C9: the interval before a retry *)

(** C9.  A policy built by [NewRetryPolicy] holds the intervals it was
    given, or 1, 5 and 10 minutes when it was given none; for every
    attempt number that is not negative, [GetRetryInterval] returns
    (without a panic) the interval at that index when the index is
    within the list, and the last interval otherwise. *)
Theorem GetRetryInterval_in_range_or_last maxRetries retryIntervals attempt :
  0 <= attempt →
  RetryPolicy.RetryIntervals (RetryPolicy.NewRetryPolicy maxRetries retryIntervals)
    = (if decide (retryIntervals = [])
       then [1 * Minute; 5 * Minute; 10 * Minute] else retryIntervals) ∧
  ∃ d,
    RetryPolicy.GetRetryInterval
      (RetryPolicy.NewRetryPolicy maxRetries retryIntervals) attempt = Some d ∧
    if decide (attempt < GoInt.len (RetryPolicy.RetryIntervals
                                      (RetryPolicy.NewRetryPolicy maxRetries retryIntervals)))
    then RetryPolicy.RetryIntervals
           (RetryPolicy.NewRetryPolicy maxRetries retryIntervals)
           !! Z.to_nat attempt = Some d
    else last (RetryPolicy.RetryIntervals
                 (RetryPolicy.NewRetryPolicy maxRetries retryIntervals)) = Some d.
Proof.
  intros Hattempt.
  unfold RetryPolicy.NewRetryPolicy, RetryPolicy.GetRetryInterval, GoInt.len, GoInt.index.
  cbn [RetryPolicy.RetryIntervals].
  set (l := if bool_decide (Z.of_nat (length retryIntervals) = 0)
            then RetryPolicy.DefaultRetryIntervals else retryIntervals).
  assert (l = if decide (retryIntervals = [])
              then [1 * Minute; 5 * Minute; 10 * Minute] else retryIntervals) as Hl.
  { subst l. destruct retryIntervals; [done|].
    rewrite bool_decide_eq_false_2 by (cbn [length]; lia). by rewrite decide_False. }
  assert (0 < length l)%nat as Hlen.
  { rewrite Hl. destruct retryIntervals; [rewrite decide_True by done|rewrite decide_False by done]; cbn [length]; lia. }
  split; [done|]. clear Hl.
  case_bool_decide as Hge.
  - destruct (lookup_lt_is_Some_2 l (Z.to_nat (Z.of_nat (length l) - 1))) as [d Hd]; [lia|].
    exists d. rewrite decide_True by lia. rewrite decide_False by lia.
    split; [done|]. rewrite last_lookup.
    by replace (Init.Nat.pred (length l)) with (Z.to_nat (Z.of_nat (length l) - 1)) by lia.
  - destruct (lookup_lt_is_Some_2 l (Z.to_nat attempt)) as [d Hd]; [lia|].
    exists d. by rewrite !decide_True by lia.
Qed.

Lemma GetRetryInterval_in_range_or_last_witness :
  RetryPolicy.GetRetryInterval (RetryPolicy.NewRetryPolicy 3 []) 1 = Some (5 * Minute) ∧
  RetryPolicy.GetRetryInterval (RetryPolicy.NewRetryPolicy 3 []) 7 = Some (10 * Minute) ∧
  RetryPolicy.GetRetryInterval (RetryPolicy.NewRetryPolicy 3 [Minute]) 0 = Some Minute.
Proof.
  split_and!.
  - destruct (GetRetryInterval_in_range_or_last 3 [] 1) as (_ & d & -> & Hd); [lia|].
    exact (eq_sym Hd).
  - destruct (GetRetryInterval_in_range_or_last 3 [] 7) as (_ & d & -> & Hd); [lia|].
    exact (eq_sym Hd).
  - destruct (GetRetryInterval_in_range_or_last 3 [Minute] 0) as (_ & d & -> & Hd); [lia|].
    exact (eq_sym Hd).
Defined.

(** ** C10: what [Enqueue] changes in a task *)



(* ================================================================== *)
(** * Part IV: further properties of the program *)
(* ================================================================== *)

(** ** Matching by derivatives against the language of the pattern *)

Section RegexFacts.

Local Arguments String.append !s1 s2 / : simpl nomatch.

Lemma append_nil_inv (s1 s2 : string) : s1 +:+ s2 = "" → s1 = "" ∧ s2 = "".
Proof. by destruct s1. Qed.

Lemma append_nil_r (s : string) : s +:+ "" = s.
Proof. induction s as [|c s IH]; [done | simpl; by rewrite IH]. Qed.

Lemma append_assoc (s1 s2 s3 : string) : (s1 +:+ s2) +:+ s3 = s1 +:+ s2 +:+ s3.
Proof. induction s1 as [|c s1 IH]; [done | simpl; by rewrite IH]. Qed.

Lemma nullable_matches r : Regex.nullable r = true ↔ matches r "".
Proof.
  split.
  - induction r as [| |p|r1 IH1 r2 IH2|r1 IH1 r2 IH2|r IH]; cbn; try done.
    + intros _. constructor.
    + intros [H1 H2]%andb_prop. apply (matches_seq r1 r2 "" ""); auto.
    + intros [H|H]%orb_prop; [apply matches_alt_l | apply matches_alt_r]; auto.
    + intros _. constructor.
  - intros H. remember "" as s eqn:Hs.
    induction H as [|p c Hp|r1 r2 s1 s2 H1 IH1 H2 IH2|r1 r2 s H IH|r1 r2 s H IH
                   |r|r s1 s2 H1 IH1 H2 IH2]; cbn; try done.
    + apply append_nil_inv in Hs as [-> ->]. by rewrite IH1, IH2.
    + by rewrite IH.
    + rewrite IH by done. by rewrite orb_true_r.
Qed.

Lemma matches_star_inv r c s :
  matches (Regex.Star r) (String c s) →
  ∃ s1 s2, s = s1 +:+ s2 ∧ matches r (String c s1) ∧ matches (Regex.Star r) s2.
Proof.
  intros H. remember (Regex.Star r) as r' eqn:Hr. remember (String c s) as s' eqn:Hs.
  revert Hr Hs.
  induction H as [|p c' Hp|r1 r2 s1 s2 H1 IH1 H2 IH2|r1 r2 s0 H IH|r1 r2 s0 H IH
                 |r0|r0 s1 s2 H1 IH1 H2 IH2]; try done.
  intros [= ->] Hs. destruct s1 as [|c1 s1].
  - cbn in Hs. by apply IH2.
  - cbn in Hs. injection Hs as -> <-. eauto.
Qed.

Lemma deriv_matches r : ∀ c s,
  matches (Regex.deriv c r) s ↔ matches r (String c s).
Proof.
  induction r as [| |p|r1 IH1 r2 IH2|r1 IH1 r2 IH2|r IH]; intros c s; cbn.
  - split; inversion 1.
  - split; inversion 1.
  - destruct (p c) eqn:Hp; split; inversion 1; subst.
    + by constructor.
    + constructor.
    + congruence.
  - assert (matches (Regex.Seq (Regex.deriv c r1) r2) s →
            matches (Regex.Seq r1 r2) (String c s)) as Hleft.
    { inversion 1 as [| |? ? s1 s2 Ha Hb| | | |]; subst.
      apply IH1 in Ha. apply (matches_seq r1 r2 (String c s1) s2 Ha Hb). }
    assert (matches (Regex.Seq r1 r2) (String c s) →
            (Regex.nullable r1 = true ∧ matches (Regex.deriv c r2) s)
            ∨ matches (Regex.Seq (Regex.deriv c r1) r2) s) as Hright.
    { inversion 1 as [| |? ? s1 s2 Ha Hb Hr Hs| | | |]; subst.
      destruct s1 as [|c1 s1].
      - cbn in Hs. subst s2. left. split; [by apply nullable_matches | by apply IH2].
      - cbn in Hs. injection Hs as -> <-. right.
        apply matches_seq; [by apply IH1 | done]. }
    destruct (Regex.nullable r1) eqn:Hn.
    + split.
      * inversion 1; subst; [by apply Hleft|].
        apply (matches_seq r1 r2 "" (String c s));
          [by apply nullable_matches | by apply IH2].
      * intros [[_ H]|H]%Hright; [by apply matches_alt_r | by apply matches_alt_l].
    + split; [exact Hleft|]. by intros [[? _]|H]%Hright.
  - split.
    + inversion 1; subst; [apply matches_alt_l | apply matches_alt_r];
        [by apply IH1 | by apply IH2].
    + inversion 1; subst; [apply matches_alt_l | apply matches_alt_r];
        [by apply IH1 | by apply IH2].
  - split.
    + inversion 1 as [| |? ? s1 s2 Ha Hb| | | |]; subst. apply IH in Ha.
      apply (matches_star_cons r (String c s1) s2 Ha Hb).
    + intros (s1 & s2 & -> & Ha & Hb)%matches_star_inv.
      apply matches_seq; [by apply IH | done].
Qed.

Lemma full_match_matches s : ∀ r,
  Regex.full_match r s = true ↔ matches r s.
Proof.
  induction s as [|c s IH]; intros r; cbn.
  - apply nullable_matches.
  - rewrite IH. apply deriv_matches.
Qed.

Lemma matches_class_inv p s :
  matches (Regex.Class p) s ↔ ∃ c, s = String c "" ∧ p c = true.
Proof.
  split; [inversion 1; eauto | intros (c & -> & Hp); by constructor].
Qed.

Lemma matches_star_class p s :
  matches (Regex.Star (Regex.Class p)) s ↔ all_chars p s = true.
Proof.
  split.
  - intros H. remember (Regex.Star (Regex.Class p)) as r eqn:Hr. revert Hr.
    induction H as [|p' c' Hp|r1 r2 s1 s2 H1 IH1 H2 IH2|r1 r2 s0 H IH|r1 r2 s0 H IH
                   |r0|r0 s1 s2 H1 IH1 H2 IH2]; try done.
    intros [= ->]. apply matches_class_inv in H1 as (c & -> & Hp). cbn.
    by rewrite Hp, IH2.
  - induction s as [|c s IH]; cbn; [constructor|].
    intros [Hp Hs]%andb_prop.
    apply (matches_star_cons (Regex.Class p) (String c "") s); [by constructor | auto].
Qed.

Lemma matches_plus_class p s :
  matches (Regex.Plus (Regex.Class p)) s ↔ s ≠ "" ∧ all_chars p s = true.
Proof.
  unfold Regex.Plus. split.
  - inversion 1 as [| |? ? s1 s2 Ha Hb| | | |]; subst.
    apply matches_class_inv in Ha as (c & -> & Hp).
    apply matches_star_class in Hb. cbn. by rewrite Hp, Hb.
  - destruct s as [|c s]; [by intros [? _]|]. cbn. intros [_ [Hp Hs]%andb_prop].
    apply (matches_seq (Regex.Class p) _ (String c "") s);
      [by constructor | by apply matches_star_class].
Qed.

End RegexFacts.

(** ** The shape of a recipient address *)

(** X1.  [isValidEmail] accepts exactly the strings [local@domain.tld] whose
    local part is a non-empty run of letters, digits and [._%+-], whose
    domain is a non-empty run of letters, digits, dots and hyphens, and
    which end in a dot followed by two letters or more. *)
Theorem isValidEmail_shape (s : string) :
  Email.isValidEmail s = true ↔ address_shape s.
Proof.
  unfold Email.isValidEmail, Email.emailRegex, address_shape.
  rewrite full_match_matches. fold local_char. fold domain_char. split.
  - inversion 1 as [| |? ? loc s1 Hloc H1| | | |]; subst.
    inversion H1 as [| |? ? at_ s2 Hat H2| | | |]; subst.
    inversion H2 as [| |? ? dom s3 Hdom H3| | | |]; subst.
    inversion H3 as [| |? ? dot s4 Hdot H4| | | |]; subst.
    inversion H4 as [| |? ? t1 t2 Ht1 Ht2| | | |]; subst.
    apply matches_plus_class in Hloc as [Hloc1 Hloc2].
    apply matches_plus_class in Hdom as [Hdom1 Hdom2].
    apply matches_plus_class in Ht2 as [Ht21 Ht22].
    apply matches_class_inv in Hat as (c1 & -> & ->%Ascii.eqb_eq).
    apply matches_class_inv in Hdot as (c2 & -> & ->%Ascii.eqb_eq).
    apply matches_class_inv in Ht1 as (c3 & -> & Hc3).
    exists loc, dom, (String c3 t2). split_and!; try done.
    + destruct t2; [done|]. cbn. lia.
    + cbn. by rewrite Hc3, Ht22.
  - intros (loc & dom & tld & -> & Hloc1 & Hloc2 & Hdom1 & Hdom2 & Hlen & Htld).
    destruct tld as [|c3 [|c4 t]]; [cbn in Hlen; lia.. |].
    cbn in Htld. apply andb_prop in Htld as [Hc3 Ht].
    apply matches_seq; [by apply matches_plus_class|].
    apply (matches_seq _ _ "@"); [by constructor|].
    apply matches_seq; [by apply matches_plus_class|].
    apply (matches_seq _ _ "."); [by constructor|].
    apply (matches_seq _ _ (String c3 "") (String c4 t)); [by constructor|].
    by apply matches_plus_class.
Qed.

(** ** Validation of a message *)

Lemma first_error_None {A} (f : A → option error) (l : list A) :
  Email.first_error f l = None ↔ Forall (λ a, f a = None) l.
Proof.
  induction l as [|x l IH]; cbn; [by split|].
  rewrite Forall_cons. destruct (f x); [|tauto].
  split; [done | by intros [? _]].
Qed.

Lemma validate_attachment_None a :
  Email.validate_attachment a = None ↔ attachment_ok a.
Proof.
  unfold Email.validate_attachment, attachment_ok, Email.validateAttachmentType.
  assert (length (Attachment.Content a) = 0%nat ↔ Attachment.Content a = [])
    as Hlen by (by destruct (Attachment.Content a)).
  case_bool_decide as Hf; [split; [done | tauto]|].
  case_bool_decide as Hc.
  { split; [done|]. intros (_ & Hin & _). rewrite Hc in Hin.
    by apply (bool_decide_eq_false_1 _) in Hin. }
  case_bool_decide as Hz; [split; [done | tauto]|].
  case_bool_decide as Ht; cbn [negb]; [|split; [done | tauto]].
  tauto.
Qed.

(** X2.  [Validate] accepts a message exactly when it is well formed. *)
Theorem Validate_accepts_well_formed (e : Email.t) :
  Email.Validate e = None ↔ well_formed e.
Proof.
  unfold Email.Validate, well_formed.
  assert (Email.first_error Email.validate_recipient
            (Email.To e ++ Email.CC e ++ Email.BCC e) = None
          ↔ Forall address_shape (Email.To e ++ Email.CC e ++ Email.BCC e)) as Hrec.
  { rewrite first_error_None. apply Forall_proper; [|done]. intros r.
    unfold Email.validate_recipient. rewrite <- isValidEmail_shape.
    by destruct (Email.isValidEmail r). }
  assert (Email.first_error Email.validate_attachment (Email.Attachments e) = None
          ↔ Forall attachment_ok (Email.Attachments e)) as Hatt.
  { rewrite first_error_None. apply Forall_proper; [|done]. intros a.
    apply validate_attachment_None. }
  destruct (Email.To e) as [|t To], (Email.CC e) as [|c CC], (Email.BCC e) as [|b BCC];
    cbn [length bool_decide decide_rel andb app];
    try (rewrite ?bool_decide_eq_true_2, ?bool_decide_eq_false_2 by done;
         cbn [andb]).
  all: try (split; [done | by intros [? _]]).
  all: destruct (Email.first_error Email.validate_recipient _);
         [split; [done | intros (_ & H & _); by apply Hrec in H] |].
  all: destruct (Chars.trims_to_empty (Email.Subject e));
         [split; [done | by intros (_ & _ & ? & _)] |].
  all: destruct (Chars.trims_to_empty (Email.Body e));
         [split; [done | by intros (_ & _ & _ & ? & _)] |].
  all: rewrite Hatt; split; [intros H; split_and!; try done; by apply Hrec | tauto].
Qed.

(** ** The alert to the administrator *)

Lemma alert_email_valid now task email :
  Email.Validate (worker.alert_email now task email) = None.
Proof. reflexivity. Qed.

(** ** The store of failed tasks *)

(** X3.  [SaveFailedTask] refuses a task whose retry count has reached the
    limit of the policy and leaves the store as it was; otherwise the
    task is stored under its identifier, where [GetTaskByID] and
    [HasFailedTask] find it, and the entries under other identifiers
    are kept. *)
Theorem SaveFailedTask_then_lookup (task : EmailTask.t) (r : RetryPolicy.t) :
  if decide (EmailTask.RetryCount task < RetryPolicy.MaxRetries r) then
    (RetryPolicy.SaveFailedTask task r).2 = None ∧
    RetryPolicy.GetTaskByID (EmailTask.TaskID task)
      (RetryPolicy.SaveFailedTask task r).1 = (Some task, None) ∧
    RetryPolicy.HasFailedTask (EmailTask.TaskID task)
      (RetryPolicy.SaveFailedTask task r).1 = true ∧
    ∀ id, id ≠ EmailTask.TaskID task →
      RetryPolicy.GetTaskByID id (RetryPolicy.SaveFailedTask task r).1
        = RetryPolicy.GetTaskByID id r
  else
    RetryPolicy.SaveFailedTask task r
      = (r, Some (ErrNew "max retry attempts reached")).
Proof.
  unfold RetryPolicy.SaveFailedTask, RetryPolicy.GetTaskByID,
    RetryPolicy.HasFailedTask.
  case_decide as Hlt.
  - rewrite bool_decide_eq_false_2 by lia. cbn. rewrite lookup_insert_eq.
    split_and!; [done | done | by apply bool_decide_eq_true_2 |].
    intros id Hid. by rewrite lookup_insert_ne.
  - by rewrite bool_decide_eq_true_2 by lia.
Qed.

(** X4.  After [RemoveTask] the identifier is no longer found, the other
    entries are kept, and removing a task that was just saved under a
    new identifier gives back the store as it was before. *)
Theorem RemoveTask_forgets_task (task : EmailTask.t) (id : string) (r : RetryPolicy.t) :
  RetryPolicy.HasFailedTask id (RetryPolicy.RemoveTask id r) = false ∧
  RetryPolicy.GetTaskByID id (RetryPolicy.RemoveTask id r)
    = (None, Some (ErrNew "task not found")) ∧
  (∀ id', id' ≠ id →
     RetryPolicy.GetTaskByID id' (RetryPolicy.RemoveTask id r)
       = RetryPolicy.GetTaskByID id' r) ∧
  (RetryPolicy.HasFailedTask (EmailTask.TaskID task) r = false →
   RetryPolicy.RemoveTask (EmailTask.TaskID task)
     (RetryPolicy.SaveFailedTask task r).1 = r).
Proof.
  unfold RetryPolicy.RemoveTask, RetryPolicy.GetTaskByID, RetryPolicy.HasFailedTask,
    RetryPolicy.SaveFailedTask.
  cbn [RetryPolicy.FailedTaskStore]. rewrite lookup_delete_eq. split_and!.
  - apply bool_decide_eq_false_2. by intros [? ?].
  - done.
  - intros id' Hne. by rewrite lookup_delete_ne.
  - intros Hno. apply bool_decide_eq_false_1 in Hno.
    apply eq_None_not_Some in Hno.
    destruct r as [mx iv st]. cbn in *. case_bool_decide; cbn.
    + by rewrite delete_id.
    + by rewrite delete_insert_id.
Qed.

(** X5.  [GetFailedTasks] lists, without an error, the stored tasks whose own
    retry count is below their own limit, and no other task; after
    [ClearFailedTasks] it lists none.  The retry counts in the store
    are not negative (the back-off of [ShouldRetry] shifts by the
    count). *)
Theorem GetFailedTasks_lists_retryable (r : RetryPolicy.t) (task : EmailTask.t) :
  (∀ id t, RetryPolicy.FailedTaskStore r !! id = Some t → 0 <= EmailTask.RetryCount t) →
  (RetryPolicy.GetFailedTasks r).2 = None ∧
  (task ∈ (RetryPolicy.GetFailedTasks r).1 ↔
     (∃ id, RetryPolicy.FailedTaskStore r !! id = Some task) ∧
     EmailTask.RetryCount task < EmailTask.MaxRetries task) ∧
  (RetryPolicy.GetFailedTasks (RetryPolicy.ClearFailedTasks r)).1 = [].
Proof.
  intros _.
  unfold RetryPolicy.GetFailedTasks. cbn [fst snd]. split_and!; [done | | done].
  rewrite list_elem_of_filter, list_elem_of_fmap.
  unfold EmailTask.ShouldRetry. split.
  - intros [Hs ([id t] & -> & Hin)]. apply elem_of_map_to_list in Hin. cbn.
    cbn [snd] in Hs. split; [eauto|].
    destruct (decide (EmailTask.RetryCount t < EmailTask.MaxRetries t)); [done|].
    by rewrite bool_decide_eq_true_2 in Hs by lia.
  - intros [[id Hid] Hlt]. split; [by rewrite bool_decide_eq_false_2 by lia|].
    exists (id, task). split; [done|]. by apply elem_of_map_to_list.
Qed.

Lemma GetFailedTasks_lists_retryable_witness :
  sample_task 1 ∈ (RetryPolicy.GetFailedTasks
                      (RetryPolicy.SaveFailedTask (sample_task 1)
                         (RetryPolicy.NewRetryPolicy 3 [])).1).1.
Proof.
  refine (proj2 (proj1 (proj2 (GetFailedTasks_lists_retryable
                                 (RetryPolicy.SaveFailedTask (sample_task 1)
                                    (RetryPolicy.NewRetryPolicy 3 [])).1
                                 (sample_task 1) _))) _).
  - intros id t H.
    change (<["" := sample_task 1]> (∅ : gmap string EmailTask.t) !! id = Some t) in H.
    apply lookup_insert_Some in H as [[_ <-]|[_ H]]; [done|].
    by rewrite lookup_empty in H.
  - split; [|done]. exists "". reflexivity.
Defined.

(** ** The interval before a retry: when the lookup panics *)

Lemma GetRetryInterval_is_Some (r : RetryPolicy.t) (retryCount : Z) :
  0 <= retryCount → RetryPolicy.RetryIntervals r ≠ [] →
  is_Some (RetryPolicy.GetRetryInterval r retryCount).
Proof.
  intros Hrc Hne.
  unfold RetryPolicy.GetRetryInterval, GoInt.index, GoInt.len.
  destruct (RetryPolicy.RetryIntervals r) as [|d l]; [done|]. cbn [length].
  case_bool_decide; rewrite decide_True by lia;
    apply lookup_lt_is_Some_2; cbn [length]; lia.
Qed.

(** X6.  [GetRetryInterval] panics exactly when the retry count is negative
    or the policy has no interval. *)
Theorem GetRetryInterval_panics_iff (r : RetryPolicy.t) (retryCount : Z) :
  RetryPolicy.GetRetryInterval r retryCount = None ↔
  retryCount < 0 ∨ RetryPolicy.RetryIntervals r = [].
Proof.
  split.
  - intros Hnone.
    destruct (decide (retryCount < 0)) as [|Hrc]; [by left|]. right.
    destruct (RetryPolicy.RetryIntervals r) as [|d l] eqn:Hl; [done|].
    destruct (GetRetryInterval_is_Some r retryCount) as [x Hx];
      [lia | by rewrite Hl | congruence].
  - unfold RetryPolicy.GetRetryInterval, GoInt.index, GoInt.len.
    intros [Hneg| ->].
    + case_bool_decide; [|by rewrite decide_False by lia].
      case_decide; [|done]. apply lookup_ge_None. lia.
    + cbn. case_bool_decide; case_decide; by rewrite ?lookup_nil.
Qed.

(** ** Counting retries *)

(** X7.  After [k > 0] calls of [IncrementRetry] the retry count is the
    smaller of the count plus [k] and the limit; the task is marked
    failed as soon as the count has reached the limit, and keeps its
    status before that.  Nothing else changes. *)
Theorem IncrementRetry_counts_up_to_limit (t : EmailTask.t) (k : nat) :
  GoInt.min_int <= EmailTask.RetryCount t < GoInt.max_int →
  GoInt.min_int <= EmailTask.MaxRetries t < GoInt.max_int →
  (0 < k)%nat →
  EmailTask.RetryCount (Nat.iter k EmailTask.IncrementRetry t)
    = Z.min (EmailTask.RetryCount t + Z.of_nat k) (EmailTask.MaxRetries t) ∧
  EmailTask.Status (Nat.iter k EmailTask.IncrementRetry t)
    = (if decide (EmailTask.RetryCount t + Z.of_nat k < EmailTask.MaxRetries t)
       then EmailTask.Status t else EmailStatusFailed) ∧
  EmailTask.set_Status "" (EmailTask.set_RetryCount 0
                             (Nat.iter k EmailTask.IncrementRetry t))
    = EmailTask.set_Status "" (EmailTask.set_RetryCount 0 t).
Proof.
  intros Hrc Hmax Hk. destruct k as [|k]; [lia|]. clear Hk.
  induction k as [|k IH].
  - change (Nat.iter 1 EmailTask.IncrementRetry t) with (EmailTask.IncrementRetry t).
    unfold EmailTask.IncrementRetry, GoInt.incr.
    rewrite wrap_id by (unfold GoInt.in_range; lia).
    cbn [EmailTask.RetryCount EmailTask.MaxRetries EmailTask.set_RetryCount].
    case_bool_decide; case_decide; try lia; cbn; split_and!; try done; lia.
  - destruct IH as (IHrc & IHst & IHrest).
    set (u := Nat.iter (S k) EmailTask.IncrementRetry t) in *.
    change (Nat.iter (S (S k)) EmailTask.IncrementRetry t)
      with (EmailTask.IncrementRetry u).
    assert (EmailTask.MaxRetries u = EmailTask.MaxRetries t) as Hmx.
    { by apply (f_equal EmailTask.MaxRetries) in IHrest. }
    unfold EmailTask.IncrementRetry, GoInt.incr.
    rewrite wrap_id by (unfold GoInt.in_range; lia).
    cbn [EmailTask.RetryCount EmailTask.MaxRetries EmailTask.set_RetryCount].
    destruct u as [id em pn rc mx ra ca st pr]. cbn in *. subst mx.
    injection IHrest as -> -> -> -> -> ->.
    case_bool_decide; repeat case_decide; try lia; cbn; split_and!; try done; lia.
Qed.

Lemma IncrementRetry_counts_up_to_limit_witness :
  EmailTask.RetryCount (Nat.iter 2 EmailTask.IncrementRetry (sample_task 1)) = 2 ∧
  EmailTask.Status (Nat.iter 2 EmailTask.IncrementRetry (sample_task 1)) = "queued" ∧
  EmailTask.RetryCount (Nat.iter 5 EmailTask.IncrementRetry (sample_task 1)) = 3 ∧
  EmailTask.Status (Nat.iter 5 EmailTask.IncrementRetry (sample_task 1)) = "failed".
Proof.
  split_and!.
  - refine (proj1 (IncrementRetry_counts_up_to_limit (sample_task 1) 2 _ _ _));
      [vm_compute; split; [discriminate | reflexivity] ..| lia].
  - refine (proj1 (proj2 (IncrementRetry_counts_up_to_limit (sample_task 1) 2 _ _ _)));
      [vm_compute; split; [discriminate | reflexivity] ..| lia].
  - refine (proj1 (IncrementRetry_counts_up_to_limit (sample_task 1) 5 _ _ _));
      [vm_compute; split; [discriminate | reflexivity] ..| lia].
  - refine (proj1 (proj2 (IncrementRetry_counts_up_to_limit (sample_task 1) 5 _ _ _)));
      [vm_compute; split; [discriminate | reflexivity] ..| lia].
Defined.

(** ** The retry goroutine of the queue *)

(** X8.  [ProcessQueue] and [RetryFailedTasks] call [IncrementRetry] and then
    [retryFailedTask] on a task that [ShouldRetry] accepted.  The
    goroutine puts the task back into the queue, with one more retry
    counted, only when the count is still below the limit after the
    increment; a task on its last retry is marked failed and dropped. *)
Theorem queue_retry_requeues_below_limit (task : EmailTask.t) (env : Env) (s : Sys) :
  0 <= EmailTask.RetryCount task < EmailTask.MaxRetries task →
  EmailTask.MaxRetries task <= GoInt.max_int →
  EmailTask.Email task ≠ None →
  ∃ s',
    queue.retryFailedTask_go (EmailTask.IncrementRetry task) env s = (Some tt, s') ∧
    goroutines s' = goroutines s ∧
    if decide (EmailTask.RetryCount task + 1 < EmailTask.MaxRetries task) then
      tq s' ≡ₚ enqueued env s
                 (EmailTask.set_RetryCount (EmailTask.RetryCount task + 1) task)
               :: tq s ∧
      finished s' = finished s
    else
      tq s' = tq s ∧
      finished s' = finished s ++ [EmailTask.MarkAsFailed task].
Proof.
  intros Hrc Hmax Hemail.
  unfold queue.retryFailedTask_go, EmailTask.IncrementRetry, GoInt.incr.
  rewrite wrap_id by (unfold GoInt.in_range, GoInt.min_int, GoInt.max_int in *; lia).
  cbn [EmailTask.RetryCount EmailTask.MaxRetries EmailTask.set_RetryCount].
  case_bool_decide as Hge; case_decide as Hlt; try lia.
  - rewrite ShouldRetry_MarkAsFailed.
    eexists. split; [reflexivity|]. cbn. by split_and!.
  - unfold EmailTask.ShouldRetry.
    cbn [EmailTask.RetryCount EmailTask.MaxRetries EmailTask.set_RetryCount].
    rewrite bool_decide_eq_false_2 by lia.
    destruct (Enqueue_spec env s
                (EmailTask.set_RetryCount (EmailTask.RetryCount task + 1) task))
      as (pq' & Hrun & Hperm & _).
    unfold bind. rewrite Hrun. cbn [EmailTask.Email EmailTask.set_RetryCount].
    destruct (EmailTask.Email task); [|done]. cbn.
    eexists. split; [reflexivity|]. by cbn.
Qed.

Lemma queue_retry_requeues_below_limit_witness :
  ∃ s', queue.retryFailedTask_go
          (EmailTask.IncrementRetry
             (EmailTask.set_RetryCount 2 (sample_task 1)))
          env_refusing (boot 3 sample_smtp) = (Some tt, s') ∧
        tq s' = [] ∧ (summary <$> finished s') = [(3, 3, "failed")].
Proof.
  destruct (queue_retry_requeues_below_limit
              (EmailTask.set_RetryCount 2 (sample_task 1))
              env_refusing (boot 3 sample_smtp))
    as (s' & Hrun & _ & Hcase).
  - cbn. lia.
  - vm_compute. discriminate.
  - done.
  - exists s'. split; [exact Hrun|].
    rewrite decide_False in Hcase by (cbn; lia).
    destruct Hcase as [-> ->]. by split.
Defined.

(** ** Turns of [ProcessQueue] under any schedule *)

Lemma handle_completed task env s :
  EmailTask.IsCompleted task = true →
  queue.handle task env s = (Some tt, set_finished (finished s ++ [task]) s).
Proof. intros Hc. unfold queue.handle. by rewrite Hc. Qed.

Lemma handle_sent task e r w1 env s :
  EmailTask.Email task = Some e →
  EmailTask.IsCompleted task = false →
  EmailProvider.Send (service s) e env (world s) = (Some (Ok r), w1) →
  queue.handle task env s =
    (Some tt,
     mkSys w1 (queue s) (goroutines s) (finished s ++ [EmailTask.MarkAsSent task])).
Proof.
  unfold service. intros He Hc Hsend. unfold queue.handle. rewrite Hc.
  unfold bind at 1. unfold must at 1. rewrite He.
  unfold bind at 1. unfold queue.processTask.
  unfold bind at 1. unfold get at 1. unfold bind at 1. unfold must at 1. rewrite He.
  unfold bind at 1. unfold in_world at 1. rewrite Hsend. reflexivity.
Qed.

Lemma MarkAsFailed_twice t :
  EmailTask.MarkAsFailed (EmailTask.MarkAsFailed t) = EmailTask.MarkAsFailed t.
Proof. reflexivity. Qed.

(** One turn on a queue that is not empty. *)
Lemma turn_spec env s :
  tq s ≠ [] → answers (service s) → Forall has_message (tq s) →
  ∃ x x' pq' w1,
    queue.ProcessQueue_turn env s =
      (Some tt,
       mkSys w1 (DefaultEmailQueue.set_taskQueue pq' (queue s)) (goroutines s)
         (finished s ++ [x'])) ∧
    tq s ≡ₚ x :: pq' ∧
    left_as x x' ∧
    (heap_ordered (tq s) → heap_ordered pq' ∧ ∀ y, y ∈ tq s → prio x <= prio y) ∧
    (if EmailTask.IsCompleted x then w1 = world s
     else ∃ e, EmailTask.Email x = Some e ∧
               w1 = (EmailProvider.Send (service s) e env (world s)).2 ∧
               (x' = EmailTask.MarkAsSent x ↔
                ∃ r, (EmailProvider.Send (service s) e env (world s)).1 = Some (Ok r))).
Proof.
  intros Hne Hans Hmsg.
  destruct (pop_spec env s) as [_ Hpop].
  destruct (Hpop Hne) as (x & pq' & Hrun & Hperm & Hord).
  unfold queue.ProcessQueue_turn. unfold bind at 1. rewrite Hrun.
  set (s1 := set_queue (DefaultEmailQueue.set_taskQueue pq' (queue s)) s).
  assert (has_message x) as Hx.
  { eapply Forall_forall; [exact Hmsg|]. rewrite Hperm. by left. }
  destruct (EmailTask.Email x) as [e|] eqn:He; [|done].
  unfold left_as.
  destruct (EmailTask.IsCompleted x) eqn:Hc.
  - rewrite (handle_completed _ _ _ Hc). exists x, x, pq', (world s).
    rewrite Hc. by split_and!.
  - destruct (Hans e env (world s)) as (r & w1 & Hsend).
    destruct r as [r|err].
    + rewrite (handle_sent x e r w1 env s1 He Hc Hsend).
      exists x, (EmailTask.MarkAsSent x), pq', w1. rewrite Hc.
      split_and!; [done | done | by left | done |].
      exists e. rewrite Hsend. split_and!; [done | done |]. split; eauto.
    + rewrite (handle_failed_send x e err w1 env s1 He Hc Hsend).
      exists x, (EmailTask.MarkAsFailed x), pq', w1. rewrite Hc.
      split_and!; [done | done | by right | done |].
      exists e. rewrite Hsend. split_and!; [done | done |].
      split; [by destruct x | by intros [? [=]]].
Qed.

(** X9.  Under any schedule of turns, started without waiting goroutines,
    the loop of [ProcessQueue] does not panic and starts no goroutine;
    the tasks it popped are all in [finished], a completed task as it
    was and any other marked sent or failed; the other tasks are still
    queued; no task is put into the store of failed tasks; and the
    tasks were popped by priority. *)
Theorem any_schedule_completes_popped_tasks (steps : list Step) (env : Env) (s : Sys) :
  goroutines s = [] →
  answers (service s) →
  Forall has_message (tq s) →
  ∃ s' popped done,
    run steps env s = (Some tt, s') ∧
    goroutines s' = [] ∧
    DefaultEmailQueue.retryPolicy (queue s') = DefaultEmailQueue.retryPolicy (queue s) ∧
    tq s ≡ₚ popped ++ tq s' ∧
    finished s' = finished s ++ done ∧
    Forall2 left_as popped done ∧
    (heap_ordered (tq s) →
       heap_ordered (tq s') ∧
       StronglySorted Z.le (prio <$> popped) ∧
       ∀ x y, x ∈ popped → y ∈ tq s' → prio x <= prio y).
Proof.
  revert s. induction steps as [|st steps IH]; intros s Hg Hans Hmsg.
  - exists s, [], []. rewrite app_nil_r. split_and!; try done.
    intros Hh. split_and!; [done | constructor | by intros x y ?%elem_of_nil].
  - cbn [run]. unfold bind at 1.
    assert ((st = StepTurn ∧ tq s ≠ []) ∨ step st env s = (Some tt, s)) as [[-> Hne]| ->].
    { destruct st as [|k].
      - destruct (tq s) as [|x0 l0] eqn:Htq; [right | by left].
        cbn [step]. unfold worker.processQueue_turn, queue.ProcessQueue_turn, bind.
        destruct (pop_spec env s) as [Hnil _]. by rewrite Hnil.
      - right. cbn [step]. unfold bind, get. by rewrite Hg, lookup_nil. }
    + destruct (turn_spec env s Hne Hans Hmsg)
        as (x & x' & pq' & w1 & Hrun & Hperm & Hleft & Hord & _).
      cbn [step]. unfold worker.processQueue_turn. rewrite Hrun.
      match goal with |- context [run steps env ?s1] =>
        destruct (IH s1) as (s' & popped & done & Hrun' & Hg' & Hpol & Hperm' & Hfin & Hall & Hord')
      end; [done | done | |].
      { cbn. eapply Forall_forall. intros y Hy.
        eapply Forall_forall; [exact Hmsg|]. rewrite Hperm. by right. }
      cbn in Hpol, Hperm', Hfin, Hord'.
      exists s', (x :: popped), (x' :: done). rewrite Hrun'.
      split_and!; [done | done | done | | | by constructor |].
      * rewrite Hperm, Hperm'. done.
      * rewrite Hfin. by rewrite <- app_assoc.
      * intros Hh. destruct (Hord Hh) as [Hh' Hmin].
        destruct (Hord' Hh') as (Hh'' & Hsorted & Hle).
        split_and!; [done | |].
        -- cbn. constructor; [done|]. apply Forall_fmap, Forall_forall.
           intros y Hy. cbn. apply Hmin. rewrite Hperm, Hperm'.
           right. apply elem_of_app. by left.
        -- intros a b [->|Ha]%elem_of_cons Hb; [|by apply Hle].
           apply Hmin. rewrite Hperm, Hperm'. right. apply elem_of_app. by right.
    + apply IH; done.
Qed.

Lemma any_schedule_completes_popped_tasks_witness :
  ∃ s', run [StepTurn; StepGo 0; StepTurn] env_refusing
          ((integration.QueueEmail (manager_with 2 sample_smtp) sample_email []
              env_refusing (boot 2 sample_smtp)).2) = (Some tt, s') ∧
        goroutines s' = [].
Proof.
  destruct (any_schedule_completes_popped_tasks [StepTurn; StepGo 0; StepTurn]
              env_refusing
              ((integration.QueueEmail (manager_with 2 sample_smtp) sample_email []
                  env_refusing (boot 2 sample_smtp)).2))
    as (s' & popped & done & Hrun & Hg & _).
  - reflexivity.
  - intros email env w. apply Send_total.
  - vm_compute. repeat constructor; discriminate.
  - exists s'. by split.
Defined.

(** X10.  A task that is already sent or failed is never handed to the
    provider again: under any schedule, a queue that holds only
    completed tasks is emptied into [finished] without a change of the
    tasks and without any use of the network or of the clock. *)
Theorem completed_tasks_are_never_sent (steps : list Step) (env : Env) (s : Sys) :
  goroutines s = [] →
  Forall (λ t, EmailTask.IsCompleted t = true) (tq s) →
  ∃ s' popped,
    run steps env s = (Some tt, s') ∧
    world s' = world s ∧
    goroutines s' = [] ∧
    tq s ≡ₚ popped ++ tq s' ∧
    finished s' = finished s ++ popped.
Proof.
  revert s. induction steps as [|st steps IH]; intros s Hg Hall.
  - exists s, []. by rewrite app_nil_r.
  - cbn [run]. unfold bind at 1.
    assert ((st = StepTurn ∧ tq s ≠ []) ∨ step st env s = (Some tt, s)) as [[-> Hne]| ->].
    { destruct st as [|k].
      - destruct (tq s) as [|x0 l0] eqn:Htq; [right | by left].
        cbn [step]. unfold worker.processQueue_turn, queue.ProcessQueue_turn, bind.
        destruct (pop_spec env s) as [Hnil _]. by rewrite Hnil.
      - right. cbn [step]. unfold bind, get. by rewrite Hg, lookup_nil. }
    + destruct (pop_spec env s) as [_ Hpop].
      destruct (Hpop Hne) as (x & pq' & Hrun & Hperm & _).
      assert (EmailTask.IsCompleted x = true) as Hx.
      { eapply (proj1 (Forall_forall _ _) Hall). rewrite Hperm. by left. }
      cbn [step]. unfold worker.processQueue_turn, queue.ProcessQueue_turn.
      unfold bind at 1. rewrite Hrun, (handle_completed _ _ _ Hx).
      match goal with |- context [run steps env ?s1] =>
        destruct (IH s1) as (s' & popped & Hrun' & Hw & Hg' & Hperm' & Hfin)
      end; [done | |].
      { cbn. eapply Forall_forall. intros y Hy.
        eapply (proj1 (Forall_forall _ _) Hall). rewrite Hperm. by right. }
      cbn in Hw, Hperm', Hfin.
      exists s', (x :: popped). rewrite Hrun'.
      split_and!; [done | done | done | | ].
      * by rewrite Hperm, Hperm'.
      * rewrite Hfin. by rewrite <- app_assoc.
    + by apply IH.
Qed.

Lemma completed_tasks_are_never_sent_witness :
  ∃ s', run [StepTurn; StepTurn] env_accepting
          (mkSys World0
             (DefaultEmailQueue.mk [EmailTask.MarkAsSent (sample_task 1)]
                (RetryPolicy.NewRetryPolicy 3 []) sample_smtp) [] [])
        = (Some tt, s') ∧
        world s' = World0.
Proof.
  destruct (completed_tasks_are_never_sent [StepTurn; StepTurn] env_accepting
              (mkSys World0
                 (DefaultEmailQueue.mk [EmailTask.MarkAsSent (sample_task 1)]
                    (RetryPolicy.NewRetryPolicy 3 []) sample_smtp) [] []))
    as (s' & popped & Hrun & Hw & _).
  - reflexivity.
  - by repeat constructor.
  - exists s'. by split.
Defined.

(** ** Delivery on a network that accepts every message *)

Lemma Send_accepted p env e w :
  accepting env → Email.Validate e = None →
  SMTPProvider.Send p e env w =
    (Some (Ok (EmailResponse.mk "smtp-tls-message-id" EmailStatusSent
                 (now_at env (ticks w)))),
     mkWorld (trace w ++ [EvAttempt "smtp" "TLS" e]) (S (ticks w)) (uuids w)).
Proof.
  intros Hacc Hv. rewrite (Send_valid _ _ _ _ Hv), tryAllConnectionMethods_spec.
  unfold answer. by rewrite Hacc.
Qed.

Lemma sendable_payload t : sendable t → sendable (payload t).
Proof. done. Qed.

Lemma sendable_of_payload t : sendable (payload t) → sendable t.
Proof. done. Qed.

Lemma enqueue_all_frame tasks : ∀ env s r s',
  enqueue_all tasks env s = (r, s') →
  trace (world s') = trace (world s) ∧ service s' = service s ∧
  goroutines s' = goroutines s ∧ finished s' = finished s.
Proof.
  induction tasks as [|task tasks IH]; intros env s r s'; cbn [enqueue_all].
  - by intros [= _ <-].
  - destruct (Enqueue_spec env s task) as (pq' & Hrun & _).
    unfold bind. rewrite Hrun.
    destruct (EmailTask.Email task); cbn [mbind option_bind].
    + intros H. apply IH in H. by cbn in H.
    + by intros [= _ <-].
Qed.

Lemma deliver_all p env n : ∀ s,
  accepting env →
  service s = SMTPProvider.as_provider p →
  goroutines s = [] →
  heap_ordered (tq s) → length (tq s) = n → Forall sendable (tq s) →
  ∃ s' out,
    run (replicate n StepTurn) env s = (Some tt, s') ∧
    out ≡ₚ tq s ∧
    StronglySorted Z.le (prio <$> out) ∧
    trace (world s') = trace (world s) ++ (EvAttempt "smtp" "TLS" <$> (out ≫= message)) ∧
    finished s' = finished s ++ (EmailTask.MarkAsSent <$> out) ∧
    tq s' = [] ∧ goroutines s' = [].
Proof.
  intros s Hacc. revert s.
  induction n as [|n IH]; intros s Hsvc Hg Hh Hlen Hall.
  - exists s, []. apply nil_length_inv in Hlen. rewrite Hlen, !app_nil_r.
    split_and!; try done. constructor.
  - assert (tq s ≠ []) as Hne by (by destruct (tq s)).
    destruct (turn_spec env s Hne) as (x & x' & pq' & w1 & Hrun & Hperm & _ & Hord & Hw).
    { rewrite Hsvc. intros e env' w. apply Send_total. }
    { eapply Forall_impl; [exact Hall|]. intros t (_ & e & He & _).
      unfold has_message. by rewrite He. }
    assert (sendable x) as (Hc & e & He & Hv).
    { eapply (proj1 (Forall_forall _ _) Hall). rewrite Hperm. by left. }
    rewrite Hc in Hw. destruct Hw as (e' & He' & Hw1 & Hx').
    rewrite He in He'. injection He' as <-.
    rewrite Hsvc in Hw1, Hx'.
    change (EmailProvider.Send (SMTPProvider.as_provider p))
      with (SMTPProvider.Send p) in Hw1, Hx'.
    rewrite (Send_accepted p env e (world s) Hacc Hv) in Hw1, Hx'. cbn [fst snd] in Hw1, Hx'.
    assert (x' = EmailTask.MarkAsSent x) as -> by (apply Hx'; eauto). clear Hx'.
    subst w1. destruct (Hord Hh) as [Hh' Hmin].
    cbn [replicate run]. unfold bind at 1. cbn [step].
    unfold worker.processQueue_turn. rewrite Hrun.
    match goal with |- context [run _ env ?s1] =>
      destruct (IH s1) as (s' & out & Hrun' & Hperm' & Hsorted & Htr & Hfin & Hq & Hg')
    end; [done | done | done | | |].
    { cbn. apply Permutation_length in Hperm. cbn in Hperm. lia. }
    { cbn. eapply Forall_forall. intros y Hy.
      eapply (proj1 (Forall_forall _ _) Hall). rewrite Hperm. by right. }
    cbn in Hperm', Htr, Hfin.
    exists s', (x :: out). rewrite Hrun'.
    split_and!; [done | | | | | done | done].
    + rewrite Hperm. by constructor.
    + cbn. constructor; [done|]. apply Forall_fmap, Forall_forall.
      intros y Hy. cbn. apply Hmin. rewrite Hperm. right. by rewrite <- Hperm'.
    + rewrite Htr. cbn [mbind list_bind]. unfold message at 2. rewrite He.
      cbn. by rewrite <- app_assoc.
    + rewrite Hfin. cbn. by rewrite <- app_assoc.
Qed.

(** X11.  On a network that accepts every message at the first attempt, with
    the SMTP provider as the provider of the queue and the turns of
    the loop run one after the other: the tasks that were queued are
    all sent, each one by a single attempt, in the order of their
    priority (lowest number first), and end marked sent. *)
Theorem accepted_messages_leave_by_priority
    (p : SMTPProvider.t) (tasks : list EmailTask.t) (env : Env) (s : Sys) :
  accepting env →
  service s = SMTPProvider.as_provider p →
  tq s = [] → goroutines s = [] →
  Forall sendable tasks →
  ∃ s' out,
    (enqueue_all tasks ;; run (replicate (length tasks) StepTurn)) env s
      = (Some tt, s') ∧
    payload <$> out ≡ₚ payload <$> tasks ∧
    StronglySorted Z.le (prio <$> out) ∧
    trace (world s') = trace (world s) ++ (EvAttempt "smtp" "TLS" <$> (out ≫= message)) ∧
    finished s' = finished s ++ (EmailTask.MarkAsSent <$> out) ∧
    tq s' = [] ∧ goroutines s' = [].
Proof.
  intros Hacc Hsvc Hq Hg Hall.
  destruct (enqueue_all_spec tasks env s) as (s1 & Hrun & Hperm & Hord).
  { eapply Forall_impl; [exact Hall|]. intros t (_ & e & He & _). by rewrite He. }
  destruct (enqueue_all_frame _ _ _ _ _ Hrun) as (Htr1 & Hsvc1 & Hg1 & Hfin1).
  rewrite Hq in Hperm. cbn in Hperm. rewrite app_nil_r in Hperm.
  destruct (deliver_all p env (length tasks) s1)
    as (s' & out & Hrun' & Hperm' & Hsorted & Htr & Hfin & Hq' & Hg'); try done.
  - congruence.
  - congruence.
  - apply Hord. rewrite Hq. apply heap_ordered_nil.
  - apply Permutation_length in Hperm. by rewrite !length_fmap in Hperm.
  - apply Forall_forall. intros t Ht.
    assert (payload t ∈ payload <$> tasks) as Hin.
    { rewrite <- Hperm. by apply list_elem_of_fmap_2. }
    apply list_elem_of_fmap in Hin as (t0 & Heq & Hin).
    apply sendable_of_payload. rewrite Heq. apply sendable_payload.
    by eapply (proj1 (Forall_forall _ _) Hall).
  - exists s', out. unfold bind. rewrite Hrun, Hrun'.
    split_and!; try done.
    + by rewrite Hperm'.
    + by rewrite Htr, Htr1.
    + by rewrite Hfin, Hfin1.
Qed.

Lemma accepted_messages_leave_by_priority_witness :
  ∃ s', (enqueue_all [sample_task 5; sample_task 1] ;;
         run (replicate 2 StepTurn)) env_accepting (boot 3 sample_smtp)
        = (Some tt, s') ∧
        tq s' = [].
Proof.
  destruct (accepted_messages_leave_by_priority sample_provider
              [sample_task 5; sample_task 1] env_accepting (boot 3 sample_smtp))
    as (s' & out & Hrun & _ & _ & _ & _ & Hq & _).
  - intros n email. reflexivity.
  - reflexivity.
  - reflexivity.
  - reflexivity.
  - repeat constructor; exists sample_email; split; reflexivity.
  - exists s'. by split.
Defined.

(** ** What a send through SMTP adds to the trace *)

Lemma Send_trace p env e w :
  ∃ r w' methods,
    SMTPProvider.Send p e env w = (Some r, w') ∧
    trace w' = attempted w methods e ∧
    (Email.Validate e = None →
       methods = ["TLS"] ∨ methods = ["TLS"; "STARTTLS"]
       ∨ methods = ["TLS"; "STARTTLS"; "Plain"]) ∧
    (Email.Validate e ≠ None → methods = []).
Proof.
  destruct (Email.Validate e) as [err|] eqn:Hv.
  - rewrite (Send_invalid _ _ _ _ _ Hv). exists (Err (ErrWrap "email validation failed" err)), w, [].
    unfold attempted. cbn. rewrite app_nil_r. by split_and!.
  - rewrite (Send_valid _ _ _ _ Hv), tryAllConnectionMethods_spec.
    destruct (answer env w 0 "TLS" e); [destruct (answer env w 1 "STARTTLS" e);
      [destruct (answer env w 2 "Plain" e)|]|].
    all: eexists _, _, _; split; [reflexivity|]; cbn [trace advanced];
      split; [reflexivity|]; split; [intros _; auto | done].
Qed.

(** ** The alert to the administrator *)

Lemma notifyAdminOnFailure_spec p m task e env s :
  EmailTask.Email task = Some e →
  EmailManager.defaultProvider m = Some (SMTPProvider.as_provider p) →
  worker.notifyAdminOnFailure m task env s =
    (Some tt,
     mkSys
       (SMTPProvider.Send p
          (worker.alert_email (now_at env (ticks (world s))) task e) env
          (mkWorld (trace (world s)) (S (ticks (world s))) (uuids (world s)))).2
       (queue s) (goroutines s) (finished s)).
Proof.
  intros He Hp.
  destruct (Send_total p env
              (worker.alert_email (now_at env (ticks (world s))) task e)
              (mkWorld (trace (world s)) (S (ticks (world s))) (uuids (world s))))
    as (r & w' & Hsend).
  unfold worker.notifyAdminOnFailure.
  unfold bind at 1. unfold must at 1. rewrite He.
  unfold bind at 1. unfold in_world at 1, time_Now at 1. cbn [set_world world].
  unfold bind at 1. unfold in_world at 1, integration.Send. rewrite Hp.
  unfold bind at 1. cbn [set_world world EmailProvider.Send SMTPProvider.as_provider].
  rewrite Hsend. by destruct r.
Qed.

(** X12.  The alert that [notifyAdminOnFailure] builds passes validation
    whatever the failed task holds, so that with the SMTP provider as
    default provider it is always handed to the network, by TLS first;
    the call returns whether or not the alert could be sent, and only
    the network and the clock are used. *)
Theorem alert_always_reaches_network
    (p : SMTPProvider.t) (m : EmailManager.t) (task : EmailTask.t) (e : Email.t)
    (env : Env) (s : Sys) :
  EmailTask.Email task = Some e →
  EmailManager.defaultProvider m = Some (SMTPProvider.as_provider p) →
  ∃ s' methods,
    worker.notifyAdminOnFailure m task env s = (Some tt, s') ∧
    Email.Validate (worker.alert_email (now_at env (ticks (world s))) task e) = None ∧
    Email.To (worker.alert_email (now_at env (ticks (world s))) task e)
      = ["admin@tnprgpv.com"] ∧
    trace (world s') =
      attempted (world s) methods
        (worker.alert_email (now_at env (ticks (world s))) task e) ∧
    (methods = ["TLS"] ∨ methods = ["TLS"; "STARTTLS"]
     ∨ methods = ["TLS"; "STARTTLS"; "Plain"]) ∧
    queue s' = queue s ∧ goroutines s' = goroutines s ∧ finished s' = finished s.
Proof.
  intros He Hp. rewrite (notifyAdminOnFailure_spec p m task e env s He Hp).
  set (alert := worker.alert_email (now_at env (ticks (world s))) task e).
  destruct (Send_trace p env alert
              (mkWorld (trace (world s)) (S (ticks (world s))) (uuids (world s))))
    as (r & w' & methods & Hsend & Htr & Hm & _).
  rewrite Hsend. eexists _, methods. split; [reflexivity|]. cbn [snd world queue goroutines finished].
  split_and!; [done | done | exact Htr | by apply Hm | done..].
Qed.

Lemma alert_always_reaches_network_witness :
  ∃ s', worker.notifyAdminOnFailure (manager_with 3 sample_smtp) (sample_task 1)
          env_refusing (boot 3 sample_smtp) = (Some tt, s') ∧
        queue s' = queue (boot 3 sample_smtp).
Proof.
  destruct (alert_always_reaches_network sample_provider (manager_with 3 sample_smtp)
              (sample_task 1) sample_email env_refusing (boot 3 sample_smtp))
    as (s' & methods & Hrun & _ & _ & _ & _ & Hq & _).
  - reflexivity.
  - reflexivity.
  - exists s'. by split.
Defined.

(** ** Building the manager *)

(** X13.  [NewEmailManager] succeeds exactly when email is enabled and an SMTP
    host is configured.  The manager it returns has the SMTP provider
    as its only provider and as default provider, whatever provider
    name the configuration asks for. *)
Theorem NewEmailManager_builds_smtp_or_refuses
    (config : EmailConfig.t) (emailQueue : option EmailQueueRef) :
  integration.NewEmailManager config emailQueue =
    if EmailConfig.Enabled config
       && negb (bool_decide (SMTPConfig.Host (EmailConfig.SMTP config) = ""))
    then
      Ok (EmailManager.mk (EmailConfig.MaxRetries config)
            {["smtp" := SMTPProvider.as_provider
                          (SMTPProvider.NewSMTPProvider (EmailConfig.SMTP config))]}
            (Some (SMTPProvider.as_provider
                     (SMTPProvider.NewSMTPProvider (EmailConfig.SMTP config))))
            emailQueue)
    else
      Err (ErrNew "no valid email provider configured or email sending is disabled").
Proof.
  unfold integration.NewEmailManager, integration.loadProviders.
  destruct (EmailConfig.Enabled config); cbn [andb negb].
  - case_bool_decide as Hhost; cbn [negb andb].
    + rewrite !lookup_empty. done.
    + rewrite insert_empty.
      destruct (decide (EmailConfig.Provider config = "smtp")) as [->|Hne].
      * by rewrite lookup_singleton_eq.
      * rewrite lookup_singleton_ne by done. by rewrite lookup_singleton_eq.
  - rewrite andb_false_r. rewrite !lookup_empty. done.
Qed.

(** ** The wiring of the pipeline *)

Lemma RegisterRoutes_spec cfg env :
  router.RegisterRoutes cfg env =
    if EmailConfig.Enabled cfg
       && negb (bool_decide (SMTPConfig.Host (EmailConfig.SMTP cfg) = ""))
    then
      Ok (Some
            (EmailManager.mk (EmailConfig.MaxRetries cfg)
               {["smtp" := SMTPProvider.as_provider
                             (SMTPProvider.NewSMTPProvider (EmailConfig.SMTP cfg))]}
               (Some (SMTPProvider.as_provider
                        (SMTPProvider.NewSMTPProvider (EmailConfig.SMTP cfg))))
               (Some TheEmailQueue),
             EmailWorker.mk
               (RetryPolicy.NewRetryPolicy (EmailConfig.MaxRetries cfg)
                  (EmailConfig.RetryIntervals cfg))
               (EmailConfig.MaxRetries cfg),
             mkSys World0
               (DefaultEmailQueue.mk []
                  (RetryPolicy.NewRetryPolicy (EmailConfig.MaxRetries cfg)
                     (EmailConfig.RetryIntervals cfg))
                  (SMTPProvider.as_provider
                     (SMTPProvider.NewSMTPProvider (EmailConfig.SMTP cfg))))
               [] []))
    else
      Err (ErrNew "no valid email provider configured or email sending is disabled").
Proof.
  unfold router.RegisterRoutes, integration.NewEmailManager, integration.loadProviders.
  destruct (EmailConfig.Enabled cfg); cbn [andb negb].
  - case_bool_decide as Hhost; cbn [negb andb].
    + rewrite !lookup_empty. done.
    + rewrite insert_empty.
      destruct (decide (EmailConfig.Provider cfg = "smtp")) as [->|Hne].
      * by rewrite lookup_singleton_eq.
      * rewrite lookup_singleton_ne by done. by rewrite lookup_singleton_eq.
  - rewrite andb_false_r. rewrite !lookup_empty. done.
Qed.

(** X14.  In the pipeline as [RegisterRoutes] wires it, a message that passes
    validation is queued by [QueueEmail] under the name "smtp", and the
    next turn of [ProcessQueue] hands it to the provider of that name:
    every attempt on the network is made by the provider that the task
    names, there is at least one, and the task ends marked sent or
    failed. *)
Theorem wired_pipeline_delivers_by_named_provider
    (cfg : EmailConfig.t) (env0 env : Env) (m : EmailManager.t)
    (w : EmailWorker.t) (s : Sys) (email : Email.t) (params : list Z) :
  router.RegisterRoutes cfg env0 = Ok (Some (m, w, s)) →
  Email.Validate email = None →
  ∃ s1 s2 t t',
    integration.QueueEmail m email params env s = (Some None, s1) ∧
    tq s1 = [t] ∧
    EmailTask.ProviderName t = "smtp" ∧
    queue.ProcessQueue_turn env s1 = (Some tt, s2) ∧
    tq s2 = [] ∧ goroutines s2 = [] ∧
    finished s2 = [t'] ∧
    (t' = EmailTask.MarkAsSent t ∨ t' = EmailTask.MarkAsFailed t) ∧
    trace (world s2) ≠ [] ∧
    Forall (λ ev, event_provider ev = EmailTask.ProviderName t) (trace (world s2)).
Proof.
  intros Hsetup Hv. rewrite RegisterRoutes_spec in Hsetup.
  destruct (EmailConfig.Enabled cfg && _); [|done].
  injection Hsetup as <- <- <-.
  set (p := SMTPProvider.NewSMTPProvider (EmailConfig.SMTP cfg)).
  set (m := EmailManager.mk _ _ _ _). set (s := mkSys _ _ _ _).
  destruct (QueueEmail_valid m email params (SMTPProvider.as_provider p) env s)
    as (t & s1 & Hrun & Hperm & _ & Htr & Hg & Hfin & Hsvc & Hname & _ & _ & _ & Hst & e & He & Heq);
    [done..|].
  cbn in Hperm, Htr, Hg, Hfin, Hsvc, Hname.
  apply Permutation_singleton_r in Hperm.
  assert (Email.Validate e = None) as Hve.
  { rewrite <- Hv. clear -Heq. destruct e, email. cbn in Heq.
    by injection Heq as -> -> -> -> -> -> -> -> ->. }
  destruct (turn_spec env s1) as (x & x' & pq' & w1 & Hturn & Hperm1 & Hleft & _ & Hw).
  { by rewrite Hperm. }
  { unfold service. rewrite Hsvc. intros e' env' w'. apply Send_total. }
  { rewrite Hperm. constructor; [|done]. unfold has_message. by rewrite He. }
  rewrite Hperm in Hperm1. apply Permutation_singleton_l in Hperm1.
  injection Hperm1 as <- <-.
  assert (EmailTask.IsCompleted t = false) as Hc.
  { unfold EmailTask.IsCompleted. by rewrite Hst. }
  unfold left_as in Hleft. rewrite Hc in Hleft, Hw.
  destruct Hw as (e' & He' & Hw1 & _). rewrite He in He'. injection He' as <-.
  unfold service in Hw1. rewrite Hsvc in Hw1.
  destruct (Send_trace p env e (world s1)) as (r & w' & methods & Hsend & Htr' & Hm & _).
  change (EmailProvider.Send (SMTPProvider.as_provider p)) with (SMTPProvider.Send p) in Hw1.
  rewrite Hsend in Hw1. cbn [snd] in Hw1. subst w1.
  exists s1, (mkSys w' (DefaultEmailQueue.set_taskQueue [] (queue s1)) (goroutines s1)
                (finished s1 ++ [x'])), t, x'.
  split_and!; [done | done | done | done | done | done | by cbn; rewrite Hfin | done | |].
  - cbn. rewrite Htr'. unfold attempted. rewrite Htr. cbn.
    destruct (Hm Hve) as [->|[->| ->]]; done.
  - cbn. rewrite Htr'. unfold attempted. rewrite Htr. cbn.
    rewrite Hname. apply Forall_fmap, Forall_forall. by intros method _.
Qed.

Lemma wired_pipeline_delivers_by_named_provider_witness :
  ∃ m w s s1,
    router.RegisterRoutes
      (EmailConfig.mk "sendgrid" "sender@example.com" 3 [] sample_smtp_config true)
      env_accepting = Ok (Some (m, w, s)) ∧
    integration.QueueEmail m sample_email [] env_refusing s = (Some None, s1) ∧
    EmailTask.ProviderName <$> tq s1 = ["smtp"].
Proof.
  pose proof (RegisterRoutes_spec
                (EmailConfig.mk "sendgrid" "sender@example.com" 3 [] sample_smtp_config true)
                env_accepting) as Hsetup.
  change (router.RegisterRoutes
            (EmailConfig.mk "sendgrid" "sender@example.com" 3 [] sample_smtp_config true)
            env_accepting = Ok (Some (manager_with 3 sample_smtp,
                                      sample_worker 3, boot 3 sample_smtp)))
    in Hsetup.
  destruct (wired_pipeline_delivers_by_named_provider _ _ env_refusing _ _ _
              sample_email [] Hsetup eq_refl)
    as (s1 & s2 & t & t' & Hrun & Hq & Hname & _).
  exists (manager_with 3 sample_smtp), (sample_worker 3), (boot 3 sample_smtp), s1.
  split_and!; [done | done |]. by rewrite Hq, <- Hname.
Defined.

(** ** Retries on the path through [processEmailTask] *)

Lemma Send_refused p env e w :
  refusing env → Email.Validate e = None →
  ∃ err,
    SMTPProvider.Send p e env w =
      (Some (Err err),
       mkWorld (attempted w ["TLS"; "STARTTLS"; "Plain"] e) (ticks w) (uuids w)).
Proof.
  intros Href Hv. rewrite (Send_valid _ _ _ _ Hv), tryAllConnectionMethods_spec.
  unfold answer.
  destruct (net env (length (trace w) + 0) "smtp" "TLS" e) eqn:H1;
    [|by apply Href in H1].
  destruct (net env (length (trace w) + 1) "smtp" "STARTTLS" e) eqn:H2;
    [|by apply Href in H2].
  destruct (net env (length (trace w) + 2) "smtp" "Plain" e) eqn:H3;
    [|by apply Href in H3].
  eauto.
Qed.

Lemma pop_singleton env s t :
  tq s = [t] →
  queue.pop env s =
    (Some (Some t), set_queue (DefaultEmailQueue.set_taskQueue [] (queue s)) s).
Proof.
  intros Hq. destruct (pop_spec env s) as [_ Hpop].
  destruct Hpop as (x & pq' & Hrun & Hperm & _); [by rewrite Hq|].
  rewrite Hq in Hperm. apply Permutation_singleton_l in Hperm.
  injection Hperm as <- <-. done.
Qed.

Lemma Enqueue_empty env s task e :
  tq s = [] → EmailTask.Email task = Some e →
  queue.Enqueue task env s =
    (Some None,
     mkSys (mkWorld (trace (world s)) (S (ticks (world s))) (S (uuids (world s))))
       (DefaultEmailQueue.set_taskQueue [enqueued env s task] (queue s))
       (goroutines s) (finished s)).
Proof.
  intros Hq He. destruct (Enqueue_spec env s task) as (pq' & Hrun & Hperm & _).
  rewrite Hq in Hperm. apply Permutation_singleton_r in Hperm. subst pq'.
  rewrite Hrun, He. done.
Qed.

Lemma attempts_of_app tr1 tr2 :
  attempts_of (tr1 ++ tr2) = attempts_of tr1 ++ attempts_of tr2.
Proof. apply fmap_app. Qed.

(** The last turn: the count has reached the limit. *)
Lemma worker_turn_gives_up p w m env s task e :
  refusing env →
  EmailManager.defaultProvider m = Some (SMTPProvider.as_provider p) →
  tq s = [task] → EmailTask.Email task = Some e → Email.Validate e = None →
  EmailTask.RetryCount task >= EmailTask.MaxRetries task →
  ∃ s',
    worker_turn w m env s = (Some tt, s') ∧
    tq s' = [] ∧ goroutines s' = goroutines s ∧
    finished s' = finished s ++ [EmailTask.MarkAsFailed task] ∧
    attempts_of (trace (world s')) =
      attempts_of (trace (world s)) ++ one_send (Email.To e)
        ++ one_send ["admin@tnprgpv.com"].
Proof.
  intros Href Hp Hq He Hv Hrc.
  unfold worker_turn. unfold bind at 1. rewrite (pop_singleton env s task Hq).
  set (s1 := set_queue _ s).
  destruct (Send_refused p env e (world s1) Href Hv) as (err & Hsend).
  unfold worker.processEmailTask.
  unfold bind at 1. unfold must at 1. rewrite He.
  unfold bind at 1. unfold in_world at 1. unfold integration.Send at 1. rewrite Hp.
  unfold bind at 1. cbn [EmailProvider.Send SMTPProvider.as_provider].
  rewrite Hsend. cbn [ret fst snd].
  unfold EmailTask.ShouldRetry. rewrite bool_decide_eq_true_2 by done.
  unfold worker.handleFailedTask.
  unfold bind at 1. unfold bind at 1. unfold must at 1.
  cbn [EmailTask.Email EmailTask.MarkAsFailed EmailTask.set_Status
       EmailTask.set_RetryCount]. rewrite He.
  fold (EmailTask.MarkAsFailed task).
  rewrite (notifyAdminOnFailure_spec p m (EmailTask.MarkAsFailed task) e env _ He Hp).
  cbn [world set_world trace ticks uuids queue goroutines finished].
  match goal with |- context [SMTPProvider.Send p ?a env ?w2] =>
    destruct (Send_refused p env a w2 Href (alert_email_valid _ _ _)) as (err2 & Hsend2)
  end.
  rewrite Hsend2. eexists. split; [reflexivity|].
  cbn. split_and!; [done | done | done |].
  unfold attempted. cbn [trace]. rewrite !attempts_of_app.
  by rewrite <- app_assoc.
Qed.

Lemma step_go_first g gs env s :
  goroutines s = g :: gs →
  step (StepGo 0) env s = run_goroutine g env (set_goroutines gs s).
Proof.
  intros Hg. cbn [step]. unfold bind at 1. unfold get at 1. rewrite Hg.
  change ((g :: gs) !! 0%nat) with (Some g). cbn beta iota.
  unfold bind, modify. by rewrite Hg.
Qed.

(** A turn before the limit: the send fails and a retry is scheduled. *)
Lemma worker_turn_schedules_retry p w m env s task e :
  refusing env →
  EmailManager.defaultProvider m = Some (SMTPProvider.as_provider p) →
  RetryPolicy.RetryIntervals (EmailWorker.retryPolicy w) ≠ [] →
  tq s = [task] →
  EmailTask.Email task = Some e → Email.Validate e = None →
  0 <= EmailTask.RetryCount task < EmailTask.MaxRetries task →
  ∃ delay,
    worker_turn w m env s =
      (Some tt,
       mkSys (mkWorld (attempted (world s) ["TLS"; "STARTTLS"; "Plain"] e)
                (ticks (world s)) (uuids (world s)))
         (DefaultEmailQueue.set_taskQueue [] (queue s))
         (goroutines s ++ [GoWorkerRetry delay task]) (finished s)).
Proof.
  intros Href Hp Hiv Hq He Hv Hrc.
  unfold worker_turn. unfold bind at 1.
  rewrite (pop_singleton env s task Hq).
  set (s1 := set_queue _ s).
  destruct (Send_refused p env e (world s1) Href Hv) as (err & Hsend).
  unfold worker.processEmailTask.
  unfold bind at 1. unfold must at 1. rewrite He.
  unfold bind at 1. unfold in_world at 1. unfold integration.Send at 1. rewrite Hp.
  unfold bind at 1. cbn [EmailProvider.Send SMTPProvider.as_provider].
  rewrite Hsend. cbn [ret fst snd].
  unfold EmailTask.ShouldRetry. rewrite bool_decide_eq_false_2 by lia.
  unfold worker.retryFailedTask. unfold bind at 1. unfold must at 1.
  destruct (GetRetryInterval_is_Some (EmailWorker.retryPolicy w)
              (EmailTask.RetryCount task)) as [delay ->]; [lia | done |].
  exists delay. reflexivity.
Qed.

(** A round before the limit: the task comes back with one more retry. *)
Lemma worker_round_retries p w m env s task e :
  refusing env →
  EmailManager.defaultProvider m = Some (SMTPProvider.as_provider p) →
  RetryPolicy.RetryIntervals (EmailWorker.retryPolicy w) ≠ [] →
  tq s = [task] → goroutines s = [] →
  EmailTask.Email task = Some e → Email.Validate e = None →
  0 <= EmailTask.RetryCount task < EmailTask.MaxRetries task →
  EmailTask.MaxRetries task <= GoInt.max_int →
  ∃ s' task',
    worker_round w m env s = (Some tt, s') ∧
    tq s' = [task'] ∧ goroutines s' = [] ∧ finished s' = finished s ∧
    EmailTask.Email task' = Some e ∧
    EmailTask.RetryCount task' = EmailTask.RetryCount task + 1 ∧
    EmailTask.MaxRetries task' = EmailTask.MaxRetries task ∧
    attempts_of (trace (world s')) =
      attempts_of (trace (world s)) ++ one_send (Email.To e).
Proof.
  intros Href Hp Hiv Hq Hg He Hv Hrc Hmax.
  destruct (worker_turn_schedules_retry p w m env s task e) as [delay Hturn];
    [done..|].
  unfold worker_round. unfold bind at 1. rewrite Hturn, Hg. cbn [app].
  rewrite (step_go_first (GoWorkerRetry delay task) []) by done.
  cbn [run_goroutine]. unfold worker.retryFailedTask_go. unfold bind at 1.
  rewrite (Enqueue_empty env _ _ e); [|done..].
  unfold GoInt.incr.
  rewrite wrap_id by (unfold GoInt.in_range, GoInt.min_int, GoInt.max_int in *; lia).
  eexists _, _. split; [reflexivity|].
  cbn. split_and!; try done.
  unfold attempted. by rewrite attempts_of_app.
Qed.

Lemma worker_path_spec p w m env d : ∀ s task e,
  refusing env →
  EmailManager.defaultProvider m = Some (SMTPProvider.as_provider p) →
  RetryPolicy.RetryIntervals (EmailWorker.retryPolicy w) ≠ [] →
  tq s = [task] → goroutines s = [] →
  EmailTask.Email task = Some e → Email.Validate e = None →
  0 <= EmailTask.RetryCount task →
  EmailTask.MaxRetries task = EmailTask.RetryCount task + Z.of_nat d →
  EmailTask.MaxRetries task <= GoInt.max_int →
  ∃ s' task',
    worker_path d w m env s = (Some tt, s') ∧
    tq s' = [] ∧ goroutines s' = [] ∧
    finished s' = finished s ++ [task'] ∧
    EmailTask.Email task' = Some e ∧
    EmailTask.RetryCount task' = EmailTask.MaxRetries task ∧
    EmailTask.MaxRetries task' = EmailTask.MaxRetries task ∧
    EmailTask.Status task' = EmailStatusFailed ∧
    attempts_of (trace (world s')) =
      attempts_of (trace (world s))
        ++ concat (replicate (S d) (one_send (Email.To e)))
        ++ one_send ["admin@tnprgpv.com"].
Proof.
  induction d as [|d IH]; intros s task e Href Hp Hiv Hq Hg He Hv Hrc Hd Hmax.
  - destruct (worker_turn_gives_up p w m env s task e) as (s' & Hrun & Hq' & Hg' & Hf & Htr);
      [done.. | lia |].
    exists s', (EmailTask.MarkAsFailed task). cbn [worker_path].
    split_and!; [done | done | congruence | done | done | done | done | done |].
    rewrite Htr. cbn [replicate concat]. by rewrite app_nil_r.
  - destruct (worker_round_retries p w m env s task e)
      as (s1 & task1 & Hrun1 & Hq1 & Hg1 & Hf1 & He1 & Hrc1 & Hmax1 & Htr1);
      [done.. | lia | done |].
    destruct (IH s1 task1 e) as (s' & task' & Hrun & Hq' & Hg' & Hf & He' & Hrc' & Hmax' & Hst & Htr);
      [done.. | lia | lia | lia |].
    exists s', task'. cbn [worker_path]. unfold bind at 1. rewrite Hrun1, Hrun.
    split_and!; [done | done | done | congruence | done | congruence | congruence | done |].
    rewrite Htr, Htr1. cbn [replicate concat]. by rewrite <- !app_assoc.
Qed.

(** X15.  A task that is handed to [processEmailTask] each time it is popped,
    on a network that refuses every attempt: the message is sent once
    and then once more for each retry that the limit of the task
    allows, each time by the three methods; then the task is marked
    failed and one alert is sent to the administrator. *)
Theorem processEmailTask_retries_to_the_limit_then_alerts
    (p : SMTPProvider.t) (w : EmailWorker.t) (m : EmailManager.t) (env : Env)
    (s : Sys) (task : EmailTask.t) (e : Email.t) (limit : nat) :
  refusing env →
  EmailManager.defaultProvider m = Some (SMTPProvider.as_provider p) →
  RetryPolicy.RetryIntervals (EmailWorker.retryPolicy w) ≠ [] →
  tq s = [task] → goroutines s = [] →
  EmailTask.Email task = Some e → Email.Validate e = None →
  EmailTask.RetryCount task = 0 →
  EmailTask.MaxRetries task = Z.of_nat limit →
  Z.of_nat limit <= GoInt.max_int →
  ∃ s' task',
    worker_path limit w m env s = (Some tt, s') ∧
    tq s' = [] ∧ goroutines s' = [] ∧
    finished s' = finished s ++ [task'] ∧
    EmailTask.Email task' = Some e ∧
    EmailTask.RetryCount task' = Z.of_nat limit ∧
    EmailTask.Status task' = EmailStatusFailed ∧
    attempts_of (trace (world s')) =
      attempts_of (trace (world s))
        ++ concat (replicate (S limit) (one_send (Email.To e)))
        ++ one_send ["admin@tnprgpv.com"].
Proof.
  intros Href Hp Hiv Hq Hg He Hv Hrc Hmx Hmax.
  destruct (worker_path_spec p w m env limit s task e)
    as (s' & task' & Hrun & Hq' & Hg' & Hf & He' & Hrc' & _ & Hst & Htr);
    [done.. | lia | lia | lia |].
  exists s', task'. split_and!; try done. congruence.
Qed.

Lemma processEmailTask_retries_to_the_limit_then_alerts_witness :
  ∃ s',
    worker_path 3 (sample_worker 3) (manager_with 3 sample_smtp) env_refusing
      (mkSys World0
         (DefaultEmailQueue.mk [sample_task 1] (RetryPolicy.NewRetryPolicy 3 [])
            sample_smtp) [] [])
      = (Some tt, s') ∧
    tq s' = [] ∧
    length (trace (world s')) = 15%nat.
Proof.
  destruct (processEmailTask_retries_to_the_limit_then_alerts
              sample_provider (sample_worker 3) (manager_with 3 sample_smtp)
              env_refusing
              (mkSys World0
                 (DefaultEmailQueue.mk [sample_task 1]
                    (RetryPolicy.NewRetryPolicy 3 []) sample_smtp) [] [])
              (sample_task 1) sample_email 3)
    as (s' & task' & Hrun & Hq & _ & _ & _ & _ & _ & Htr).
  - intros n provider method email. discriminate.
  - reflexivity.
  - discriminate.
  - reflexivity.
  - reflexivity.
  - reflexivity.
  - reflexivity.
  - reflexivity.
  - reflexivity.
  - vm_compute. discriminate.
  - exists s'. split_and!; [done | done |].
    apply (f_equal length) in Htr. unfold attempts_of in Htr.
    rewrite length_fmap in Htr. exact Htr.
Defined.

(** ** The statuses that the task methods write *)

(** X16.  The methods that the pipeline calls on a task keep its status among
    the four statuses that [IsValidStatus] accepts, and none of them
    sets the status "retry". *)
Theorem task_methods_never_set_retry (mus : list Mutation) (t t' : EmailTask.t) :
  mutate_all mus t = Some t' →
  (IsValidStatus (EmailTask.Status t) = true →
   IsValidStatus (EmailTask.Status t') = true) ∧
  (EmailTask.Status t ≠ EmailStatusRetry →
   EmailTask.Status t' ≠ EmailStatusRetry).
Proof.
  revert t. induction mus as [|mu mus IH]; intros t; cbn [mutate_all].
  - by intros [= <-].
  - destruct (mutate mu t) as [t1|] eqn:Hmu; [|done]. cbn. intros Hrest.
    destruct (IH t1 Hrest) as [IHv IHr].
    assert (EmailTask.Status t1 = EmailTask.Status t
            ∨ EmailTask.Status t1 = EmailStatusQueued
            ∨ EmailTask.Status t1 = EmailStatusSent
            ∨ EmailTask.Status t1 = EmailStatusFailed) as Hst.
    { destruct mu as [n1 n2 n3| | | |id now]; cbn [mutate] in Hmu.
      - injection Hmu as <-. by right; left.
      - injection Hmu as <-. unfold EmailTask.IncrementRetry.
        case_bool_decide; [by right; right; right | by left].
      - injection Hmu as <-. by right; right; right.
      - injection Hmu as <-. by right; right; left.
      - destruct (EmailTask.ShouldRetry t); [|done]. injection Hmu as <-. by left. }
    split.
    + intros Hv. apply IHv.
      destruct Hst as [->|[->|[->| ->]]]; done.
    + intros Hr. apply IHr.
      destruct Hst as [->|[->|[->| ->]]]; done.
Qed.

Lemma task_methods_never_set_retry_witness :
  ∃ t', mutate_all [MutIncrementRetry; MutMarkAsSent] (sample_task 1) = Some t' ∧
        EmailTask.Status t' ≠ EmailStatusRetry.
Proof.
  eexists. split; [reflexivity|].
  refine (proj2 (task_methods_never_set_retry [MutIncrementRetry; MutMarkAsSent]
                   (sample_task 1) _ eq_refl) _).
  discriminate.
Defined.

(** ** The task that [QueueEmail] builds *)

(** X17.  A task that [QueueEmail] put into the queue is not completed, names
    the default provider of the manager, and passes the validation of
    tasks when that name is not empty. *)
Theorem queued_task_passes_task_validation
    (m : EmailManager.t) (email : Email.t) (params : list Z) (env : Env)
    (s s' : Sys) (t : EmailTask.t) :
  integration.QueueEmail m email params env s = (Some None, s') →
  tq s' ≡ₚ t :: tq s →
  ∃ p,
    EmailManager.defaultProvider m = Some p ∧
    EmailTask.IsValidProvider [EmailProvider.Name p] t = true ∧
    EmailTask.IsCompleted t = false ∧
    (EmailProvider.Name p ≠ "" → EmailTask.Validate t = None).
Proof.
  intros Hrun Hperm.
  destruct (QueueEmail_success _ _ _ _ _ _ Hrun) as (Hq & Hv & p & Hp).
  destruct (QueueEmail_valid m email params p env s Hq Hv Hp)
    as (task & s1 & Hrun1 & Hperm1 & _ & _ & _ & _ & _ & Hname & _ & _ & _ & Hst & e & He & Heq).
  rewrite Hrun in Hrun1. injection Hrun1 as <-.
  rewrite Hperm in Hperm1.
  apply (Permutation_app_inv_r _ [t] [task]) in Hperm1.
  apply Permutation_singleton_l in Hperm1. injection Hperm1 as <-.
  exists p. split_and!; [done | | |].
  - unfold EmailTask.IsValidProvider. cbn. rewrite Hname.
    by rewrite bool_decide_eq_true_2.
  - unfold EmailTask.IsCompleted. by rewrite Hst.
  - intros Hne. unfold EmailTask.Validate. rewrite He.
    assert (Email.Validate e = None) as ->.
    { rewrite <- Hv. clear -Heq. destruct e, email. cbn in Heq.
      by injection Heq as -> -> -> -> -> -> -> -> ->. }
    rewrite Hname. by rewrite bool_decide_eq_false_2.
Qed.

Lemma queued_task_passes_task_validation_witness :
  ∃ p, EmailManager.defaultProvider (manager_with 3 sample_smtp) = Some p ∧
       EmailTask.IsValidProvider [EmailProvider.Name p] (sample_created 3) = true.
Proof.
  destruct sample_created_by_QueueEmail as (s' & Hrun & Htq).
  destruct (queued_task_passes_task_validation _ _ _ _ _ s' (sample_created 3) Hrun)
    as (p & Hp & Hvalid & _).
  - by rewrite Htq.
  - exists p. by split.
Defined.

(** ** A manager without default provider, a task without message *)

(** X18.  Without a default provider [Send] returns an error and leaves the
    world as it is, whereas [QueueEmail], for a message that passes
    validation, panics when it reads the name of the provider; the
    queue is not touched. *)
Theorem missing_default_provider
    (m : EmailManager.t) (email : Email.t) (params : list Z) (env : Env)
    (w : World) (s : Sys) :
  EmailManager.defaultProvider m = None →
  integration.Send m email env w =
    (Some (Err (ErrNew "email send failed: no default provider configured")), w) ∧
  (EmailManager.emailQueue m ≠ None → Email.Validate email = None →
   integration.QueueEmail m email params env s = (None, s)).
Proof.
  intros Hp. split.
  - unfold integration.Send. by rewrite Hp.
  - intros Hq Hv. unfold integration.QueueEmail.
    destruct (EmailManager.emailQueue m) as [[]|]; [|done].
    by rewrite Hv, Hp.
Qed.

Lemma missing_default_provider_witness :
  integration.QueueEmail
    (EmailManager.mk 3 ∅ None (Some TheEmailQueue)) sample_email []
    env_accepting (boot 3 sample_smtp) = (None, boot 3 sample_smtp).
Proof.
  refine (proj2 (missing_default_provider
                   (EmailManager.mk 3 ∅ None (Some TheEmailQueue)) sample_email []
                   env_accepting World0 (boot 3 sample_smtp) eq_refl) _ eq_refl).
  discriminate.
Defined.

(** X19.  [Enqueue] stores the task before it reads the recipients of its
    message: for a task without message the call panics and the task
    is in the queue afterwards, under a new identifier; the turn of
    [ProcessQueue] that pops it, alone in the queue and not completed,
    panics as well. *)
Theorem Enqueue_stores_task_without_message
    (task : EmailTask.t) (env : Env) (s : Sys) :
  EmailTask.Email task = None →
  (queue.Enqueue task env s).1 = None ∧
  tq (queue.Enqueue task env s).2 ≡ₚ enqueued env s task :: tq s ∧
  (tq s = [] → EmailTask.IsCompleted task = false →
   ∀ env', (queue.ProcessQueue_turn env' (queue.Enqueue task env s).2).1 = None).
Proof.
  intros He. destruct (Enqueue_spec env s task) as (pq' & Hrun & Hperm & _).
  rewrite Hrun, He. cbn [fst snd mbind option_bind queue set_queue tq].
  split_and!; [done | done |].
  intros Hq Hc env'. rewrite Hq in Hperm. apply Permutation_singleton_r in Hperm.
  subst pq'. unfold queue.ProcessQueue_turn. unfold bind at 1.
  rewrite (pop_singleton env' _ (enqueued env s task)) by done.
  unfold queue.handle.
  change (EmailTask.IsCompleted (enqueued env s task))
    with (EmailTask.IsCompleted task). rewrite Hc.
  unfold bind at 1. unfold must at 1.
  change (EmailTask.Email (enqueued env s task)) with (EmailTask.Email task).
  by rewrite He.
Qed.

Lemma Enqueue_stores_task_without_message_witness :
  (queue.Enqueue (EmailTask.set_Email None (sample_task 1)) env_accepting
     (boot 3 sample_smtp)).1 = None ∧
  length (tq (queue.Enqueue (EmailTask.set_Email None (sample_task 1)) env_accepting
                (boot 3 sample_smtp)).2) = 1%nat.
Proof.
  destruct (Enqueue_stores_task_without_message
              (EmailTask.set_Email None (sample_task 1)) env_accepting
              (boot 3 sample_smtp) eq_refl) as (Hpanic & Hperm & _).
  split; [exact Hpanic|]. by rewrite Hperm.
Defined.

(** ** Folding base64 text into lines *)

Section ChunkFacts.

Local Arguments String.append !s1 s2 / : simpl nomatch.

Lemma substring_nil n m : String.substring n m "" = "".
Proof. by destruct n, m. Qed.

Lemma substring_zero s : ∀ n, String.substring n 0 s = "".
Proof. induction s as [|c s IH]; intros [|n]; cbn; auto. Qed.

Lemma substring_add s : ∀ n a b,
  String.substring n (a + b) s
  = String.substring n a s +:+ String.substring (n + a) b s.
Proof.
  induction s as [|c s IH]; intros n a b.
  - by rewrite !substring_nil.
  - destruct n as [|n]; [|apply IH].
    destruct a as [|a]; [done|]. cbn [Nat.add String.substring].
    rewrite (IH 0%nat a b). done.
Qed.

Lemma substring_length s : ∀ n m,
  (n + m ≤ String.length s)%nat → String.length (String.substring n m s) = m.
Proof.
  induction s as [|c s IH]; intros n m; cbn [String.length].
  - intros H. assert (n = 0 ∧ m = 0)%nat as [-> ->] by lia. done.
  - destruct n as [|n]; cbn [String.substring].
    + destruct m as [|m]; [done|]. cbn [String.length]. intros H.
      rewrite (IH 0%nat m); lia.
    + intros H. apply IH. lia.
Qed.

Lemma substring_past s : ∀ n m,
  (String.length s ≤ n)%nat → String.substring n m s = "".
Proof.
  induction s as [|c s IH]; intros n m; [by rewrite substring_nil|].
  cbn [String.length]. destruct n as [|n]; [lia|]. intros H. apply IH. lia.
Qed.

Lemma substring_all s : String.substring 0 (String.length s) s = s.
Proof. induction s as [|c s IH]; [done|]. cbn. by rewrite IH. Qed.

Lemma append_length (s1 s2 : string) :
  String.length (s1 +:+ s2) = (String.length s1 + String.length s2)%nat.
Proof. induction s1 as [|c s1 IH]; [done|]. cbn. by rewrite IH. Qed.

Lemma lines_length chunks :
  String.length (lines chunks)
  = (String.length (joined chunks) + 2 * length chunks)%nat.
Proof.
  induction chunks as [|c chunks IH]; [done|].
  cbn [lines joined foldr length]. fold (lines chunks). fold (joined chunks).
  rewrite !append_length, IH. cbn [SMTPProvider.crlf String.length]. lia.
Qed.

Lemma unfolded_append s1 s2 : unfolded (s1 +:+ s2) = unfolded s1 +:+ unfolded s2.
Proof.
  induction s1 as [|c s1 IH]; [done|]. cbn.
  destruct ((Chars.code c =? 13)%N || (Chars.code c =? 10)%N); [done|].
  cbn. by rewrite IH.
Qed.

Lemma unfolded_lines chunks : unfolded (lines chunks) = unfolded (joined chunks).
Proof.
  induction chunks as [|c chunks IH]; [done|].
  cbn [lines joined foldr]. fold (lines chunks). fold (joined chunks).
  by rewrite !unfolded_append, IH.
Qed.

Lemma unfolded_id s :
  all_chars (λ c, negb ((Chars.code c =? 13)%N || (Chars.code c =? 10)%N)) s = true →
  unfolded s = s.
Proof.
  induction s as [|c s IH]; [done|]. cbn. intros [Hc Hs]%andb_prop.
  apply negb_true_iff in Hc. rewrite Hc. by rewrite IH.
Qed.

(** The loop, started at [i] with [chunked] already written. *)
Lemma chunk_loop_spec input : ∀ turns i chunked,
  (String.length input - i < turns)%nat →
  ∃ chunks,
    SMTPProvider.chunk_loop turns input i chunked = Some (chunked +:+ lines chunks) ∧
    joined chunks = String.substring i (String.length input - i) input ∧
    Forall (λ c, 0 < String.length c ≤ 76)%nat chunks ∧
    (∀ k c, chunks !! k = Some c → (S k < length chunks)%nat →
            String.length c = 76%nat) ∧
    length chunks = ((String.length input - i + 75) / 76)%nat.
Proof.
  induction turns as [|turns IH]; intros i chunked Hfuel; [lia|].
  cbn [SMTPProvider.chunk_loop]. case_bool_decide as Hi.
  2:{ exists []. rewrite append_nil_r.
      replace (String.length input - i)%nat with 0%nat by lia.
      split_and!; [done | by rewrite substring_zero | done | done | done]. }
  case_bool_decide as Hend.
  - (* the last chunk *)
    destruct (IH (i + 76)%nat
                (chunked +:+ (String.substring i (String.length input - i) input
                              +:+ SMTPProvider.crlf)))
      as (chunks & Hrun & Hjoin & _ & _ & Hlen); [lia|].
    replace (String.length input - (i + 76))%nat with 0%nat in Hlen by lia.
    destruct chunks as [|? ?]; [|done]. rewrite Hrun. cbn [lines foldr].
    exists [String.substring i (String.length input - i) input].
    cbn [lines joined foldr]. rewrite !append_nil_r.
    split_and!; [done | done | | |].
    + constructor; [|done]. rewrite substring_length by lia. lia.
    + intros k c _ Hk. cbn in Hk. lia.
    + cbn [length]. lia.
  - (* a full line, and more to come *)
    replace (i + 76 - i)%nat with 76%nat by lia.
    destruct (IH (i + 76)%nat
                (chunked +:+ (String.substring i 76 input +:+ SMTPProvider.crlf)))
      as (chunks & Hrun & Hjoin & Hall & Hfull & Hlen); [lia|].
    rewrite Hrun. exists (String.substring i 76 input :: chunks).
    cbn [lines joined foldr]. fold (lines chunks). fold (joined chunks).
    split_and!.
    + by rewrite !append_assoc.
    + rewrite Hjoin.
      replace (String.length input - i)%nat
        with (76 + (String.length input - (i + 76)))%nat by lia.
      by rewrite substring_add.
    + constructor; [|done]. rewrite substring_length by lia. lia.
    + intros [|k] c; cbn [lookup list_lookup length].
      * intros [= <-] _. apply substring_length. lia.
      * intros Hc Hk. apply (Hfull k c Hc). lia.
    + cbn [length]. rewrite Hlen. lia.
Qed.

End ChunkFacts.

(** X20.  [chunkBase64] returns the input cut into lines, each followed by
    carriage return and line feed: the lines are not empty and hold 76
    characters, except the last one, which may be shorter; put one
    after the other they give the input; and there are as many lines
    as the length of the input divided by 76, rounded up.  An empty
    input gives an empty text. *)
Theorem chunkBase64_cuts_into_lines (input : string) :
  ∃ chunks,
    SMTPProvider.chunkBase64 input = Some (lines chunks) ∧
    joined chunks = input ∧
    Forall (λ c, 0 < String.length c ≤ 76)%nat chunks ∧
    (∀ k c, chunks !! k = Some c → (S k < length chunks)%nat →
            String.length c = 76%nat) ∧
    length chunks = ((String.length input + 75) / 76)%nat ∧
    String.length (lines chunks)
      = (String.length input + 2 * ((String.length input + 75) / 76))%nat.
Proof.
  destruct (chunk_loop_spec input (S (String.length input)) 0 "")
    as (chunks & Hrun & Hjoin & Hall & Hfull & Hlen); [lia|].
  rewrite Nat.sub_0_r in Hjoin, Hlen. rewrite substring_all in Hjoin.
  exists chunks. split_and!; try done.
  by rewrite lines_length, Hjoin, Hlen.
Qed.

(** X21.  Text that holds no carriage return and no line feed, as base64 text
    does, is recovered from the result of [chunkBase64] by taking the
    carriage returns and line feeds out. *)
Theorem chunkBase64_unfolds_to_input (input : string) :
  all_chars (λ c, negb ((Chars.code c =? 13)%N || (Chars.code c =? 10)%N)) input
    = true →
  ∃ out, SMTPProvider.chunkBase64 input = Some out ∧ unfolded out = input.
Proof.
  intros Hin.
  destruct (chunk_loop_spec input (S (String.length input)) 0 "")
    as (chunks & Hrun & Hjoin & _); [lia|].
  rewrite Nat.sub_0_r, substring_all in Hjoin.
  exists (lines chunks). split; [done|].
  by rewrite unfolded_lines, Hjoin, unfolded_id.
Qed.

Lemma chunkBase64_unfolds_to_input_witness :
  ∃ out, SMTPProvider.chunkBase64 "SGVsbG8sIHdvcmxkIQ==" = Some out ∧
         unfolded out = "SGVsbG8sIHdvcmxkIQ==".
Proof. apply chunkBase64_unfolds_to_input. reflexivity. Defined.

